(** * asyncio-roshambo: a best-of-N rock-paper-scissors server

    A shallow embedding of [roshambo.py] and the properties of its game
    object ([Roshambo]) and of its per-connection session handler
    ([one_round], [roshambo_client]).

    Python integers are [Z]; the [bytes] read are lists of [Byte.byte];
    a decoded [str] is the list of its code points; the texts the
    program builds are [string]s, and so are the [bytes] that [encode]
    makes of them for the stream writer.  Exceptions are
    values of [exn], and a computation that may raise returns an
    [outcome].  The interpreter is CPython 3.11 on a 64-bit build, with
    its default settings. *)

From Stdlib Require Import ZArith NArith Lia Bool List.
From Stdlib.Strings Require Import Ascii String Byte.
From stdpp Require Import base list strings pretty.

Local Open Scope string_scope.
Local Open Scope Z_scope.

(** ** Exceptions and outcomes *)

(** [StreamError name] stands for what the streams and the event loop
    raise besides [ConnectionResetError] and the [ValueError] of
    [readline]: [BrokenPipeError], [TimeoutError], [CancelledError] and
    the like.  None of them is a [ValueError], and no [except] clause
    of the program names one of them. *)
Inductive exn : Type :=
| GameOver
| Quit
| ValueError (msg : string)
| IndexError
| UnicodeDecodeError
| ConnectionResetError
| OverflowError
| MemoryError
| StreamError (name : string).

Inductive outcome (A : Type) : Type :=
| Return (a : A)
| Raise (e : exn).

Arguments Return {A} a.
Arguments Raise {A} e.

(** ** The Python built-ins the program relies on *)

Module Py.

(** Index normalisation of [list.__getitem__] / [list.__setitem__]:
    a negative index counts from the end, anything outside
    [-len, len) is an [IndexError]. *)
Definition index {A : Type} (l : list A) (i : Z) : option nat :=
  let n := Z.of_nat (length l) in
  if (0 <=? i) && (i <? n) then Some (Z.to_nat i)
  else if (- n <=? i) && (i <? 0) then Some (Z.to_nat (n + i))
  else None.

Definition getitem {A : Type} (l : list A) (i : Z) : option A :=
  match index l i with
  | Some k => l !! k
  | None => None
  end.

Definition setitem {A : Type} (l : list A) (i : Z) (x : A) : option (list A) :=
  match index l i with
  | Some k => Some (<[k:=x]> l)
  | None => None
  end.

(** The largest value of the index type ([sys.maxsize]). *)
Definition SSIZE_MAX : Z := 2 ^ 63 - 1.

(** [[x] * n].  The count must fit the index type, or the call raises
    [OverflowError]; a negative count gives the empty list; a list
    whose size in bytes would not fit the index type is refused with
    [MemoryError].  Below that the allocation is taken to succeed: the
    memory of the machine is not part of the model. *)
Definition list_repeat {A : Type} (x : A) (n : Z) : outcome (list A) :=
  if (n <? - SSIZE_MAX - 1) || (SSIZE_MAX <? n) then Raise OverflowError
  else if SSIZE_MAX / 8 <? n then Raise MemoryError
  else Return (replicate (Z.to_nat n) x).

(** [s * n] on strings. *)
Fixpoint str_mul (s : string) (n : nat) : string :=
  match n with
  | O => ""
  | S k => s ++ str_mul s k
  end.

Definition bytes : Type := list byte.
Definition str : Type := list N.

Definition is_cont (b : N) : bool := ((128 <=? b) && (b <=? 191))%N.
Definition in_range (lo hi b : N) : bool := ((lo <=? b) && (b <=? hi))%N.
Definition low6 (b : N) : N := (b - 128)%N.

(** [bytes.decode()]: strict UTF-8.  [None] stands for
    [UnicodeDecodeError].  Over-long forms, surrogates and code points
    above U+10FFFF are rejected, as the interpreter does. *)
Fixpoint decode_N (bs : list N) : option str :=
  match bs with
  | [] => Some []
  | b0 :: r1 =>
    if (b0 <? 128)%N then option_map (cons b0) (decode_N r1)
    else if in_range 194 223 b0 then
      match r1 with
      | b1 :: r2 =>
        if is_cont b1
        then option_map (cons ((b0 - 192) * 64 + low6 b1)%N) (decode_N r2)
        else None
      | _ => None
      end
    else if in_range 224 239 b0 then
      match r1 with
      | b1 :: b2 :: r3 =>
        if (if (b0 =? 224)%N then in_range 160 191 b1
            else if (b0 =? 237)%N then in_range 128 159 b1
            else is_cont b1) && is_cont b2
        then option_map
               (cons ((b0 - 224) * 4096 + low6 b1 * 64 + low6 b2)%N)
               (decode_N r3)
        else None
      | _ => None
      end
    else if in_range 240 244 b0 then
      match r1 with
      | b1 :: b2 :: b3 :: r4 =>
        if (if (b0 =? 240)%N then in_range 144 191 b1
            else if (b0 =? 244)%N then in_range 128 143 b1
            else is_cont b1) && is_cont b2 && is_cont b3
        then option_map
               (cons ((b0 - 240) * 262144 + low6 b1 * 4096
                      + low6 b2 * 64 + low6 b3)%N)
               (decode_N r4)
        else None
      | _ => None
      end
    else None
  end.

Definition decode (raw : bytes) : option str :=
  decode_N (map Byte.to_N raw).

(** [str.isspace] on one code point. *)
Definition isspace (c : N) : bool :=
  (in_range 9 13 c || in_range 28 32 c || (c =? 133) || (c =? 160)
   || (c =? 5760) || in_range 8192 8202 c || (c =? 8232) || (c =? 8233)
   || (c =? 8239) || (c =? 8287) || (c =? 12288))%N.

Fixpoint lstrip (s : str) : str :=
  match s with
  | c :: r => if isspace c then lstrip r else s
  | [] => []
  end.

(** [str.strip()]. *)
Definition strip (s : str) : str := rev (lstrip (rev (lstrip s))).

(** The code points of an ASCII literal, to compare a [str] with. *)
Fixpoint literal (s : string) : str :=
  match s with
  | EmptyString => []
  | String a r => N_of_ascii a :: literal r
  end.

Definition str_eqb (a b : str) : bool := bool_decide (a = b).

(** ASCII white space, as [int()] skips it around a literal. *)
Definition ISSPACE (b : N) : bool := (in_range 9 13 b || (b =? 32))%N.

Fixpoint skip_space (s : list N) : list N :=
  match s with
  | c :: r => if ISSPACE c then skip_space r else s
  | [] => []
  end.

Definition is_digit (b : N) : bool := in_range 48 57 b.

(** The digit scan of [int()] in base 10: digits, with single
    underscores allowed between them.  Returns the value, the number
    of digits and what follows; [None] is a syntax error (a doubled or
    trailing underscore). *)
Fixpoint scan_digits (prev_underscore : bool) (digits : nat) (acc : Z)
         (s : list N) : option (Z * nat * list N) :=
  match s with
  | c :: r =>
    if (c =? 95)%N then
      if prev_underscore then None
      else scan_digits true digits acc r
    else if is_digit c then
      scan_digits false (S digits) (10 * acc + Z.of_N (c - 48)) r
    else if prev_underscore then None else Some (acc, digits, s)
  | [] => if prev_underscore then None else Some (acc, digits, [])
  end.

(** The bound on the digits of a decimal literal
    ([sys.int_info.default_max_str_digits]); the program does not
    change it. *)
Definition MAX_STR_DIGITS : Z := 4300.

Inductive int_scan : Type :=
| IntValue (n : Z)
| IntInvalid
| IntTooLong (digits : nat).

(** The parser of [int()] in base 10: optional white space, an
    optional sign, the digits, optional white space, and nothing else.
    The digits are counted, leading zeros included, once the scan has
    found no misplaced underscore and before anything after them is
    looked at: more than [MAX_STR_DIGITS] of them is an error of its
    own. *)
Definition int_N (s : list N) : int_scan :=
  let s1 := skip_space s in
  let '(negative, s2) :=
    match s1 with
    | c :: r => if (c =? 43)%N then (false, r)
                else if (c =? 45)%N then (true, r)
                else (false, s1)
    | [] => (false, s1)
    end in
  match s2 with
  | c :: _ =>
    if (c =? 95)%N then IntInvalid
    else
      match scan_digits false 0 0 s2 with
      | Some (v, digits, rest) =>
        if MAX_STR_DIGITS <? Z.of_nat digits then IntTooLong digits
        else
          match digits, skip_space rest with
          | S _, [] => IntValue (if negative : bool then - v else v)
          | _, _ => IntInvalid
          end
      | None => IntInvalid
      end
  | [] => IntInvalid
  end.

Definition hex_digit (n : N) : ascii :=
  ascii_of_N (if (n <? 10)%N then 48 + n else 87 + n)%N.

Definition quote1 : ascii := ascii_of_N 39.
Definition quote2 : ascii := ascii_of_N 34.
Definition backslash : ascii := ascii_of_N 92.

Definition repr_byte (q : ascii) (b : N) : string :=
  if ((b =? N_of_ascii q) || (b =? 92))%N
  then String backslash (String (ascii_of_N b) "")
  else if (b =? 9)%N then String backslash "t"
  else if (b =? 10)%N then String backslash "n"
  else if (b =? 13)%N then String backslash "r"
  else if ((b <? 32) || (127 <=? b))%N
  then String backslash
         (String "x" (String (hex_digit (b / 16)) (String (hex_digit (b mod 16)) "")))
  else String (ascii_of_N b) "".

(** [repr] of a [bytes] object, as it appears in the message of the
    [ValueError] that [int()] raises. *)
Definition repr_bytes (raw : bytes) : string :=
  let s := map Byte.to_N raw in
  let q := if existsb (N.eqb 39) s && negb (existsb (N.eqb 34) s)
           then quote2 else quote1 in
  String "b" (String q (fold_right (fun b acc => repr_byte q b ++ acc)
                                   (String q "") s)).

(** The first [n] characters of a string. *)
Fixpoint str_take (n : nat) (s : string) : string :=
  match n, s with
  | S k, String c r => String c (str_take k r)
  | _, _ => ""
  end.

(** The messages of the two [ValueError]s of [int]: the first shows the
    [repr] of the first 200 bytes of the argument, cut to 200
    characters; the second the number of digits found. *)
Definition invalid_literal (raw : bytes) : string :=
  "invalid literal for int() with base 10: "
  ++ str_take 200 (repr_bytes (firstn 200 raw)).

Definition too_many_digits (digits : nat) : string :=
  "Exceeds the limit (4300 digits) for integer string conversion: "
  ++ "value has " ++ pretty (Z.of_nat digits)
  ++ " digits; use sys.set_int_max_str_digits() to increase the limit".

(** [int(raw)] for a [bytes] argument. *)
Definition int (raw : bytes) : outcome Z :=
  match int_N (map Byte.to_N raw) with
  | IntValue n => Return n
  | IntInvalid => Raise (ValueError (invalid_literal raw))
  | IntTooLong digits => Raise (ValueError (too_many_digits digits))
  end.

(** [s.isascii()] *)
Fixpoint is_ascii (s : string) : bool :=
  match s with
  | "" => true
  | String c r => (N_of_ascii c <? 128)%N && is_ascii r
  end.

(** [s.encode()], UTF-8, for a text whose code points are below 256,
    one character of the [string] each; the answer holds one byte per
    character.  No code point in that range is a surrogate, so the call
    does not raise. *)
Fixpoint encode (s : string) : string :=
  match s with
  | "" => ""
  | String c r =>
    let n := N_of_ascii c in
    if (n <? 128)%N then String c (encode r)
    else String (ascii_of_N (192 + n / 64))
                (String (ascii_of_N (128 + n mod 64)) (encode r))
  end.

End Py.

(** ** The data model *)

Inductive Choice : Type := ROCK | PAPER | SCISSORS.

Definition Choice_value (c : Choice) : Z :=
  match c with ROCK => 0 | PAPER => 1 | SCISSORS => 2 end.

Definition Choice_name (c : Choice) : string :=
  match c with ROCK => "ROCK" | PAPER => "PAPER" | SCISSORS => "SCISSORS" end.

(** [Choice] mixes in [int]: [==] compares the integer values. *)
Definition Choice_eqb (a b : Choice) : bool :=
  Choice_value a =? Choice_value b.

(** The enumeration call [Choice(n)]. *)
Definition Choice_of_value (n : Z) : outcome Choice :=
  if n =? 0 then Return ROCK
  else if n =? 1 then Return PAPER
  else if n =? 2 then Return SCISSORS
  else Raise (ValueError (pretty n ++ " is not a valid Choice")).

Definition ChoiceMap (c : Choice) : list Choice :=
  match c with
  | ROCK => [PAPER; SCISSORS]
  | PAPER => [SCISSORS; ROCK]
  | SCISSORS => [ROCK; PAPER]
  end.

Inductive Result : Type := LOSE | TIE | WIN.

Definition Result_value (r : Result) : Z :=
  match r with LOSE => 0 | TIE => 1 | WIN => 2 end.

(** [x == Result.WIN] for a slot of [results], which may still hold
    [None]. *)
Definition is_WIN (x : option Result) : bool :=
  match x with
  | Some r => Result_value r =? Result_value WIN
  | None => false
  end.

(** ** The game object *)

Record Roshambo : Type := mkRoshambo {
  rounds : Z;
  round : Z;
  results : list (option Result);
  they_win : bool;
  game_over : bool
}.

(** [Roshambo.__init__] *)
Definition Roshambo_init (n : Z) : outcome Roshambo :=
  if n mod 2 =? 0 then Raise (ValueError "rounds must be odd")
  else
    match Py.list_repeat None n with
    | Return slots => Return {| rounds := n;
                                round := 0;
                                results := slots;
                                they_win := false;
                                game_over := false |}
    | Raise e => Raise e
    end.

(** The comparison in the middle of [throw]: [theirs] is the client's
    choice, [mine] the server's. *)
Definition evaluate (theirs mine : Choice) : outcome Result :=
  if Choice_eqb mine theirs then Return TIE
  else match Py.getitem (ChoiceMap mine) 0 with
       | None => Raise IndexError
       | Some beater => if Choice_eqb theirs beater then Return WIN else Return LOSE
       end.

Definition count_WIN (rs : list (option Result)) : Z :=
  Z.of_nat (length (List.filter is_WIN rs)).

(** The end-of-game test that closes [throw]. *)
Definition finish (self : Roshambo) : Roshambo :=
  if rounds self <=? round self
  then {| rounds := rounds self;
          round := round self;
          results := results self;
          they_win := rounds self / 2 <? count_WIN (results self);
          game_over := true |}
  else self.

(** [Roshambo.throw].  [mine] is the value [random.choice(list(Choice))]
    yields; the draw happens only once the [game_over] guard is passed.
    The second component is the object after the call. *)
Definition throw (self : Roshambo) (theirs mine : Choice)
  : outcome (Choice * Choice * Result * bool) * Roshambo :=
  if game_over self then (Raise GameOver, self)
  else
    match evaluate theirs mine with
    | Return res =>
      match Py.setitem (results self) (round self) (Some res) with
      | None => (Raise IndexError, self)
      | Some rs =>
        let self' := finish {| rounds := rounds self;
                               round := round self + 1;
                               results := rs;
                               they_win := they_win self;
                               game_over := game_over self |} in
        (Return (theirs, mine, res, they_win self'), self')
      end
    | Raise e => (Raise e, self)
    end.

(** ** The connection and its environment *)

(** What [reader.readline()] does on one call: it delivers a line (the
    empty line at end of file), or raises [ConnectionResetError], or
    raises [ValueError] because the line is longer than the limit of
    the reader, or raises another exception of the stream. *)
Inductive read_event : Type :=
| Line (raw : Py.bytes)
| Reset
| Overrun (msg : string)
| ReadError (name : string).

(** What a flush that does not go through raises. *)
Inductive drain_failure : Type :=
| DrainReset
| DrainError (name : string).

Definition drain_exn (f : drain_failure) : exn :=
  match f with
  | DrainReset => ConnectionResetError
  | DrainError name => StreamError name
  end.

(** Everything a session does not control: what the calls of
    [readline] find, whether each flush of the writer goes through and
    what it raises when it does not, and the draws of the process-wide
    random source. *)
Record Env : Type := mkEnv {
  reads : nat -> read_event;
  drains : nat -> bool;
  drain_failures : nat -> drain_failure;
  draws : nat -> Choice
}.

(** What the flush numbered [k] raises when it does not go through. *)
Definition drain_raises (env : Env) (k : nat) : exn :=
  drain_exn (drain_failures env k).

(** The observable steps of a session, in the order they happen.
    [EvWrite data] records the bytes handed to the stream writer, and
    [EvThrow self theirs] a call of [self.throw(theirs)] with the
    object as it is on entry. *)
Inductive event : Type :=
| EvWrite (data : string)
| EvDrain
| EvRead (raw : Py.bytes)
| EvThrow (self : Roshambo) (theirs : Choice)
| EvClose.

Record World : Type := mkWorld {
  game : Roshambo;
  trace : list event;
  nread : nat;
  ndrain : nat;
  ndraw : nat
}.

Definition new_world (g : Roshambo) : World :=
  {| game := g; trace := []; nread := 0; ndrain := 0; ndraw := 0 |}.

Definition log (ev : event) (w : World) : World :=
  {| game := game w; trace := trace w ++ [ev];
     nread := nread w; ndrain := ndrain w; ndraw := ndraw w |}.

(** ** A state-and-exception monad for the handler *)

(** [Pending] is what a fuel-bounded loop answers when the fuel ends
    before the loop does. *)
Inductive status (A : Type) : Type :=
| Returned (a : A)
| Raised (e : exn)
| Pending.

Arguments Returned {A} a.
Arguments Raised {A} e.
Arguments Pending {A}.

Definition M (A : Type) : Type := Env -> World -> status A * World.

Definition ret {A : Type} (a : A) : M A := fun _ w => (Returned a, w).

Definition raise {A : Type} (e : exn) : M A := fun _ w => (Raised e, w).

Definition pending {A : Type} : M A := fun _ w => (Pending, w).

Definition bind {A B : Type} (m : M A) (k : A -> M B) : M B :=
  fun env w =>
    match m env w with
    | (Returned a, w') => k a env w'
    | (Raised e, w') => (Raised e, w')
    | (Pending, w') => (Pending, w')
    end.

Notation "'do' x <- m ; k" := (bind m (fun x => k))
  (at level 10, x name, m at level 100, k at level 200).
Notation "m ;; k" := (bind m (fun _ => k))
  (at level 100, k at level 200, right associativity).

Definition lift {A : Type} (o : outcome A) : M A :=
  match o with
  | Return a => ret a
  | Raise e => raise e
  end.

(** [try: m except ...], the handler choosing the clause by the
    exception; [None] lets the exception through. *)
Definition try_except {A : Type} (m : M A) (handler : exn -> option (M A)) : M A :=
  fun env w =>
    match m env w with
    | (Raised e, w') =>
      match handler e with
      | Some k => k env w'
      | None => (Raised e, w')
      end
    | other => other
    end.

(** ** StringWriter *)

Definition eol : string := String "013" (String "010" "").

(** [writer.write(data)] on the stream writer, [data] being [bytes]. *)
Definition writer_write (data : string) : M unit :=
  fun _ w => (Returned tt, log (EvWrite data) w).

(** [self.writer.write(data.encode())] *)
Definition write (data : string) : M unit :=
  writer_write (Py.encode data).

(** [self.write(data); self.writer.write(self.eol)] *)
Definition writeline (data : string) : M unit :=
  write data ;; writer_write eol.

Fixpoint writelines (data : list string) : M unit :=
  match data with
  | [] => ret tt
  | line :: rest => writeline line ;; writelines rest
  end.

Definition drain : M unit :=
  fun env w =>
    let w' := {| game := game w; trace := trace w ++ [EvDrain];
                 nread := nread w; ndrain := S (ndrain w); ndraw := ndraw w |} in
    if drains env (ndrain w) then (Returned tt, w')
    else (Raised (drain_raises env (ndrain w)), w').

Definition readline : M Py.bytes :=
  fun env w =>
    match reads env (nread w) with
    | Line raw =>
      (Returned raw,
       {| game := game w; trace := trace w ++ [EvRead raw];
          nread := S (nread w); ndrain := ndrain w; ndraw := ndraw w |})
    | Reset =>
      (Raised ConnectionResetError,
       {| game := game w; trace := trace w;
          nread := S (nread w); ndrain := ndrain w; ndraw := ndraw w |})
    | Overrun msg =>
      (Raised (ValueError msg),
       {| game := game w; trace := trace w;
          nread := S (nread w); ndrain := ndrain w; ndraw := ndraw w |})
    | ReadError name =>
      (Raised (StreamError name),
       {| game := game w; trace := trace w;
          nread := S (nread w); ndrain := ndrain w; ndraw := ndraw w |})
    end.

(** [game.throw(theirs)] on the session's game object; a draw of the
    random source is used up once the [game_over] guard is passed. *)
Definition game_throw (theirs : Choice) : M (Choice * Choice * Result * bool) :=
  fun env w =>
    let self := game w in
    let '(r, self') := throw self theirs (draws env (ndraw w)) in
    lift r env
         {| game := self'; trace := trace w ++ [EvThrow self theirs];
            nread := nread w; ndrain := ndrain w;
            ndraw := if game_over self then ndraw w else S (ndraw w) |}.

(** ** The session handler *)

Definition rule : string := Py.str_mul "*" 70.

Definition prompt : string := "Enter a choice [0-2]: ".

(** [raw_choice.decode()] *)
Definition decode (raw : Py.bytes) : M Py.str :=
  match Py.decode raw with
  | Some text => ret text
  | None => raise UnicodeDecodeError
  end.

(** [Choice(int(raw_choice))] *)
Definition parse_choice (raw : Py.bytes) : outcome Choice :=
  match Py.int raw with
  | Return n => Choice_of_value n
  | Raise e => Raise e
  end.

Definition round_sentence (res : Result) : string :=
  if Result_value res =? Result_value TIE then "This round is tied."
  else if Result_value res =? Result_value WIN then "You won this round."
  else "You lost this round.".

(** The [try] statement inside the loop of [one_round]; the answer is
    [true] when the loop is left by [break]. *)
Definition attempt (raw : Py.bytes) : M bool :=
  try_except
    (do choice <- lift (parse_choice raw) ;
     do res <- game_throw choice ;
     let '(res0, res1, res2, _) := res in
     writelines ["You chose: " ++ Choice_name res0;
                 "Computer chose: " ++ Choice_name res1] ;;
     writeline (round_sentence res2) ;;
     drain ;;
     ret true)
    (fun e =>
       match e with
       | ValueError err =>
         Some (writeline ("Invalid choice: " ++ err) ;; drain ;; ret false)
       | _ => None
       end).

(** The [while True] loop of [one_round]. *)
Fixpoint choice_loop (fuel : nat) : M unit :=
  match fuel with
  | O => pending
  | S fuel' =>
    write prompt ;;
    drain ;;
    do raw_choice <- readline ;
    do text <- decode raw_choice ;
    if Py.str_eqb (Py.strip text) (Py.literal "q") then raise Quit
    else
      do done <- attempt raw_choice ;
      if done : bool then ret tt else choice_loop fuel'
  end.

Definition one_round (fuel : nat) : M unit :=
  writelines [rule; "Round {game.round + 1}"; rule] ;;
  writelines ["0 - Rock"; "1 - Paper"; "2 - Scissors"] ;;
  drain ;;
  choice_loop fuel.

(** [while not game.game_over: await one_round(...)] *)
Fixpoint play_loop (fuel : nat) : M unit :=
  fun env w =>
    if game_over (game w) then (Returned tt, w)
    else
      match fuel with
      | O => (Pending, w)
      | S fuel' => (one_round fuel' ;; play_loop fuel') env w
      end.

(** The [try] statement of [roshambo_client]: the message to send, or
    [None] where the handler returns without one. *)
Definition final_message (fuel : nat) : M (option string) :=
  try_except
    (play_loop fuel ;;
     fun env w =>
       (Returned (Some (if they_win (game w) then "You won the game!"
                        else "You lost the game!")), w))
    (fun e =>
       match e with
       | Quit => Some (ret (Some "Giving up?"))
       | UnicodeDecodeError => Some (ret None)
       | ConnectionResetError => Some (ret None)
       | _ => None
       end).

Definition session (fuel : nat) : M unit :=
  do msg <- final_message fuel ;
  match msg with
  | Some text => writer_write (Py.encode text) ;; writer_write eol ;; drain
  | None => ret tt
  end.

(** [with closing(writer): m] *)
Definition closing {A : Type} (m : M A) : M A :=
  fun env w =>
    match m env w with
    | (Pending, w') => (Pending, w')
    | (r, w') => (r, log EvClose w')
    end.

Inductive session_end : Type :=
| SetupFailed (e : exn)
| Served (r : status unit) (w : World).

Definition roshambo_client (fuel : nat) (env : Env) : session_end :=
  match Roshambo_init 3 with
  | Return g =>
    let '(r, w) := closing (session fuel) env (new_world g) in Served r w
  | Raise e => SetupFailed e
  end.

(** The bytes a session has handed to the stream writer, in order. *)
Definition sent (tr : list event) : list string :=
  omap (fun ev => match ev with EvWrite s => Some s | _ => None end) tr.

(** ** Sequences of rounds *)

(** The object after a sequence of calls [throw(theirs)], each with the
    server's draw [mine]; the first exception ends the sequence. *)
Fixpoint play (self : Roshambo) (plays : list (Choice * Choice)) : outcome Roshambo :=
  match plays with
  | [] => Return self
  | (theirs, mine) :: rest =>
    match throw self theirs mine with
    | (Return _, self') => play self' rest
    | (Raise e, _) => Raise e
    end
  end.

(** The relation the game is named after: [beats x] is the choice that
    [x] defeats (rock blunts scissors, paper wraps rock, scissors cut
    paper). *)
Definition beats (x : Choice) : Choice :=
  match x with
  | ROCK => SCISSORS
  | PAPER => ROCK
  | SCISSORS => PAPER
  end.

(** ** The vocabulary of the properties *)

(** What holds of every object built by [Roshambo_init n] and then
    only touched by [throw]. *)
Record consistent (n : Z) (g : Roshambo) : Prop := {
  cons_rounds : rounds g = n;
  cons_length : length (results g) = Z.to_nat n;
  cons_round : 0 <= round g;
  cons_open : game_over g = false -> they_win g = false;
  cons_frozen : game_over g = true ->
                they_win g = (n / 2 <? count_WIN (results g))
}.

(** With a positive round count the counter stays within the slots,
    and the object is over exactly when the counter has reached the
    count. *)
Record in_play (n : Z) (g : Roshambo) : Prop := {
  play_rounds : rounds g = n;
  play_length : length (results g) = Z.to_nat n;
  play_round : 0 <= round g <= n;
  play_over : game_over g = (n <=? round g)
}.

(** The test that makes [one_round] raise [Quit] on a line. *)
Definition is_quit (raw : Py.bytes) : bool :=
  match Py.decode raw with
  | Some text => Py.str_eqb (Py.strip text) (Py.literal "q")
  | None => false
  end.

(** The three messages [roshambo_client] ends a session with. *)
Definition final_messages : list string :=
  ["You won the game!"; "You lost the game!"; "Giving up?"].

(** The events of a session under way: no final message written, no
    quit line read, no [throw] on a finished game, the writer open. *)
Definition ordinary (ev : event) : Prop :=
  match ev with
  | EvWrite data => ~ In data final_messages
  | EvDrain => True
  | EvRead raw => is_quit raw = false
  | EvThrow self _ => game_over self = false
  | EvClose => False
  end.

Definition is_throw (ev : event) : bool :=
  match ev with EvThrow _ _ => true | _ => false end.

Definition throw_count (evs : list event) : nat :=
  length (List.filter is_throw evs).

(** What a loop of the handler may answer, and the events it has then
    produced: the loop is left by [Quit] right after reading a quit
    line, and otherwise all its events are ordinary.  The exceptions of
    the game object, and those of the constructor, never leave a
    loop. *)
Definition loop_shape {A : Type} (r : status A) (evs : list event) : Prop :=
  match r with
  | Raised Quit =>
    exists evs0 raw, evs = (evs0 ++ [EvRead raw])%list
                     /\ Forall ordinary evs0 /\ is_quit raw = true
  | Returned _ | Pending
  | Raised UnicodeDecodeError | Raised ConnectionResetError
  | Raised (ValueError _) | Raised (StreamError _) => Forall ordinary evs
  | Raised _ => False
  end.

(** What the loop of [one_round] guarantees when entered on a game in
    play: at most one call of [throw], exactly one when the loop is
    left by [break], none when it is left by [Quit]. *)
Definition choice_loop_post (n : Z) (w : World) (r : status unit) (w' : World) : Prop :=
  exists evs,
    trace w' = (trace w ++ evs)%list
    /\ in_play n (game w')
    /\ round (game w') = round (game w) + Z.of_nat (throw_count evs)
    /\ (throw_count evs <= 1)%nat
    /\ (forall a, r = Returned a -> throw_count evs = 1%nat)
    /\ (r = Raised Quit -> game w' = game w)
    /\ loop_shape r evs.

(** What the loop of [roshambo_client] guarantees: it only returns
    once the game is over. *)
Definition play_loop_post (n : Z) (w : World) (r : status unit) (w' : World) : Prop :=
  exists evs,
    trace w' = (trace w ++ evs)%list
    /\ in_play n (game w')
    /\ round (game w') = round (game w) + Z.of_nat (throw_count evs)
    /\ (forall a, r = Returned a -> game_over (game w') = true)
    /\ (r = Raised Quit -> game_over (game w') = false)
    /\ loop_shape r evs.

(** The writes of [writelines data]. *)
Definition line_events (data : list string) : list event :=
  flat_map (fun line => [EvWrite (Py.encode line); EvWrite eol]) data.

(** What [one_round] does before its loop. *)
Definition banner : list event :=
  (line_events [rule; "Round {game.round + 1}"; rule]
   ++ line_events ["0 - Rock"; "1 - Paper"; "2 - Scissors"]
   ++ [EvDrain])%list.

Definition verdict (g : Roshambo) : string :=
  if they_win g then "You won the game!" else "You lost the game!".

(** The exceptions a flush raises. *)
Definition flush_exn (e : exn) : Prop :=
  e = ConnectionResetError \/ exists name, e = StreamError name.

(** The exceptions of the streams that no clause of [roshambo_client]
    catches. *)
Definition uncaught (e : exn) : Prop :=
  (exists msg, e = ValueError msg) \/ exists name, e = StreamError name.

(** The five ways a session can stand when [roshambo_client] is done
    with it, or when the fuel ends. *)
Inductive ending (r : status unit) (w : World) : Prop :=
| ended_quit (evs : list event) (raw : Py.bytes) :
    trace w = (evs ++ [EvRead raw; EvWrite "Giving up?"; EvWrite eol;
                       EvDrain; EvClose])%list ->
    Forall ordinary evs -> is_quit raw = true ->
    game_over (game w) = false ->
    r = Returned tt \/ (exists e, r = Raised e /\ flush_exn e) ->
    ending r w
| ended_verdict (evs : list event) :
    trace w = (evs ++ [EvWrite (verdict (game w)); EvWrite eol;
                       EvDrain; EvClose])%list ->
    Forall ordinary evs ->
    game_over (game w) = true ->
    r = Returned tt \/ (exists e, r = Raised e /\ flush_exn e) ->
    ending r w
| ended_silent (evs : list event) :
    trace w = (evs ++ [EvClose])%list ->
    Forall ordinary evs ->
    r = Returned tt ->
    ending r w
| ended_failed (evs : list event) (e : exn) :
    trace w = (evs ++ [EvClose])%list ->
    Forall ordinary evs ->
    r = Raised e -> uncaught e ->
    ending r w
| ended_pending :
    Forall ordinary (trace w) ->
    r = Pending ->
    ending r w.

(** A computation that only appends to the trace. *)
Definition extends {A : Type} (m : M A) : Prop :=
  forall env w, exists evs, trace (snd (m env w)) = (trace w ++ evs)%list.

(** A peer that sends the given lines and then closes its side, over a
    connection that is never reset, with the given draws of the random
    source. *)
Definition scripted (lines : list Py.bytes) (mine : list Choice) : Env :=
  {| reads := fun n => Line (nth n lines []);
     drains := fun _ => true;
     drain_failures := fun _ => DrainReset;
     draws := fun n => nth n mine ROCK |}.

(** The object [Roshambo(rounds=3)] builds. *)
Definition fresh3 : Roshambo :=
  {| rounds := 3; round := 0; results := [None; None; None];
     they_win := false; game_over := false |}.

(** ** The vocabulary of the further properties *)

(** The slot a round leaves in [results]. *)
Definition slot_of (p : Choice * Choice) : option Result :=
  match evaluate (fst p) (snd p) with
  | Return res => Some res
  | Raise _ => None
  end.

(** [x == Result.LOSE] for a slot of [results]. *)
Definition is_LOSE (x : option Result) : bool :=
  match x with
  | Some r => Result_value r =? Result_value LOSE
  | None => false
  end.

Definition count_LOSE (rs : list (option Result)) : Z :=
  Z.of_nat (length (List.filter is_LOSE rs)).

(** The object after the rounds [done] of a match of [n]: their
    outcomes fill the first slots of [results]. *)
Record filled (n : Z) (done : list (Choice * Choice)) (g : Roshambo) : Prop := {
  filled_play : in_play n g;
  filled_round : round g = Z.of_nat (length done);
  filled_results :
    results g = (map slot_of done
                 ++ replicate (Z.to_nat n - length done)%nat None)%list
}.

(** The characters of an integer literal: ASCII white space, a sign,
    an underscore or a digit. *)
Definition literal_char (c : N) : bool :=
  (Py.ISSPACE c || (c =? 43) || (c =? 45) || (c =? 95) || Py.is_digit c)%N.

(** The body of the [while True] loop of [one_round]: one prompt, one
    line, one attempt.  The answer is [true] when the loop is left by
    [break]. *)
Definition loop_body : M bool :=
  write prompt ;;
  drain ;;
  do raw_choice <- readline ;
  do text <- decode raw_choice ;
  if Py.str_eqb (Py.strip text) (Py.literal "q") then raise Quit
  else attempt raw_choice.

(** The world [w] after the events [evs], with the game object [g] and
    the counters moved on. *)
Definition moved (w : World) (g : Roshambo) (evs : list event)
           (reads_done drains_done draws_done : nat) : World :=
  {| game := g;
     trace := trace w ++ evs;
     nread := reads_done + nread w;
     ndrain := drains_done + ndrain w;
     ndraw := draws_done + ndraw w |}.

(** What the client is told after a round. *)
Definition round_report (theirs mine : Choice) (res : Result) : list event :=
  [EvWrite ("You chose: " ++ Choice_name theirs); EvWrite eol;
   EvWrite ("Computer chose: " ++ Choice_name mine); EvWrite eol;
   EvWrite (round_sentence res); EvWrite eol; EvDrain].

(** The ways through one pass of the loop. *)
Inductive pass (env : Env) (w : World) : status bool -> World -> Prop :=
| pass_flush_fails :
    drains env (ndrain w) = false ->
    pass env w (Raised (drain_raises env (ndrain w)))
         (moved w (game w) [EvWrite prompt; EvDrain] 0 1 0)
| pass_reset :
    drains env (ndrain w) = true ->
    reads env (nread w) = Reset ->
    pass env w (Raised ConnectionResetError)
         (moved w (game w) [EvWrite prompt; EvDrain] 1 1 0)
| pass_overrun (msg : string) :
    drains env (ndrain w) = true ->
    reads env (nread w) = Overrun msg ->
    pass env w (Raised (ValueError msg))
         (moved w (game w) [EvWrite prompt; EvDrain] 1 1 0)
| pass_read_error (name : string) :
    drains env (ndrain w) = true ->
    reads env (nread w) = ReadError name ->
    pass env w (Raised (StreamError name))
         (moved w (game w) [EvWrite prompt; EvDrain] 1 1 0)
| pass_undecodable (raw : Py.bytes) :
    drains env (ndrain w) = true ->
    reads env (nread w) = Line raw ->
    Py.decode raw = None ->
    pass env w (Raised UnicodeDecodeError)
         (moved w (game w) [EvWrite prompt; EvDrain; EvRead raw] 1 1 0)
| pass_quit (raw : Py.bytes) :
    drains env (ndrain w) = true ->
    reads env (nread w) = Line raw ->
    is_quit raw = true ->
    pass env w (Raised Quit)
         (moved w (game w) [EvWrite prompt; EvDrain; EvRead raw] 1 1 0)
| pass_invalid (raw : Py.bytes) (err : string) :
    drains env (ndrain w) = true ->
    reads env (nread w) = Line raw ->
    Py.decode raw <> None -> is_quit raw = false ->
    parse_choice raw = Raise (ValueError err) ->
    pass env w
         (if drains env (S (ndrain w)) then Returned false
          else Raised (drain_raises env (S (ndrain w))))
         (moved w (game w)
                [EvWrite prompt; EvDrain; EvRead raw;
                 EvWrite ("Invalid choice: " ++ err); EvWrite eol; EvDrain]
                1 2 0)
| pass_played (raw : Py.bytes) (theirs : Choice) (res : Result) (flag : bool)
              (g' : Roshambo) :
    drains env (ndrain w) = true ->
    reads env (nread w) = Line raw ->
    Py.decode raw <> None -> is_quit raw = false ->
    parse_choice raw = Return theirs ->
    throw (game w) theirs (draws env (ndraw w))
    = (Return (theirs, draws env (ndraw w), res, flag), g') ->
    pass env w
         (if drains env (S (ndrain w)) then Returned true
          else Raised (drain_raises env (S (ndrain w))))
         (moved w g'
                ([EvWrite prompt; EvDrain; EvRead raw; EvThrow (game w) theirs]
                 ++ round_report theirs (draws env (ndraw w)) res)
                1 2 1)
| pass_throw_raises (raw : Py.bytes) (theirs : Choice) (e : exn) :
    drains env (ndrain w) = true ->
    reads env (nread w) = Line raw ->
    Py.decode raw <> None -> is_quit raw = false ->
    parse_choice raw = Return theirs ->
    throw (game w) theirs (draws env (ndraw w)) = (Raise e, game w) ->
    e = GameOver \/ e = IndexError ->
    pass env w (Raised e)
         (moved w (game w)
                [EvWrite prompt; EvDrain; EvRead raw; EvThrow (game w) theirs]
                1 1 (if game_over (game w) then 0 else 1)).

(** The loop of [one_round] as a sequence of passes. *)
Inductive passes (env : Env) : World -> status unit -> World -> Prop :=
| passes_pending (w : World) :
    passes env w Pending w
| passes_break (w w' : World) :
    pass env w (Returned true) w' ->
    passes env w (Returned tt) w'
| passes_raise (w w' : World) (e : exn) :
    pass env w (Raised e) w' ->
    passes env w (Raised e) w'
| passes_again (w w1 w' : World) (r : status unit) :
    pass env w (Returned false) w1 ->
    passes env w1 r w' ->
    passes env w r w'.

(** The loop of [roshambo_client] as a sequence of rounds, each begun
    by the banner. *)
Inductive playing (env : Env) : World -> status unit -> World -> Prop :=
| playing_over (w : World) :
    game_over (game w) = true ->
    playing env w (Returned tt) w
| playing_pending (w : World) :
    game_over (game w) = false ->
    playing env w Pending w
| playing_banner_fails (w : World) :
    game_over (game w) = false ->
    drains env (ndrain w) = false ->
    playing env w (Raised (drain_raises env (ndrain w)))
           (moved w (game w) banner 0 1 0)
| playing_stop (w w' : World) (r : status unit) :
    game_over (game w) = false ->
    drains env (ndrain w) = true ->
    passes env (moved w (game w) banner 0 1 0) r w' ->
    r <> Returned tt ->
    playing env w r w'
| playing_next (w w1 w' : World) (r : status unit) :
    game_over (game w) = false ->
    drains env (ndrain w) = true ->
    passes env (moved w (game w) banner 0 1 0) (Returned tt) w1 ->
    playing env w1 r w' ->
    playing env w r w'.

(** What [roshambo_client] does once its loop has answered [r] in the
    world [w]: the handlers of its [try] statement, the final message
    and the close. *)
Definition conclude (env : Env) (r : status unit) (w : World)
  : status unit * World :=
  let say (msg : string) :=
      (if drains env (ndrain w) then Returned tt
       else Raised (drain_raises env (ndrain w)),
       moved w (game w) [EvWrite msg; EvWrite eol; EvDrain; EvClose] 0 1 0) in
  match r with
  | Returned _ => say (verdict (game w))
  | Raised Quit => say "Giving up?"
  | Raised UnicodeDecodeError | Raised ConnectionResetError =>
    (Returned tt, moved w (game w) [EvClose] 0 0 0)
  | Raised e => (Raised e, moved w (game w) [EvClose] 0 0 0)
  | Pending => (Pending, w)
  end.

(** The lines [readline] has delivered, in order. *)
Definition lines_read (evs : list event) : list Py.bytes :=
  omap (fun ev => match ev with EvRead raw => Some raw | _ => None end) evs.

(** The lines the peer delivers to the calls of [readline] numbered
    [from], [from + 1], ..., [count] of them. *)
Definition lines_sent (env : Env) (from count : nat) : list Py.bytes :=
  omap (fun k => match reads env k with Line raw => Some raw | _ => None end)
       (seq from count).

(** The exception a call of [readline] leads to before any attempt at a
    round: its own, or that of the decoding or of the quit test. *)
Definition stopper (x : read_event) : option exn :=
  match x with
  | Reset => Some ConnectionResetError
  | Overrun msg => Some (ValueError msg)
  | ReadError name => Some (StreamError name)
  | Line raw =>
    match Py.decode raw with
    | None => Some UnicodeDecodeError
    | Some _ => if is_quit raw then Some Quit else None
    end
  end.

(** The last events of a loop that such a call ends. *)
Definition read_tail (x : read_event) : list event :=
  match x with
  | Line raw => [EvWrite prompt; EvDrain; EvRead raw]
  | _ => [EvWrite prompt; EvDrain]
  end.

(** From [w] to [w'] the handler has read the peer's lines in order,
    and a call of [readline] that stops the loops is the last one. *)
Definition reading {A : Type} (env : Env) (w : World) (r : status A) (w' : World)
  : Prop :=
  exists evs k,
    trace w' = (trace w ++ evs)%list
    /\ nread w' = (k + nread w)%nat
    /\ lines_read evs = lines_sent env (nread w) k
    /\ forall j e,
        (j < k)%nat ->
        stopper (reads env (j + nread w)) = Some e ->
        S j = k /\ r = Raised e
        /\ exists evs0, evs = (evs0 ++ read_tail (reads env (j + nread w)))%list.

(** A peer that sends the given lines and then resets the connection. *)
Definition resetting (lines : list Py.bytes) (mine : list Choice) : Env :=
  {| reads := fun n => match nth_error lines n with
                       | Some raw => Line raw
                       | None => Reset
                       end;
     drains := fun _ => true;
     drain_failures := fun _ => DrainReset;
     draws := fun n => nth n mine ROCK |}.

(** The choices handed to [throw], in order. *)
Definition thrown (evs : list event) : list Choice :=
  omap (fun ev => match ev with EvThrow _ theirs => Some theirs | _ => None end) evs.

(** The draws of the random source numbered [from], [from + 1], ...,
    [count] of them. *)
Definition drawn (env : Env) (from count : nat) : list Choice :=
  map (draws env) (seq from count).

(** From [w] to [w'] the game object has gone through the calls of
    [throw] in the trace, each against the next draw. *)
Definition replays (env : Env) (w w' : World) : Prop :=
  exists evs,
    trace w' = (trace w ++ evs)%list
    /\ ndraw w' = (length (thrown evs) + ndraw w)%nat
    /\ play (game w)
            (zip (thrown evs) (drawn env (ndraw w) (length (thrown evs))))
       = Return (game w').

(** A peer that sends the given lines and then closes its side, over a
    connection whose flushes succeed [ok] times and then fail. *)
Definition flaky (lines : list Py.bytes) (mine : list Choice) (ok : nat) : Env :=
  {| reads := fun n => Line (nth n lines []);
     drains := fun k => (k <? ok)%nat;
     drain_failures := fun _ => DrainReset;
     draws := fun n => nth n mine ROCK |}.

(** The last call of [readline] made in [w] raised [e]. *)
Definition read_raised (env : Env) (w : World) (e : exn) : Prop :=
  exists k,
    nread w = S k
    /\ (reads env k = Reset /\ e = ConnectionResetError
        \/ (exists msg, reads env k = Overrun msg /\ e = ValueError msg)
        \/ (exists name, reads env k = ReadError name /\ e = StreamError name)).

(** The last flush made in [w] raised [e]. *)
Definition drain_raised (env : Env) (w : World) (e : exn) : Prop :=
  exists k, ndrain w = S k /\ drains env k = false /\ e = drain_raises env k.

(** A call of [readline] whose line decodes, is not the quit token and
    is no choice: the loop of [one_round] asks again. *)
Definition unusable (x : read_event) : bool :=
  match x with
  | Line raw =>
    match Py.decode raw, parse_choice raw with
    | Some _, Raise _ => negb (is_quit raw)
    | _, _ => false
    end
  | _ => false
  end.

(** The bytes that are white space for [str.strip] once decoded: the
    ASCII ones, each a character of its own. *)
Definition space_byte (b : byte) : bool :=
  (Byte.to_N b <? 128)%N && Py.isspace (Byte.to_N b).

(** An event that hands nothing but ASCII bytes to the stream. *)
Definition writes_ascii (ev : event) : Prop :=
  match ev with
  | EvWrite data => Py.is_ascii data = true
  | _ => True
  end.

Example throw_first :
  option_map (fun g => throw g PAPER ROCK)
             (match Roshambo_init 3 with Return g => Some g | _ => None end)
  = Some (Return (PAPER, ROCK, WIN, false),
          {| rounds := 3; round := 1; results := [Some WIN; None; None];
             they_win := false; game_over := false |}).
Proof. reflexivity. Qed.

Example int_examples :
  Py.int ["1"; x0d; x0a]%byte = Return 1
  /\ Py.int [" "; "+"; "0"; "2"; " "]%byte = Return 2
  /\ Py.int ["1"; "_"; "0"]%byte = Return 10
  /\ Py.int ["1"; "_"; "_"; "0"]%byte
     = Raise (ValueError "invalid literal for int() with base 10: b'1__0'")
  /\ Py.int ["-"; "5"; x0a]%byte = Return (-5)
  /\ Py.int [x0a]%byte
     = Raise (ValueError "invalid literal for int() with base 10: b'\n'")
  /\ Py.int [] = Raise (ValueError "invalid literal for int() with base 10: b''")
  /\ Py.int ["q"; x0a]%byte
     = Raise (ValueError "invalid literal for int() with base 10: b'q\n'")
  /\ Py.int ["1"; " "; "2"]%byte
     = Raise (ValueError "invalid literal for int() with base 10: b'1 2'").
Proof. repeat split; reflexivity. Qed.

(** The bound on the digits counts leading zeros and comes before the
    look at what follows the digits; the message for a line that is no
    literal shows at most 200 characters of it. *)
Example int_limits :
  Py.int (replicate 4299 "0"%byte ++ ["2"; x0a]%byte)%list = Return 2
  /\ Py.int (replicate 4300 "0"%byte ++ ["2"; x0a]%byte)%list
     = Raise (ValueError
                ("Exceeds the limit (4300 digits) for integer string "
                 ++ "conversion: value has 4301 digits; use "
                 ++ "sys.set_int_max_str_digits() to increase the limit"))
  /\ Py.int (replicate 4301 "0"%byte ++ ["x"]%byte)%list
     = Py.int (replicate 4300 "0"%byte ++ ["2"; x0a]%byte)%list
  /\ Py.int (replicate 4301 "0"%byte ++ ["_"]%byte)%list
     = Raise (ValueError ("invalid literal for int() with base 10: b'"
                          ++ Py.str_mul "0" 198))
  /\ Py.int (replicate 300 "x"%byte)
     = Raise (ValueError ("invalid literal for int() with base 10: b'"
                          ++ Py.str_mul "x" 198)).
Proof. repeat split; vm_compute; reflexivity. Qed.

Example list_repeat_examples :
  Py.list_repeat 0 3 = Return [0; 0; 0]
  /\ Py.list_repeat 0 (-1) = Return []
  /\ Py.list_repeat 0 (- 2 ^ 63) = Return []
  /\ Py.list_repeat 0 (- 2 ^ 63 - 1) = Raise OverflowError
  /\ Py.list_repeat 0 (2 ^ 63 + 1) = Raise OverflowError
  /\ Py.list_repeat 0 (2 ^ 63 - 1) = Raise MemoryError.
Proof. repeat split; reflexivity. Qed.

Example decode_examples :
  Py.decode ["q"; x0d; x0a]%byte = Some [113; 13; 10]%N
  /\ Py.decode [xff; x0a]%byte = None
  /\ Py.decode [xc2; xa0; "q"]%byte = Some [160; 113]%N
  /\ Py.decode [xc0; x80]%byte = None
  /\ Py.decode [xed; xa0; x80]%byte = None
  /\ Py.strip [160; 113; 13; 10]%N = [113]%N.
Proof. repeat split; reflexivity. Qed.

Example encode_examples :
  Py.encode "Rock" = "Rock"
  /\ Py.encode (String "233" "") = String "195" (String "169" "")
  /\ Py.is_ascii "Rock" = true
  /\ Py.is_ascii (String "233" "") = false.
Proof. repeat split; reflexivity. Qed.

Example repr_example :
  Py.repr_bytes ["a"; x0d; x0a; xff]%byte
  = String "b" (String Py.quote1 "a") ++ String Py.backslash "r"
    ++ String Py.backslash "n" ++ String Py.backslash "xff"
    ++ String Py.quote1 "".
Proof. reflexivity. Qed.

(** A session of three rounds, the client answering 1, 1 and 0. *)
Example session_played :
  match roshambo_client 9 (scripted [["1"; x0d; x0a]; ["1"; x0d; x0a];
                                     ["0"; x0d; x0a]]%byte
                                    [ROCK; ROCK; PAPER]) with
  | Served r w =>
    r = Returned tt
    /\ results (game w) = [Some WIN; Some WIN; Some LOSE]
    /\ firstn 7 (skipn 12 (sent (trace w)))
       = [prompt; "You chose: PAPER"; eol; "Computer chose: ROCK"; eol;
          "You won this round."; eol]
    /\ skipn 57 (sent (trace w)) = ["You won the game!"; eol]
  | SetupFailed _ => False
  end.
Proof. vm_compute. repeat split. Qed.

(** The client sends 5, then 1, then gives up: one invalid-choice
    message, one round played. *)
Example session_5_then_1 :
  match roshambo_client 9 (scripted [["5"; x0d; x0a]; ["1"; x0d; x0a];
                                     ["q"; x0d; x0a]]%byte [ROCK]) with
  | Served r w =>
    r = Returned tt
    /\ round (game w) = 1
    /\ results (game w) = [Some WIN; None; None]
    /\ firstn 10 (skipn 12 (sent (trace w)))
       = [prompt; "Invalid choice: 5 is not a valid Choice"; eol;
          prompt; "You chose: PAPER"; eol; "Computer chose: ROCK"; eol;
          "You won this round."; eol]
    /\ skipn 35 (sent (trace w)) = ["Giving up?"; eol]
  | SetupFailed _ => False
  end.
Proof. vm_compute. repeat split. Qed.

(** The peer closes its side at once: [readline] keeps returning the
    empty line and the loop of [one_round] keeps asking. *)
Example session_at_end_of_file :
  match roshambo_client 4 (scripted [] []) with
  | Served r w => r = Pending /\ nread w = 3%nat /\ round (game w) = 0
  | SetupFailed _ => False
  end.
Proof. vm_compute. repeat split. Qed.

(** * What [encode] does to the texts of a session *)

Lemma is_ascii_app (a b : string) : Py.is_ascii (a ++ b) = Py.is_ascii a && Py.is_ascii b.
Proof.
  induction a as [|c a IH]; [reflexivity|].
  change (Py.is_ascii (String c (a ++ b)) = Py.is_ascii (String c a) && Py.is_ascii b).
  cbn [Py.is_ascii]. now rewrite IH, andb_assoc.
Qed.

Lemma is_ascii_take (n : nat) : forall s,
  Py.is_ascii s = true -> Py.is_ascii (Py.str_take n s) = true.
Proof.
  induction n as [|n IH]; intros [|c r]; cbn [Py.str_take Py.is_ascii]; auto.
  intros [-> Hr]%andb_prop. now rewrite IH.
Qed.

Lemma encode_ascii (s : string) : Py.is_ascii s = true -> Py.encode s = s.
Proof.
  induction s as [|c r IH]; [reflexivity|]. cbn [Py.is_ascii Py.encode].
  intros [-> Hr]%andb_prop. now rewrite IH.
Qed.

Lemma repr_byte_ascii (b : byte) :
  Py.is_ascii (Py.repr_byte Py.quote1 (Byte.to_N b)) = true
  /\ Py.is_ascii (Py.repr_byte Py.quote2 (Byte.to_N b)) = true.
Proof. destruct b; split; reflexivity. Qed.

Lemma repr_bytes_ascii (raw : Py.bytes) : Py.is_ascii (Py.repr_bytes raw) = true.
Proof.
  unfold Py.repr_bytes.
  assert (Hbody : forall q, q = Py.quote1 \/ q = Py.quote2 ->
            Py.is_ascii (fold_right (fun b acc => Py.repr_byte q b ++ acc)
                                 (String q "") (map Byte.to_N raw)) = true).
  { intros q Hq. induction raw as [|b raw IH]; cbn [map fold_right].
    - destruct Hq as [-> | ->]; reflexivity.
    - rewrite is_ascii_app, IH, andb_true_r.
      destruct (repr_byte_ascii b) as [H1 H2]. now destruct Hq as [-> | ->]. }
  destruct (_ && _); cbn [Py.is_ascii]; rewrite Hbody; auto.
Qed.

Lemma pretty_N_char_ascii (d : N) : (N_of_ascii (pretty_N_char d) <? 128)%N = true.
Proof. unfold pretty_N_char. repeat case_match; reflexivity. Qed.

Lemma pretty_N_go_ascii (x : N) : forall s,
  Py.is_ascii s = true -> Py.is_ascii (pretty_N_go x s) = true.
Proof.
  induction (N.lt_wf_0 x) as [x _ IH]; intros s Hs.
  destruct (N.eq_dec x 0%N) as [->|Hx]; [now rewrite pretty_N_go_0|].
  rewrite pretty_N_go_step by lia. apply IH; [apply N.div_lt; lia|].
  cbn [Py.is_ascii]. now rewrite pretty_N_char_ascii, Hs.
Qed.

Lemma pretty_N_ascii (x : N) : Py.is_ascii (pretty x) = true.
Proof.
  unfold pretty, pretty_N. destruct (decide (x = 0%N)); [reflexivity|].
  now apply pretty_N_go_ascii.
Qed.

Lemma pretty_Z_ascii (z : Z) : Py.is_ascii (pretty z) = true.
Proof.
  destruct z as [|p|p]; unfold pretty, pretty_Z; [reflexivity| |].
  - apply (pretty_N_ascii (Npos p)).
  - rewrite is_ascii_app. apply andb_true_intro.
    split; [reflexivity|apply (pretty_N_ascii (Npos p))].
Qed.

Lemma int_error_ascii (raw : Py.bytes) (err : string) :
  Py.int raw = Raise (ValueError err) -> Py.is_ascii err = true.
Proof.
  unfold Py.int. destruct (Py.int_N _) as [n| |d]; [discriminate| |];
    intros H.
  - assert (err = Py.invalid_literal raw) as -> by congruence.
    unfold Py.invalid_literal. rewrite is_ascii_app, is_ascii_take; [reflexivity|].
    apply repr_bytes_ascii.
  - assert (err = Py.too_many_digits d) as -> by congruence.
    unfold Py.too_many_digits. rewrite !is_ascii_app, pretty_Z_ascii. reflexivity.
Qed.

Lemma parse_choice_error_ascii (raw : Py.bytes) (err : string) :
  parse_choice raw = Raise (ValueError err) -> Py.is_ascii err = true.
Proof.
  unfold parse_choice, Choice_of_value.
  destruct (Py.int raw) as [n|e] eqn:Hint.
  - destruct (n =? 0); [discriminate|]. destruct (n =? 1); [discriminate|].
    destruct (n =? 2); [discriminate|]. intros H.
    assert (err = pretty n ++ " is not a valid Choice") as -> by congruence.
    now rewrite is_ascii_app, pretty_Z_ascii.
  - intros [= ->]. exact (int_error_ascii raw err Hint).
Qed.

Lemma encode_invalid (raw : Py.bytes) (err : string) :
  parse_choice raw = Raise (ValueError err) ->
  Py.encode ("Invalid choice: " ++ err) = "Invalid choice: " ++ err.
Proof.
  intros Hp. apply encode_ascii.
  now rewrite is_ascii_app, (parse_choice_error_ascii raw err Hp).
Qed.

Lemma encode_chose (c : Choice) :
  Py.encode ("You chose: " ++ Choice_name c) = "You chose: " ++ Choice_name c.
Proof. now destruct c. Qed.

Lemma encode_computer (c : Choice) :
  Py.encode ("Computer chose: " ++ Choice_name c)
  = "Computer chose: " ++ Choice_name c.
Proof. now destruct c. Qed.

Lemma encode_sentence (res : Result) :
  Py.encode (round_sentence res) = round_sentence res.
Proof. now destruct res. Qed.

Lemma encode_verdict (g : Roshambo) : Py.encode (verdict g) = verdict g.
Proof. unfold verdict. now destruct (they_win g). Qed.

(** * Properties of the game object *)

Lemma index_in_range {A : Type} (l : list A) (i : Z) :
  0 <= i < Z.of_nat (length l) -> Py.index l i = Some (Z.to_nat i).
Proof.
  intros [H0 H1]. unfold Py.index.
  apply Z.leb_le in H0. apply Z.ltb_lt in H1.
  now rewrite H0, H1.
Qed.

Lemma setitem_length {A : Type} (l l' : list A) (i : Z) (x : A) :
  Py.setitem l i x = Some l' -> length l' = length l.
Proof.
  unfold Py.setitem. destruct (Py.index l i); [|discriminate].
  intros [= <-]. apply length_insert.
Qed.

Lemma evaluate_total (theirs mine : Choice) :
  exists res, evaluate theirs mine = Return res.
Proof. destruct theirs, mine; eexists; reflexivity. Qed.

(** The shape of a call that gets past the guard and the store. *)
Lemma throw_Return (self self' : Roshambo) (theirs mine : Choice)
      (t : Choice * Choice * Result * bool) :
  throw self theirs mine = (Return t, self') ->
  game_over self = false
  /\ exists res rs,
      evaluate theirs mine = Return res
      /\ Py.setitem (results self) (round self) (Some res) = Some rs
      /\ self' = finish {| rounds := rounds self; round := round self + 1;
                           results := rs; they_win := they_win self;
                           game_over := false |}
      /\ t = (theirs, mine, res, they_win self').
Proof.
  unfold throw. destruct (game_over self) eqn:Hover; [discriminate|].
  destruct (evaluate theirs mine) as [res|e]; [|discriminate].
  destruct (Py.setitem _ _ _) as [rs|] eqn:Hset; [|discriminate].
  intros [= <- <-]. split; [reflexivity|]. exists res, rs. auto.
Qed.

Lemma throw_Raise_same (self self' : Roshambo) (theirs mine : Choice) (e : exn) :
  throw self theirs mine = (Raise e, self') -> self' = self.
Proof.
  unfold throw. destruct (game_over self); [intros [= _ <-]; reflexivity|].
  destruct (evaluate theirs mine); [|intros [= _ <-]; reflexivity].
  destruct (Py.setitem _ _ _); [discriminate|intros [= _ <-]; reflexivity].
Qed.

Lemma list_repeat_Return {A : Type} (x : A) (n : Z) (l : list A) :
  Py.list_repeat x n = Return l ->
  - Py.SSIZE_MAX - 1 <= n <= Py.SSIZE_MAX / 8 /\ l = replicate (Z.to_nat n) x.
Proof.
  unfold Py.list_repeat.
  destruct (n <? - Py.SSIZE_MAX - 1) eqn:Hlo; [discriminate|].
  destruct (Py.SSIZE_MAX <? n) eqn:Hhi; [discriminate|].
  destruct (Py.SSIZE_MAX / 8 <? n) eqn:Hmem; [discriminate|].
  intros [= <-]. apply Z.ltb_ge in Hlo, Hmem. auto.
Qed.

Lemma list_repeat_in_range {A : Type} (x : A) (n : Z) :
  - Py.SSIZE_MAX - 1 <= n <= Py.SSIZE_MAX / 8 ->
  Py.list_repeat x n = Return (replicate (Z.to_nat n) x).
Proof.
  intros [Hlo Hhi]. unfold Py.list_repeat.
  assert (Hmax : Py.SSIZE_MAX / 8 <= Py.SSIZE_MAX) by (vm_compute; discriminate).
  destruct (n <? - Py.SSIZE_MAX - 1) eqn:H1; [apply Z.ltb_lt in H1; lia|].
  destruct (Py.SSIZE_MAX <? n) eqn:H2; [apply Z.ltb_lt in H2; lia|].
  destruct (Py.SSIZE_MAX / 8 <? n) eqn:H3; [apply Z.ltb_lt in H3; lia|].
  reflexivity.
Qed.

(** What the constructor has built, when it has built an object. *)
Lemma init_Return (n : Z) (g : Roshambo) :
  Roshambo_init n = Return g ->
  n mod 2 <> 0
  /\ g = {| rounds := n; round := 0;
            results := replicate (Z.to_nat n) None;
            they_win := false; game_over := false |}.
Proof.
  unfold Roshambo_init. destruct (n mod 2 =? 0) eqn:Hpar; [discriminate|].
  apply Z.eqb_neq in Hpar.
  destruct (Py.list_repeat None n) as [slots|e] eqn:Hslots; [|discriminate].
  apply list_repeat_Return in Hslots as [_ ->]. intros [= <-]. auto.
Qed.

Lemma init_consistent (n : Z) (g : Roshambo) :
  Roshambo_init n = Return g -> consistent n g.
Proof.
  intros [_ ->]%init_Return.
  split; simpl; try reflexivity; try lia; try discriminate.
  apply length_replicate.
Qed.

Lemma throw_consistent (n : Z) (g g' : Roshambo) (theirs mine : Choice)
      (t : Choice * Choice * Result * bool) :
  consistent n g -> throw g theirs mine = (Return t, g') -> consistent n g'.
Proof.
  intros [Hn Hlen Hr Hopen Hfrozen] Hthrow.
  apply throw_Return in Hthrow as (Hover & res & rs & _ & Hset & -> & _).
  apply setitem_length in Hset.
  unfold finish; simpl. destruct (rounds g <=? round g + 1); split; simpl;
    try congruence; try lia; auto; try discriminate.
Qed.

Lemma play_consistent (n : Z) (plays : list (Choice * Choice)) (g g' : Roshambo) :
  consistent n g -> play g plays = Return g' -> consistent n g'.
Proof.
  revert g. induction plays as [|[theirs mine] rest IH]; intros g Hg; simpl.
  - now intros [= <-].
  - destruct (throw g theirs mine) as [[t|e] g1] eqn:Hthrow; [|discriminate].
    apply IH. eapply throw_consistent; eauto.
Qed.

Lemma init_in_play (n : Z) (g : Roshambo) :
  0 < n -> Roshambo_init n = Return g -> in_play n g.
Proof.
  intros Hpos [_ ->]%init_Return. split; simpl; try reflexivity; try lia.
  apply length_replicate.
Qed.

(** Progress: before the last round every call succeeds, and moves the
    counter by one. *)
Lemma throw_in_play (n : Z) (g : Roshambo) (theirs mine : Choice) :
  in_play n g -> round g < n ->
  exists res g',
    throw g theirs mine = (Return (theirs, mine, res, they_win g'), g')
    /\ evaluate theirs mine = Return res
    /\ round g' = round g + 1
    /\ in_play n g'.
Proof.
  intros [Hn Hlen [Hr0 Hr1] Hover] Hlt.
  assert (Hopen : game_over g = false) by (rewrite Hover; apply Z.leb_gt; lia).
  destruct (evaluate_total theirs mine) as [res Hres].
  assert (Hidx : Py.index (results g) (round g) = Some (Z.to_nat (round g)))
    by (apply index_in_range; lia).
  unfold throw. rewrite Hopen, Hres. unfold Py.setitem. rewrite Hidx.
  eexists res, _. split; [reflexivity|]. split; [reflexivity|].
  unfold finish; simpl. rewrite Hn.
  destruct (n <=? round g + 1) eqn:Hlast; simpl.
  - split; [reflexivity|]. apply Z.leb_le in Hlast.
    split; simpl; rewrite ?length_insert; try lia; auto.
  - split; [reflexivity|]. apply Z.leb_gt in Hlast.
    split; simpl; rewrite ?length_insert; try lia; auto.
Qed.

Lemma play_in_play (n : Z) (plays : list (Choice * Choice)) (g : Roshambo) :
  in_play n g -> round g + Z.of_nat (length plays) <= n ->
  exists g', play g plays = Return g'
             /\ round g' = round g + Z.of_nat (length plays)
             /\ in_play n g'.
Proof.
  revert g. induction plays as [|[theirs mine] rest IH]; intros g Hg Hle.
  - exists g. simpl. split; [reflexivity|]. split; [lia|assumption].
  - change (length ((theirs, mine) :: rest)) with (S (length rest)) in *.
    destruct (throw_in_play n g theirs mine Hg) as (res & g1 & Hthrow & _ & Hr & Hg1);
      [lia|].
    destruct (IH g1 Hg1) as (g' & Hplay & Hr' & Hg'); [lia|].
    exists g'. simpl. rewrite Hthrow. split; [assumption|]. split; [lia|assumption].
Qed.

(** ** Construction *)

Lemma odd_mod2 (n : Z) : Z.odd n = true -> (n mod 2 =? 0) = false.
Proof. intros H. rewrite Zmod_odd, H. reflexivity. Qed.

Lemma even_mod2 (n : Z) : Z.even n = true -> (n mod 2 =? 0) = true.
Proof. intros H. rewrite Zmod_even, H. reflexivity. Qed.

Lemma init_odd (n : Z) :
  Z.odd n = true ->
  Roshambo_init n
  = match Py.list_repeat None n with
    | Return slots => Return {| rounds := n; round := 0; results := slots;
                                they_win := false; game_over := false |}
    | Raise e => Raise e
    end.
Proof. intros H. unfold Roshambo_init. now rewrite (odd_mod2 n H). Qed.

Lemma init_odd_in_range (n : Z) :
  Z.odd n = true -> - Py.SSIZE_MAX - 1 <= n <= Py.SSIZE_MAX / 8 ->
  Roshambo_init n
  = Return {| rounds := n; round := 0;
              results := replicate (Z.to_nat n) None;
              they_win := false; game_over := false |}.
Proof.
  intros Hodd Hrange. now rewrite (init_odd n Hodd), list_repeat_in_range.
Qed.

Lemma init_even (n : Z) :
  Z.even n = true -> Roshambo_init n = Raise (ValueError "rounds must be odd").
Proof. intros H. unfold Roshambo_init. now rewrite (even_mod2 n H). Qed.

(** C2, as stated, fails: the constructor only tests the parity of the
    count, so the non-positive count [-1] is accepted. *)
Lemma init_accepts_negative_odd :
  ~ (forall n : Z, Z.even n = true \/ n <= 0 ->
                   exists msg, Roshambo_init n = Raise (ValueError msg)).
Proof.
  intros H. destruct (H (-1)) as [msg Hmsg]; [right; lia|].
  vm_compute in Hmsg. discriminate.
Qed.

(** C2 (amended): [Roshambo_init] raises [ValueError] for every even
    count, zero and the negative ones included, and for no odd count:
    the guard tests the parity only.  With an odd count the outcome is
    that of building the list of slots: a negative count within the
    index type gives an object without slots, a positive one an object
    with that many empty slots and no round played, unless the list is
    refused for its size ([MemoryError]); a count outside the index
    type raises [OverflowError]. *)
Theorem init_rejects_even_only (n : Z) :
  (Z.even n = true -> Roshambo_init n = Raise (ValueError "rounds must be odd"))
  /\ (Z.odd n = true ->
      (forall msg, Roshambo_init n <> Raise (ValueError msg))
      /\ (n < - Py.SSIZE_MAX - 1 \/ Py.SSIZE_MAX < n ->
          Roshambo_init n = Raise OverflowError)
      /\ (- Py.SSIZE_MAX - 1 <= n < 0 ->
          Roshambo_init n
          = Return {| rounds := n; round := 0; results := [];
                      they_win := false; game_over := false |})
      /\ (0 < n <= Py.SSIZE_MAX ->
          Roshambo_init n
          = Return {| rounds := n; round := 0;
                      results := replicate (Z.to_nat n) None;
                      they_win := false; game_over := false |}
          \/ Roshambo_init n = Raise MemoryError)).
Proof.
  split; [apply init_even|]. intros Hodd.
  assert (Hmax : 0 < Py.SSIZE_MAX / 8 <= Py.SSIZE_MAX) by (vm_compute; split; [reflexivity|discriminate]).
  rewrite (init_odd n Hodd). unfold Py.list_repeat.
  split; [|split; [|split]].
  - intros msg. destruct (_ || _); [discriminate|].
    destruct (_ <? _); discriminate.
  - intros Hout.
    assert (Hb : (n <? - Py.SSIZE_MAX - 1) || (Py.SSIZE_MAX <? n) = true)
      by (apply orb_true_iff; rewrite !Z.ltb_lt; exact Hout).
    now rewrite Hb.
  - intros [Hlo Hneg].
    destruct (n <? - Py.SSIZE_MAX - 1) eqn:H1; [apply Z.ltb_lt in H1; lia|].
    destruct (Py.SSIZE_MAX <? n) eqn:H2; [apply Z.ltb_lt in H2; lia|].
    destruct (Py.SSIZE_MAX / 8 <? n) eqn:H3; [apply Z.ltb_lt in H3; lia|].
    cbn [orb]. replace (Z.to_nat n) with 0%nat by lia. reflexivity.
  - intros [Hpos Hhi].
    destruct (n <? - Py.SSIZE_MAX - 1) eqn:H1; [apply Z.ltb_lt in H1; lia|].
    destruct (Py.SSIZE_MAX <? n) eqn:H2; [apply Z.ltb_lt in H2; lia|].
    cbn [orb]. destruct (Py.SSIZE_MAX / 8 <? n); auto.
Qed.

Lemma init_rejects_even_only_witness :
  Roshambo_init 0 = Raise (ValueError "rounds must be odd")
  /\ Roshambo_init (-1)
     = Return {| rounds := -1; round := 0; results := [];
                 they_win := false; game_over := false |}
  /\ Roshambo_init (2 ^ 63 + 1) = Raise OverflowError.
Proof.
  split; [|split].
  - apply (proj1 (init_rejects_even_only 0)). reflexivity.
  - destruct (proj2 (init_rejects_even_only (-1)) eq_refl) as (_ & _ & Hneg & _).
    apply Hneg. unfold Py.SSIZE_MAX. lia.
  - destruct (proj2 (init_rejects_even_only (2 ^ 63 + 1)) eq_refl) as (_ & Hout & _).
    apply Hout. unfold Py.SSIZE_MAX. lia.
Defined.

(** ** The table of choices *)

(** C3, as stated, fails: the list stored for ROCK starts with PAPER,
    while ROCK beats SCISSORS. *)
Lemma ChoiceMap_head_is_not_beaten :
  ~ (forall x : Choice, head (ChoiceMap x) = Some (beats x)).
Proof. intros H. specialize (H ROCK). discriminate. Qed.

(** C3 (amended): for every choice [x] the list stored for [x] holds the
    two other choices; its first element is the choice that beats [x],
    and its second the choice that [x] beats. *)
Theorem ChoiceMap_head_beats_key (x : Choice) :
  exists winner loser,
    ChoiceMap x = [winner; loser] /\ beats winner = x /\ beats x = loser.
Proof. destruct x; do 2 eexists; repeat split. Qed.

(** ** One round *)

(** C4: the comparison made in a round is total; it answers TIE exactly
    when both sides chose the same, WIN exactly when the client's choice
    beats the server's (PAPER on ROCK, SCISSORS on PAPER, ROCK on
    SCISSORS), and LOSE in the three remaining cases; a call of [throw]
    that returns reports this answer with the two choices. *)
Theorem round_outcome (human computer : Choice) :
  exists res,
    evaluate human computer = Return res
    /\ (res = TIE <-> human = computer)
    /\ (res = WIN <-> beats human = computer)
    /\ (res = WIN <-> In (human, computer)
                         [(PAPER, ROCK); (SCISSORS, PAPER); (ROCK, SCISSORS)])
    /\ (res = LOSE <-> beats computer = human)
    /\ (forall self self' t,
           throw self human computer = (Return t, self') ->
           fst t = (human, computer, res)).
Proof.
  assert (Hthrow : forall res, evaluate human computer = Return res ->
            forall self self' t,
              throw self human computer = (Return t, self') ->
              fst t = (human, computer, res)).
  { intros res Hres self self' t Ht.
    apply throw_Return in Ht as (_ & res' & rs & Hres' & _ & _ & ->).
    simpl. congruence. }
  destruct human, computer; eexists; (split; [reflexivity|]);
    (repeat split; try discriminate; try reflexivity;
     try (apply Hthrow; reflexivity));
    simpl; intuition (try discriminate; try congruence).
Qed.

Lemma round_outcome_witness :
  exists res,
    evaluate PAPER ROCK = Return res
    /\ res = WIN
    /\ fst (PAPER, ROCK, WIN, false) = (PAPER, ROCK, res).
Proof.
  destruct (round_outcome PAPER ROCK) as (res & Hres & _ & Hwin & _ & _ & Hthrow).
  exists res. split; [exact Hres|]. split.
  - apply Hwin. reflexivity.
  - apply (Hthrow {| rounds := 3; round := 0; results := [None; None; None];
                     they_win := false; game_over := false |}
                  {| rounds := 3; round := 1; results := [Some WIN; None; None];
                     they_win := false; game_over := false |}).
    reflexivity.
Defined.

(** ** The course of a match *)

Lemma play_app (g : Roshambo) (a b : list (Choice * Choice)) :
  play g (a ++ b)
  = match play g a with
    | Return g' => play g' b
    | Raise e => Raise e
    end.
Proof.
  revert g. induction a as [|[theirs mine] a IH]; intros g; simpl; [reflexivity|].
  destruct (throw g theirs mine) as [[t|e] g1]; [apply IH|reflexivity].
Qed.

Lemma throw_when_over (g : Roshambo) (theirs mine : Choice) :
  game_over g = true -> throw g theirs mine = (Raise GameOver, g).
Proof. intros H. unfold throw. now rewrite H. Qed.

(** C5: an object that [Roshambo_init] has built for a positive count
    [n] (an odd one, then) accepts exactly [n] calls of [throw].  After
    [k <= n] calls the counter is [k], within [0..n], and the object is
    over exactly when [k = n]; a call on the finished object raises
    [GameOver] and leaves it as it was, so no longer sequence of calls
    goes through. *)
Theorem match_lasts_exactly_rounds (n : Z) (g0 : Roshambo) :
  0 < n -> Roshambo_init n = Return g0 ->
  Z.odd n = true
  /\ round g0 = 0
  /\ game_over g0 = false
  /\ (forall plays,
         Z.of_nat (length plays) <= n ->
         exists g,
           play g0 plays = Return g
           /\ round g = Z.of_nat (length plays)
           /\ 0 <= round g <= n
           /\ (game_over g = true <-> Z.of_nat (length plays) = n)
           /\ (Z.of_nat (length plays) = n ->
               forall theirs mine, throw g theirs mine = (Raise GameOver, g)))
  /\ (forall plays,
         n < Z.of_nat (length plays) -> play g0 plays = Raise GameOver).
Proof.
  intros Hpos Hinit.
  pose proof (init_in_play n _ Hpos Hinit) as Hg0.
  destruct (init_Return n g0 Hinit) as [Hpar Hfields].
  assert (Hround0 : round g0 = 0) by (rewrite Hfields; reflexivity).
  split; [destruct (Z.odd n) eqn:Hodd; [reflexivity|];
          destruct Hpar; now rewrite Zmod_odd, Hodd|].
  split; [exact Hround0|]. split; [rewrite Hfields; reflexivity|].
  assert (Hupto : forall plays,
             Z.of_nat (length plays) <= n ->
             exists g,
               play g0 plays = Return g
               /\ round g = Z.of_nat (length plays)
               /\ 0 <= round g <= n
               /\ (game_over g = true <-> Z.of_nat (length plays) = n)
               /\ (Z.of_nat (length plays) = n ->
                   forall theirs mine, throw g theirs mine = (Raise GameOver, g))).
  { intros plays Hle.
    destruct (play_in_play n plays _ Hg0) as (g & Hplay & Hr & Hg); [lia|].
    rewrite Hround0 in Hr. exists g. split; [exact Hplay|]. split; [exact Hr|].
    destruct Hg as [_ _ Hrange Hover].
    split; [exact Hrange|].
    assert (Hiff : game_over g = true <-> Z.of_nat (length plays) = n).
    { rewrite Hover, Z.leb_le. lia. }
    split; [exact Hiff|].
    intros Hn theirs mine. apply throw_when_over. now apply Hiff. }
  split; [exact Hupto|].
  intros plays Hlong.
  rewrite <- (firstn_skipn (Z.to_nat n) plays), play_app.
  destruct (Hupto (firstn (Z.to_nat n) plays)) as (g & -> & _ & _ & _ & Hraise).
  { rewrite length_take. lia. }
  assert (Hlen : Z.of_nat (length (firstn (Z.to_nat n) plays)) = n)
    by (rewrite length_take; lia).
  destruct (skipn (Z.to_nat n) plays) as [|[theirs mine] rest] eqn:Hrest.
  - apply (f_equal (@length _)) in Hrest. rewrite length_drop in Hrest.
    simpl in Hrest. lia.
  - simpl. now rewrite (Hraise Hlen theirs mine).
Qed.

Lemma match_lasts_exactly_rounds_witness :
  (exists g,
      play fresh3 [(PAPER, ROCK); (PAPER, ROCK); (ROCK, PAPER)] = Return g
      /\ round g = 3
      /\ (game_over g = true <-> 3 = 3)
      /\ throw g ROCK ROCK = (Raise GameOver, g))
  /\ play fresh3 [(PAPER, ROCK); (PAPER, ROCK); (ROCK, PAPER); (ROCK, ROCK)]
     = Raise GameOver.
Proof.
  destruct (match_lasts_exactly_rounds 3 fresh3) as (_ & _ & _ & Hupto & Hlong);
    [lia|reflexivity|].
  split.
  - destruct (Hupto [(PAPER, ROCK); (PAPER, ROCK); (ROCK, PAPER)])
      as (g & Hplay & Hr & _ & Hover & Hraise); [simpl; lia|].
    exists g. split; [exact Hplay|]. split; [exact Hr|]. split; [exact Hover|].
    apply Hraise. reflexivity.
  - apply Hlong. simpl. lia.
Defined.

(** C6: once an object built by [Roshambo_init n] is over, [they_win]
    holds exactly when the WIN entries of [results] number more than
    [n // 2]; with three rounds the outcomes WIN, WIN, LOSE give [true]
    and LOSE, TIE, LOSE give [false]. *)
Theorem they_win_is_majority :
  (forall n g0 plays g,
      Roshambo_init n = Return g0 ->
      play g0 plays = Return g ->
      game_over g = true ->
      (they_win g = true <-> n / 2 < count_WIN (results g)))
  /\ (exists g0 g,
         Roshambo_init 3 = Return g0
         /\ play g0 [(PAPER, ROCK); (ROCK, SCISSORS); (ROCK, PAPER)] = Return g
         /\ results g = [Some WIN; Some WIN; Some LOSE]
         /\ game_over g = true /\ they_win g = true)
  /\ (exists g0 g,
         Roshambo_init 3 = Return g0
         /\ play g0 [(ROCK, PAPER); (PAPER, PAPER); (SCISSORS, ROCK)] = Return g
         /\ results g = [Some LOSE; Some TIE; Some LOSE]
         /\ game_over g = true /\ they_win g = false).
Proof.
  split; [|split; do 2 eexists; repeat split].
  intros n g0 plays g Hinit Hplay Hover.
  pose proof (play_consistent n plays g0 g (init_consistent n g0 Hinit) Hplay) as Hg.
  rewrite (cons_frozen n g Hg Hover). apply Z.ltb_lt.
Qed.

Lemma they_win_is_majority_witness :
  they_win {| rounds := 3; round := 3;
              results := [Some WIN; Some WIN; Some LOSE];
              they_win := true; game_over := true |} = true
  <-> 3 / 2 < count_WIN [Some WIN; Some WIN; Some LOSE].
Proof.
  apply (proj1 they_win_is_majority 3
               {| rounds := 3; round := 0; results := [None; None; None];
                  they_win := false; game_over := false |}
               [(PAPER, ROCK); (ROCK, SCISSORS); (ROCK, PAPER)]);
    reflexivity.
Defined.

(** C10: on an object built by [Roshambo_init] and touched only by
    [throw], a call that returns without finishing the match returns
    [False] as its fourth component; the call that finishes the match
    returns the value of [they_win] it has just stored, the majority
    verdict. *)
Theorem throw_flag (n : Z) (g0 g g' : Roshambo) (plays : list (Choice * Choice))
        (theirs mine : Choice) (t : Choice * Choice * Result * bool) :
  Roshambo_init n = Return g0 ->
  play g0 plays = Return g ->
  throw g theirs mine = (Return t, g') ->
  (game_over g' = false -> snd t = false)
  /\ (game_over g' = true ->
      snd t = they_win g' /\ they_win g' = (n / 2 <? count_WIN (results g'))).
Proof.
  intros Hinit Hplay Hthrow.
  pose proof (play_consistent n plays g0 g (init_consistent n g0 Hinit) Hplay) as Hg.
  pose proof (throw_consistent n g g' theirs mine t Hg Hthrow) as Hg'.
  apply throw_Return in Hthrow as (_ & res & rs & _ & _ & _ & ->). simpl.
  split.
  - apply (cons_open n g' Hg').
  - intros Hover. split; [reflexivity|]. apply (cons_frozen n g' Hg' Hover).
Qed.

Lemma throw_flag_witness :
  snd (PAPER, ROCK, WIN, false) = false
  /\ snd (ROCK, PAPER, LOSE, true) = true
  /\ true = (3 / 2 <? count_WIN [Some WIN; Some WIN; Some LOSE]).
Proof.
  split.
  - refine (proj1 (throw_flag 3
             {| rounds := 3; round := 0; results := [None; None; None];
                they_win := false; game_over := false |}
             {| rounds := 3; round := 0; results := [None; None; None];
                they_win := false; game_over := false |}
             {| rounds := 3; round := 1; results := [Some WIN; None; None];
                they_win := false; game_over := false |}
             [] PAPER ROCK (PAPER, ROCK, WIN, false) _ _ _) _); reflexivity.
  - refine (proj2 (throw_flag 3
             {| rounds := 3; round := 0; results := [None; None; None];
                they_win := false; game_over := false |}
             {| rounds := 3; round := 2; results := [Some WIN; Some WIN; None];
                they_win := false; game_over := false |}
             {| rounds := 3; round := 3;
                results := [Some WIN; Some WIN; Some LOSE];
                they_win := true; game_over := true |}
             [(PAPER, ROCK); (ROCK, SCISSORS)] ROCK PAPER
             (ROCK, PAPER, LOSE, true) _ _ _) _); reflexivity.
Defined.

(** * Properties of the session handler *)

(** ** One pass of the loop of [one_round] *)

Lemma int_raises raw e :
  Py.int raw = Raise e -> exists msg, e = ValueError msg.
Proof.
  unfold Py.int. destruct (Py.int_N _); [discriminate| |]; intros [= <-]; eauto.
Qed.

Lemma parse_choice_raises raw e :
  parse_choice raw = Raise e -> exists msg, e = ValueError msg.
Proof.
  unfold parse_choice, Choice_of_value.
  destruct (Py.int raw) as [n|e'] eqn:Hint;
    [|intros [= <-]; exact (int_raises raw e' Hint)].
  destruct (n =? 0); [discriminate|]. destruct (n =? 1); [discriminate|].
  destruct (n =? 2); [discriminate|]. intros [= <-]; eauto.
Qed.

Lemma in_play_open n g : in_play n g -> game_over g = false -> round g < n.
Proof. intros [_ _ _ Hover] H. rewrite Hover in H. now apply Z.leb_gt in H. Qed.

Ltac ordinary_writes :=
  repeat constructor;
  try (let H := fresh "Hmsg" in
       unfold ordinary, final_messages;
       intros [H|[H|[H|[]]]]; cbv in H; discriminate H).

Ltac run_monad :=
  cbv beta iota zeta delta
      [attempt try_except bind lift raise ret pending game_throw
       writelines writeline write writer_write drain drain_raises drain_exn readline
       decode log];
  cbn [game trace nread ndrain ndraw].

Ltac run_loop :=
  cbv beta iota zeta delta
      [try_except bind lift raise ret pending
       writelines writeline write writer_write drain readline decode log];
  cbn [game trace nread ndrain ndraw].

Lemma drain_raises_flush (env : Env) (k : nat) : flush_exn (drain_raises env k).
Proof.
  unfold drain_raises, drain_exn, flush_exn.
  destruct (drain_failures env k); eauto.
Qed.

Lemma loop_shape_flush {A : Type} (e : exn) (evs : list event) :
  flush_exn e -> Forall ordinary evs -> loop_shape (@Raised A e) evs.
Proof. intros [->|[name ->]] Hord; exact Hord. Qed.

Lemma loop_shape_uncaught {A : Type} (e : exn) (evs : list event) :
  uncaught e -> Forall ordinary evs -> loop_shape (@Raised A e) evs.
Proof. intros [[msg ->]|[name ->]] Hord; exact Hord. Qed.

Lemma throw_count_app a b : throw_count (a ++ b) = (throw_count a + throw_count b)%nat.
Proof. unfold throw_count. now rewrite List.filter_app, length_app. Qed.

Lemma loop_shape_prefix {A : Type} (r : status A) (pre evs : list event) :
  Forall ordinary pre -> loop_shape r evs -> loop_shape r (pre ++ evs).
Proof.
  intros Hpre. destruct r as [a|[]|]; simpl; auto using Forall_app_2.
  intros (evs0 & raw & -> & H0 & Hq). exists (pre ++ evs0)%list, raw.
  rewrite app_assoc. auto using Forall_app_2.
Qed.

(** The loops of the handler, entered on a game built for [n] rounds. *)
Section Loops.

Variable n : Z.

Lemma attempt_spec (env : Env) (w w' : World) (raw : Py.bytes) (r : status bool) :
  in_play n (game w) -> game_over (game w) = false ->
  attempt raw env w = (r, w') ->
  exists evs,
    trace w' = (trace w ++ evs)%list
    /\ Forall ordinary evs
    /\ in_play n (game w')
    /\ round (game w') = round (game w) + Z.of_nat (throw_count evs)
    /\ (throw_count evs <= 1)%nat
    /\ match r with
       | Returned true => throw_count evs = 1%nat
       | Returned false => game w' = game w
       | Raised e => flush_exn e
       | Pending => False
       end.
Proof.
  intros Hplay Hopen. unfold attempt, try_except, bind at 1, lift at 1.
  destruct (parse_choice raw) as [c|e] eqn:Hparse.
  - destruct (throw_in_play n (game w) c (draws env (ndraw w)) Hplay
                            (in_play_open n _ Hplay Hopen))
      as (res & g' & Hthrow & _ & Hround & Hplay').
    run_monad. rewrite Hthrow. run_monad.
    destruct (drains env (ndrain w));
      [|destruct (drain_failures env (ndrain w))];
      intros [= <- <-]; cbn [game trace];
      rewrite <- ?app_assoc; cbn [app]; eexists; (split; [reflexivity|]).
    all: split; [destruct c, (draws env (ndraw w)), res; ordinary_writes; exact Hopen|].
    all: split; [exact Hplay'|]; unfold throw_count, flush_exn; simpl;
      repeat split; try lia; eauto.
  - destruct (parse_choice_raises raw e Hparse) as [msg ->].
    run_monad.
    destruct (drains env (ndrain w));
      [|destruct (drain_failures env (ndrain w))];
      intros [= <- <-]; cbn [game trace];
      rewrite <- ?app_assoc; cbn [app]; eexists; (split; [reflexivity|]).
    all: split; [ordinary_writes|].
    all: split; [exact Hplay|]; unfold throw_count, flush_exn; simpl;
      repeat split; try lia; eauto.
Qed.

Lemma choice_loop_exit (w w' : World) (r : status unit) (evs : list event) :
  trace w' = (trace w ++ evs)%list -> game w' = game w ->
  throw_count evs = 0%nat -> in_play n (game w) ->
  (forall a, r <> Returned a) -> loop_shape r evs ->
  choice_loop_post n w r w'.
Proof.
  intros Htr Hg Hzero Hplay Hr Hshape. exists evs.
  split; [exact Htr|]. rewrite Hg, Hzero.
  split; [exact Hplay|]. split; [simpl; lia|]. split; [lia|].
  split; [intros a Ha; now destruct (Hr a)|]. split; [auto|exact Hshape].
Qed.

Ltac early_exit evs0 :=
  intros [= <- <-]; apply choice_loop_exit with (evs := evs0);
  [cbn [trace]; rewrite <- ?app_assoc, ?app_nil_r; reflexivity
  |reflexivity|reflexivity|assumption|discriminate|].

Lemma choice_loop_spec (fuel : nat) : forall env w r w',
  in_play n (game w) -> game_over (game w) = false ->
  choice_loop fuel env w = (r, w') ->
  choice_loop_post n w r w'.
Proof.
  induction fuel as [|fuel IH]; intros env w r w' Hplay Hopen.
  - early_exit (@nil event). constructor.
  - cbn [choice_loop]. run_loop.
    destruct (drains env (ndrain w)) eqn:Hdrain; run_loop.
    2:{ early_exit [EvWrite prompt; EvDrain].
        apply loop_shape_flush; [apply drain_raises_flush|ordinary_writes]. }
    destruct (reads env (nread w)) as [raw| |msg|name] eqn:Hread; run_loop.
    2-4: early_exit [EvWrite prompt; EvDrain]; ordinary_writes.
    assert (Hpre : is_quit raw = false -> Forall ordinary [EvWrite prompt; EvDrain; EvRead raw])
      by (intros ?; ordinary_writes; assumption).
    unfold is_quit in Hpre.
    destruct (Py.decode raw) as [text|] eqn:Hdec; run_loop.
    2:{ early_exit [EvWrite prompt; EvDrain; EvRead raw]. apply Hpre. reflexivity. }
    destruct (Py.str_eqb (Py.strip text) (Py.literal "q")) eqn:Hq; run_loop.
    { early_exit [EvWrite prompt; EvDrain; EvRead raw].
      exists [EvWrite prompt; EvDrain], raw. split; [reflexivity|].
      split; [ordinary_writes|]. unfold is_quit. now rewrite Hdec. }
    specialize (Hpre eq_refl).
    match goal with
    | |- context [attempt raw env ?w1] =>
      destruct (attempt raw env w1) as [ra wa] eqn:Hatt;
        apply attempt_spec in Hatt; [|exact Hplay|exact Hopen]
    end.
    cbn [game trace] in Hatt.
    destruct Hatt as (evs & Htr & Hord & Hplaya & Hround & Hle & Hra).
    rewrite <- !app_assoc in Htr. cbn [app] in Htr.
    assert (Hcount : forall l, throw_count ([EvWrite prompt; EvDrain; EvRead raw] ++ l)
                               = throw_count l) by reflexivity.
    destruct ra as [[|]|e|]; try contradiction.
    + intros [= <- <-].
      exists ([EvWrite prompt; EvDrain; EvRead raw] ++ evs)%list.
      split; [exact Htr|]. split; [exact Hplaya|]. rewrite Hcount.
      split; [exact Hround|]. split; [exact Hle|]. split; [auto|].
      split; [discriminate|].
      apply loop_shape_prefix; [exact Hpre|exact Hord].
    + intros Hrec.
      apply IH in Hrec; [|rewrite Hra; exact Hplay|rewrite Hra; exact Hopen].
      destruct Hrec as (evs' & Htr' & Hplay' & Hround' & Hle' & Hret' & Hquit' & Hshape').
      rewrite Hra in Hround'.
      assert (Hzero : throw_count evs = 0%nat) by (rewrite Hra in Hround; lia).
      exists (([EvWrite prompt; EvDrain; EvRead raw] ++ evs) ++ evs')%list.
      split; [rewrite Htr', Htr; now rewrite <- !app_assoc|].
      split; [exact Hplay'|].
      rewrite throw_count_app, Hcount, Hzero.
      split; [exact Hround'|]. split; [exact Hle'|]. split; [exact Hret'|].
      split; [intros Hq'; now rewrite (Hquit' Hq')|].
      apply loop_shape_prefix; auto using Forall_app_2.
    + intros [= <- <-].
      exists ([EvWrite prompt; EvDrain; EvRead raw] ++ evs)%list.
      split; [exact Htr|]. split; [exact Hplaya|]. rewrite Hcount.
      split; [exact Hround|]. split; [exact Hle|]. split; [discriminate|].
      split; [intros [= ->]; destruct Hra as [[=]|[name [=]]]|].
      apply loop_shape_prefix; [exact Hpre|now apply loop_shape_flush].
Qed.

(** ** A round, and the rounds of a session *)

Lemma banner_ordinary : Forall ordinary banner.
Proof. unfold banner, line_events. cbn [flat_map app]. ordinary_writes. Qed.

Lemma banner_no_throw (l : list event) : throw_count (banner ++ l) = throw_count l.
Proof. reflexivity. Qed.

Lemma writelines_run (data : list string) : forall env w,
  writelines data env w
  = (Returned tt,
     {| game := game w; trace := trace w ++ line_events data;
        nread := nread w; ndrain := ndrain w; ndraw := ndraw w |}).
Proof.
  induction data as [|line rest IH]; intros env w.
  - cbn [writelines line_events flat_map]. unfold ret. rewrite app_nil_r.
    now destruct w.
  - cbn [writelines]. unfold bind at 1, writeline, bind, write, writer_write, log.
    rewrite IH. cbn [game trace nread ndrain ndraw line_events flat_map app].
    rewrite <- !app_assoc. reflexivity.
Qed.

(** [one_round] begins with the banner, whatever the state. *)
Lemma one_round_unfold fuel env w :
  one_round fuel env w
  = if drains env (ndrain w)
    then choice_loop fuel env
           {| game := game w; trace := trace w ++ banner; nread := nread w;
              ndrain := S (ndrain w); ndraw := ndraw w |}
    else (Raised (drain_raises env (ndrain w)),
          {| game := game w; trace := trace w ++ banner; nread := nread w;
             ndrain := S (ndrain w); ndraw := ndraw w |}).
Proof.
  unfold one_round, banner, bind. rewrite !writelines_run.
  unfold drain. cbn [game trace nread ndrain ndraw].
  rewrite <- !app_assoc.
  destruct (drains env (ndrain w)); reflexivity.
Qed.

Lemma one_round_spec (fuel : nat) (env : Env) (w w' : World) (r : status unit) :
  in_play n (game w) -> game_over (game w) = false ->
  one_round fuel env w = (r, w') ->
  choice_loop_post n w r w'.
Proof.
  intros Hplay Hopen. rewrite one_round_unfold.
  destruct (drains env (ndrain w)).
  - intros Hloop. apply choice_loop_spec in Hloop; [|exact Hplay|exact Hopen].
    destruct Hloop as (evs & Htr & Hplay' & Hround & Hle & Hret & Hquit & Hshape).
    cbn [game trace] in *.
    exists (banner ++ evs)%list. rewrite banner_no_throw.
    split; [now rewrite Htr, <- app_assoc|]. split; [exact Hplay'|].
    split; [exact Hround|]. split; [exact Hle|]. split; [exact Hret|].
    split; [exact Hquit|].
    apply loop_shape_prefix; [exact banner_ordinary|exact Hshape].
  - intros [= <- <-]. apply choice_loop_exit with (evs := banner);
      try reflexivity; try assumption; try discriminate.
    apply loop_shape_flush; [apply drain_raises_flush|exact banner_ordinary].
Qed.

Lemma play_loop_spec (fuel : nat) : forall env w r w',
  in_play n (game w) ->
  play_loop fuel env w = (r, w') ->
  play_loop_post n w r w'.
Proof.
  assert (Hstop : forall w r, in_play n (game w) ->
            (forall a, r = Returned a -> game_over (game w) = true) ->
            loop_shape r [] -> play_loop_post n w r w).
  { intros w r Hplay Hret Hshape. exists []. rewrite app_nil_r.
    split; [reflexivity|]. split; [exact Hplay|].
    split; [unfold throw_count; simpl; lia|].
    split; [exact Hret|]. split; [|exact Hshape].
    intros ->. destruct Hshape as ([|? ?] & ? & [=] & _). }
  induction fuel as [|fuel IH]; intros env w r w' Hplay;
    cbn [play_loop]; destruct (game_over (game w)) eqn:Hover;
    try (intros [= <- <-]; apply Hstop; [exact Hplay|intros; congruence|constructor]).
  unfold bind.
  destruct (one_round fuel env w) as [r1 w1] eqn:Hround1.
  apply one_round_spec in Hround1; [|exact Hplay|exact Hover].
  destruct Hround1 as (evs & Htr & Hplay1 & Hround & _ & _ & Hquit & Hshape).
  destruct r1 as [[]|e|].
  - intros Hrest. apply IH in Hrest; [|exact Hplay1].
    destruct Hrest as (evs' & Htr' & Hplay' & Hround' & Hret' & Hquit' & Hshape').
    exists (evs ++ evs')%list. rewrite throw_count_app.
    split; [now rewrite Htr', Htr, <- app_assoc|]. split; [exact Hplay'|].
    split; [lia|]. split; [exact Hret'|]. split; [exact Hquit'|].
    apply loop_shape_prefix; [exact Hshape|exact Hshape'].
  - intros [= <- <-]. exists evs. repeat (split; [assumption|]).
    split; [discriminate|]. split; [|exact Hshape].
    intros Hq. now rewrite (Hquit Hq).
  - intros [= <- <-]. exists evs. repeat (split; [assumption|]).
    split; [discriminate|]. split; [discriminate|exact Hshape].
Qed.

End Loops.

(** ** A whole session *)

Lemma throw_count_tail (evs tail : list event) :
  throw_count tail = 0%nat -> throw_count (evs ++ tail) = throw_count evs.
Proof. intros H. rewrite throw_count_app, H. lia. Qed.

Ltac run_session :=
  cbv beta iota zeta delta
      [closing session final_message try_except bind lift raise ret pending
       write writer_write drain log];
  cbn [game trace nread ndrain ndraw].

Lemma session_spec (fuel : nat) (env : Env) :
  exists r w,
    roshambo_client fuel env = Served r w
    /\ in_play 3 (game w)
    /\ round (game w) = Z.of_nat (throw_count (trace w))
    /\ ending r w.
Proof.
  unfold roshambo_client.
  destruct (Roshambo_init 3) as [g0|e] eqn:Hinit; [|discriminate].
  pose proof (init_in_play 3 g0 eq_refl Hinit) as Hplay0.
  assert (Hround0 : round g0 = 0) by (injection Hinit as <-; reflexivity).
  run_session.
  destruct (play_loop fuel env (new_world g0)) as [r1 w1] eqn:Hloop.
  apply (play_loop_spec 3) in Hloop; [|exact Hplay0].
  destruct Hloop as (evs & Htr & Hplay & Hround & Hret & Hquit & Hshape).
  cbn [new_world game trace app] in Htr, Hround. rewrite Hround0 in Hround.
  subst evs. simpl in Hround.
  assert (Htail : forall tail, throw_count tail = 0%nat ->
                    round (game w1) = Z.of_nat (throw_count (trace w1 ++ tail)))
    by (intros tail Htail; now rewrite throw_count_tail).
  assert (Hflush : forall k,
             (if drains env k then Returned tt else Raised (drain_raises env k))
             = Returned tt
             \/ exists e,
                 (if drains env k then Returned tt
                  else Raised (drain_raises env k)) = @Raised unit e
                 /\ flush_exn e).
  { intros k. destruct (drains env k); [now left|right].
    eexists. split; [reflexivity|apply drain_raises_flush]. }
  destruct r1 as [[]|e|].
  - run_session. fold (verdict (game w1)). rewrite encode_verdict.
    specialize (Hflush (ndrain w1)).
    destruct (drains env (ndrain w1)); run_session;
      (eexists _, _; split; [reflexivity|]); cbn [game trace];
      rewrite <- !app_assoc; cbn [app];
      (split; [exact Hplay|]); (split; [now apply Htail|]);
      (apply ended_verdict with (evs := trace w1); cbn [game trace];
       [reflexivity|exact Hshape|eauto|exact Hflush]).
  - destruct e; try contradiction; run_session.
    + destruct Hshape as (evs0 & raw & Heq & Hord & Hq).
      specialize (Hflush (ndrain w1)).
      destruct (drains env (ndrain w1)); run_session;
        (eexists _, _; split; [reflexivity|]); cbn [game trace];
        rewrite <- !app_assoc; cbn [app];
        (split; [exact Hplay|]); (split; [now apply Htail|]);
        (apply ended_quit with (evs := evs0) (raw := raw); cbn [game trace];
         [rewrite Heq, <- app_assoc; reflexivity|exact Hord|exact Hq|auto
         |exact Hflush]).
    + eexists _, _; split; [reflexivity|]. cbn [game trace].
      split; [exact Hplay|]. split; [now apply Htail|].
      apply ended_failed with (evs := trace w1) (e := ValueError msg);
        cbn [game trace]; [reflexivity|exact Hshape|reflexivity|left; eauto].
    + eexists _, _; split; [reflexivity|]. cbn [game trace].
      split; [exact Hplay|]. split; [now apply Htail|].
      apply ended_silent with (evs := trace w1); cbn [game trace];
        [reflexivity|exact Hshape|reflexivity].
    + eexists _, _; split; [reflexivity|]. cbn [game trace].
      split; [exact Hplay|]. split; [now apply Htail|].
      apply ended_silent with (evs := trace w1); cbn [game trace];
        [reflexivity|exact Hshape|reflexivity].
    + eexists _, _; split; [reflexivity|]. cbn [game trace].
      split; [exact Hplay|]. split; [now apply Htail|].
      apply ended_failed with (evs := trace w1) (e := StreamError name);
        cbn [game trace]; [reflexivity|exact Hshape|reflexivity|right; eauto].
  - eexists _, _; split; [reflexivity|].
    split; [exact Hplay|]. split; [exact Hround|].
    apply ended_pending; [exact Hshape|reflexivity].
Qed.

(** ** Steps only add to the trace *)

Create HintDb extends.

Lemma extends_ret {A : Type} (a : A) : extends (ret a).
Proof. intros env w. exists []. simpl. now rewrite app_nil_r. Qed.

Lemma extends_raise {A : Type} (e : exn) : extends (@raise A e).
Proof. intros env w. exists []. simpl. now rewrite app_nil_r. Qed.

Lemma extends_pending {A : Type} : extends (@pending A).
Proof. intros env w. exists []. simpl. now rewrite app_nil_r. Qed.

Lemma extends_lift {A : Type} (o : outcome A) : extends (lift o).
Proof. destruct o; [apply extends_ret|apply extends_raise]. Qed.

Lemma extends_bind {A B : Type} (m : M A) (k : A -> M B) :
  extends m -> (forall a, extends (k a)) -> extends (bind m k).
Proof.
  intros Hm Hk env w. unfold bind.
  destruct (Hm env w) as [evs Hevs].
  destruct (m env w) as [[a|e|] w1]; simpl in Hevs; try (exists evs; exact Hevs).
  destruct (Hk a env w1) as [evs' Hevs'].
  exists (evs ++ evs')%list. now rewrite Hevs', Hevs, app_assoc.
Qed.

Lemma extends_try_except {A : Type} (m : M A) (handler : exn -> option (M A)) :
  extends m -> (forall e k, handler e = Some k -> extends k) ->
  extends (try_except m handler).
Proof.
  intros Hm Hh env w. unfold try_except.
  destruct (Hm env w) as [evs Hevs].
  destruct (m env w) as [[a|e|] w1]; simpl in Hevs; try (exists evs; exact Hevs).
  destruct (handler e) as [k|] eqn:Hk; [|exists evs; exact Hevs].
  destruct (Hh e k Hk env w1) as [evs' Hevs'].
  exists (evs ++ evs')%list. now rewrite Hevs', Hevs, app_assoc.
Qed.

Lemma extends_writer_write (data : string) : extends (writer_write data).
Proof. intros env w. now exists [EvWrite data]. Qed.

Lemma extends_write (data : string) : extends (write data).
Proof. apply extends_writer_write. Qed.

Lemma extends_drain : extends drain.
Proof. intros env w. exists [EvDrain]. unfold drain. now destruct (drains _ _). Qed.

Lemma extends_readline : extends readline.
Proof.
  intros env w. unfold readline. destruct (reads _ _) as [raw| |msg|name];
    [now exists [EvRead raw]|..]; exists []; simpl; now rewrite app_nil_r.
Qed.

Lemma extends_game_throw (theirs : Choice) : extends (game_throw theirs).
Proof.
  intros env w. exists [EvThrow (game w) theirs]. unfold game_throw.
  destruct (throw _ _ _) as [[t|e] g']; reflexivity.
Qed.

Lemma extends_decode (raw : Py.bytes) : extends (decode raw).
Proof. unfold decode. destruct (Py.decode raw); [apply extends_ret|apply extends_raise]. Qed.

#[local] Hint Resolve extends_ret extends_raise extends_pending extends_lift
  extends_writer_write extends_write extends_drain extends_readline
  extends_game_throw
  extends_decode : extends.

Lemma extends_writeline (data : string) : extends (writeline data).
Proof. unfold writeline. apply extends_bind; auto with extends. Qed.

Lemma extends_writelines (data : list string) : extends (writelines data).
Proof.
  induction data as [|line rest IH]; simpl; [apply extends_ret|].
  apply extends_bind; [apply extends_writeline|intros _; exact IH].
Qed.

#[local] Hint Resolve extends_writeline extends_writelines : extends.

Lemma extends_attempt (raw : Py.bytes) : extends (attempt raw).
Proof.
  unfold attempt. apply extends_try_except.
  - apply extends_bind; [auto with extends|]. intros choice.
    apply extends_bind; [auto with extends|]. intros [[[res0 res1] res2] flag].
    repeat (apply extends_bind; [auto with extends|intros _]).
    auto with extends.
  - intros [] k; try discriminate. intros [= <-].
    repeat (apply extends_bind; [auto with extends|intros _]).
    auto with extends.
Qed.

Lemma extends_choice_loop (fuel : nat) : extends (choice_loop fuel).
Proof.
  induction fuel as [|fuel IH]; simpl; [apply extends_pending|].
  repeat (apply extends_bind; [auto with extends|intros ?]).
  destruct (Py.str_eqb _ _); [auto with extends|].
  apply extends_bind; [apply extends_attempt|]. intros [|]; auto with extends.
Qed.

(** ** Input that is not a choice *)

Lemma parse_choice_invalid (raw : Py.bytes) :
  (forall n, Py.int raw = Return n -> n < 0 \/ 2 < n) ->
  exists err,
    parse_choice raw = Raise (ValueError err)
    /\ (Py.int raw = Raise (ValueError err)
        \/ exists n, Py.int raw = Return n
                     /\ err = pretty n ++ " is not a valid Choice").
Proof.
  intros Hout. unfold parse_choice, Choice_of_value.
  destruct (Py.int raw) as [n|e] eqn:Hint.
  - destruct (Hout n eq_refl) as [Hn|Hn];
      (destruct (n =? 0) eqn:H0; [lia|]); (destruct (n =? 1) eqn:H1; [lia|]);
      (destruct (n =? 2) eqn:H2; [lia|]); eauto 6.
  - destruct (int_raises raw e Hint) as [msg ->]. eauto.
Qed.

Lemma choice_loop_prompts (fuel : nat) (env : Env) (w : World) :
  exists rest,
    trace (snd (choice_loop (S fuel) env w)) = (trace w ++ EvWrite prompt :: rest)%list.
Proof.
  cbn [choice_loop]. unfold bind at 1, write at 1, writer_write at 1.
  match goal with
  | |- context [bind ?m ?k env ?w1] =>
    assert (Hext : extends (bind m k))
  end.
  { repeat (apply extends_bind; [auto with extends|intros ?]). cbv beta.
    destruct (Py.str_eqb _ _); [auto with extends|].
    apply extends_bind; [apply extends_attempt|]. intros [|]; auto with extends.
    apply extends_choice_loop. }
  change (Py.encode prompt) with prompt.
  destruct (Hext env (log (EvWrite prompt) w)) as [rest Hrest].
  exists rest. rewrite Hrest. cbn [log trace]. now rewrite <- app_assoc.
Qed.

(** C7 (amended): when the line read decodes as UTF-8, is not the quit
    token once trimmed, and [int] rejects it or gives a value outside
    0..2, the loop of [one_round] writes one "Invalid choice: ..." line,
    with the message of [int] or of [Choice], without calling [throw]:
    the game object and the random source are as before.  Unless the
    flush of that line fails (the exception of the flush then leaves
    the loop), the loop goes on in the same round, and its next step
    is to write the prompt again. *)
Theorem invalid_line_is_retried (fuel : nat) (env : Env) (w : World)
        (raw : Py.bytes) (text : Py.str) :
  drains env (ndrain w) = true ->
  reads env (nread w) = Line raw ->
  Py.decode raw = Some text ->
  Py.strip text <> Py.literal "q" ->
  (forall n, Py.int raw = Return n -> n < 0 \/ 2 < n) ->
  exists err w1,
    parse_choice raw = Raise (ValueError err)
    /\ (Py.int raw = Raise (ValueError err)
        \/ exists n, Py.int raw = Return n
                     /\ err = pretty n ++ " is not a valid Choice")
    /\ trace w1 = (trace w ++ [EvWrite prompt; EvDrain; EvRead raw;
                               EvWrite ("Invalid choice: " ++ err);
                               EvWrite eol; EvDrain])%list
    /\ game w1 = game w
    /\ ndraw w1 = ndraw w
    /\ choice_loop (S fuel) env w
       = (if drains env (S (ndrain w)) then choice_loop fuel env w1
          else (Raised (drain_raises env (S (ndrain w))), w1))
    /\ (forall fuel', exists rest,
           trace (snd (choice_loop (S fuel') env w1))
           = (trace w1 ++ EvWrite prompt :: rest)%list).
Proof.
  intros Hdrain Hread Hdec Hq Hout.
  destruct (parse_choice_invalid raw Hout) as (err & Hparse & Herr).
  exists err,
    {| game := game w;
       trace := trace w ++ [EvWrite prompt; EvDrain; EvRead raw;
                            EvWrite ("Invalid choice: " ++ err);
                            EvWrite eol; EvDrain];
       nread := S (nread w); ndrain := S (S (ndrain w)); ndraw := ndraw w |}.
  split; [exact Hparse|]. split; [exact Herr|].
  split; [reflexivity|]. split; [reflexivity|].
  split; [reflexivity|]. split; [|intros fuel'; apply choice_loop_prompts].
  assert (Hneq : Py.str_eqb (Py.strip text) (Py.literal "q") = false)
    by (apply bool_decide_eq_false_2; exact Hq).
  cbn [choice_loop]. run_loop. rewrite Hdrain. run_loop. rewrite Hread. run_loop.
  rewrite Hdec. run_loop. rewrite Hneq. unfold attempt. run_loop.
  rewrite Hparse. run_loop. rewrite (encode_invalid raw err Hparse).
  rewrite <- !app_assoc. cbn [app].
  destruct (drains env (S (ndrain w))).
  - destruct (choice_loop fuel env _) as [[[]|e|] w']; reflexivity.
  - unfold drain_raises, drain_exn.
    destruct (drain_failures env (S (ndrain w))); reflexivity.
Qed.

Lemma invalid_line_is_retried_witness :
  exists err w1,
    parse_choice ["5"; x0d; x0a]%byte = Raise (ValueError err)
    /\ err = "5 is not a valid Choice"
    /\ trace w1 = [EvWrite prompt; EvDrain; EvRead ["5"; x0d; x0a]%byte;
                   EvWrite ("Invalid choice: " ++ err); EvWrite eol; EvDrain]
    /\ game w1 = fresh3
    /\ ndraw w1 = 0%nat
    /\ choice_loop 2 (scripted [["5"; x0d; x0a]; ["1"; x0d; x0a]]%byte [ROCK])
                   (new_world fresh3)
       = choice_loop 1 (scripted [["5"; x0d; x0a]; ["1"; x0d; x0a]]%byte [ROCK]) w1
    /\ (forall fuel', exists rest,
           trace (snd (choice_loop (S fuel')
                         (scripted [["5"; x0d; x0a]; ["1"; x0d; x0a]]%byte [ROCK]) w1))
           = (trace w1 ++ EvWrite prompt :: rest)%list).
Proof.
  destruct (invalid_line_is_retried
              1 (scripted [["5"; x0d; x0a]; ["1"; x0d; x0a]]%byte [ROCK])
              (new_world fresh3) ["5"; x0d; x0a]%byte [53; 13; 10]%N)
    as (err & w1 & Hparse & Herr & Htail).
  - reflexivity.
  - reflexivity.
  - reflexivity.
  - vm_compute. discriminate.
  - intros n Hn. vm_compute in Hn. injection Hn as <-. lia.
  - exists err, w1. split; [exact Hparse|]. split; [|exact Htail].
    vm_compute in Hparse. now injection Hparse as <-.
Defined.

(** A line of 4300 zeros and a 2 is no choice: [int] refuses to read
    more than 4300 digits, and the client is told so. *)
Example long_literal_is_invalid :
  parse_choice (replicate 4300 "0"%byte ++ ["2"; x0a]%byte)%list
  = Raise (ValueError
             ("Exceeds the limit (4300 digits) for integer string conversion: "
              ++ "value has 4301 digits; use sys.set_int_max_str_digits() "
              ++ "to increase the limit")).
Proof. vm_compute. reflexivity. Qed.

(** C7, as stated, fails: a line that is not valid UTF-8 is neither the
    quit token nor an integer, yet no invalid-choice message follows it;
    [decode] raises and the session ends without another write. *)
Lemma undecodable_line_ends_session :
  ~ (forall (fuel : nat) (env : Env) (w : World) (raw : Py.bytes),
        drains env (ndrain w) = true ->
        reads env (nread w) = Line raw ->
        is_quit raw = false ->
        (forall n, Py.int raw = Return n -> n < 0 \/ 2 < n) ->
        exists err rest,
          trace (snd (choice_loop (S fuel) env w))
          = (trace w ++ [EvWrite prompt; EvDrain; EvRead raw;
                         EvWrite ("Invalid choice: " ++ err)] ++ rest)%list).
Proof.
  intros H.
  destruct (H 0%nat (scripted [[xff; x0a]%byte] []) (new_world fresh3)
              [xff; x0a]%byte)
    as (err & rest & Htrace); try reflexivity.
  - intros n Hn. vm_compute in Hn. discriminate.
  - vm_compute in Htrace. discriminate.
Qed.

(** ** Giving up *)

Lemma sent_app (a b : list event) : sent (a ++ b) = (sent a ++ sent b)%list.
Proof. apply omap_app. Qed.

Lemma ordinary_sent (evs : list event) (s : string) :
  Forall ordinary evs -> In s (sent evs) -> ~ In s final_messages.
Proof.
  induction 1 as [|ev evs Hev _ IH]; [intros []|].
  destruct ev; simpl; auto. intros [<-|Hin]; auto.
Qed.

Lemma ordinary_read (evs : list event) (raw : Py.bytes) :
  Forall ordinary evs -> In (EvRead raw) evs -> is_quit raw = false.
Proof.
  intros Hord Hin. rewrite List.Forall_forall in Hord. exact (Hord _ Hin).
Qed.

Lemma ordinary_throw (evs : list event) (self : Roshambo) (theirs : Choice) :
  Forall ordinary evs -> In (EvThrow self theirs) evs -> game_over self = false.
Proof.
  intros Hord Hin. rewrite List.Forall_forall in Hord. exact (Hord _ Hin).
Qed.

Ltac not_in_tail H :=
  simpl in H; repeat (destruct H as [H|H]; [discriminate H|]); destruct H.

(** C8: in every session where a line read from the client trims to
    [q], that line is the last one read, and what follows it is exactly
    the farewell "Giving up?" with its line end, a flush and the close
    of the writer: no [throw] for that line, no won-the-game or
    lost-the-game verdict anywhere in the session, and the match is
    left unfinished. *)
Theorem quit_ends_session (fuel : nat) (env : Env) (r : status unit) (w : World)
        (raw : Py.bytes) :
  roshambo_client fuel env = Served r w ->
  In (EvRead raw) (trace w) ->
  is_quit raw = true ->
  exists before,
    trace w = (before ++ [EvRead raw; EvWrite "Giving up?"; EvWrite eol;
                          EvDrain; EvClose])%list
    /\ Forall ordinary before
    /\ sent (trace w) = (sent before ++ ["Giving up?"; eol])%list
    /\ ~ In "You won the game!" (sent (trace w))
    /\ ~ In "You lost the game!" (sent (trace w))
    /\ ~ In "Giving up?" (sent before)
    /\ game_over (game w) = false.
Proof.
  intros Hrun Hin Hquit.
  destruct (session_spec fuel env) as (r' & w' & Hrun' & _ & _ & Hend).
  rewrite Hrun in Hrun'. injection Hrun' as <- <-.
  assert (Hno : forall evs, Forall ordinary evs -> ~ In (EvRead raw) evs).
  { intros evs Hord Hin'. pose proof (ordinary_read evs raw Hord Hin'). congruence. }
  destruct Hend as [evs raw' Htr Hord Hq Hover _|evs Htr Hord _ _
                   |evs Htr Hord _|evs e Htr Hord _ _|Hord _].
  - rewrite Htr in Hin. apply in_app_or in Hin as [Hin|Hin];
      [destruct (Hno evs Hord Hin)|].
    destruct Hin as [[= <-]|Hin]; [|not_in_tail Hin].
    exists evs. split; [exact Htr|]. split; [exact Hord|].
    assert (Hsent : sent (trace w) = (sent evs ++ ["Giving up?"; eol])%list)
      by (rewrite Htr, sent_app; reflexivity).
    assert (Hfinal : forall s, In s final_messages -> ~ In s (sent evs))
      by (intros s Hs Hin; exact (ordinary_sent evs s Hord Hin Hs)).
    split; [exact Hsent|]. rewrite Hsent.
    split; [|split; [|split; [|exact Hover]]].
    + intros Hin. apply in_app_or in Hin as [Hin|Hin].
      * apply (Hfinal "You won the game!"); [simpl; auto|exact Hin].
      * not_in_tail Hin.
    + intros Hin. apply in_app_or in Hin as [Hin|Hin].
      * apply (Hfinal "You lost the game!"); [simpl; auto|exact Hin].
      * not_in_tail Hin.
    + apply Hfinal. simpl; auto.
  - rewrite Htr in Hin. apply in_app_or in Hin as [Hin|Hin];
      [destruct (Hno evs Hord Hin)|not_in_tail Hin].
  - rewrite Htr in Hin. apply in_app_or in Hin as [Hin|Hin];
      [destruct (Hno evs Hord Hin)|not_in_tail Hin].
  - rewrite Htr in Hin. apply in_app_or in Hin as [Hin|Hin];
      [destruct (Hno evs Hord Hin)|not_in_tail Hin].
  - destruct (Hno _ Hord Hin).
Qed.

Lemma quit_ends_session_witness :
  exists r w before,
    roshambo_client 2 (scripted [["q"; x0d; x0a]%byte] []) = Served r w
    /\ trace w = (before ++ [EvRead ["q"; x0d; x0a]%byte; EvWrite "Giving up?";
                             EvWrite eol; EvDrain; EvClose])%list
    /\ sent (trace w) = (sent before ++ ["Giving up?"; eol])%list
    /\ game_over (game w) = false.
Proof.
  destruct (roshambo_client 2 (scripted [["q"; x0d; x0a]%byte] []))
    as [e|r w] eqn:Hrun; [vm_compute in Hrun; discriminate Hrun|].
  destruct (quit_ends_session 2 (scripted [["q"; x0d; x0a]%byte] []) r w
                              ["q"; x0d; x0a]%byte Hrun)
    as (before & Htr & _ & Hsent & _ & _ & _ & Hover).
  - vm_compute in Hrun. injection Hrun as <- <-. simpl. tauto.
  - reflexivity.
  - exists r, w, before. auto.
Defined.

(** ** No round after the last *)

Lemma ending_throws (r : status unit) (w : World) (self : Roshambo) (theirs : Choice) :
  ending r w -> In (EvThrow self theirs) (trace w) -> game_over self = false.
Proof.
  intros Hend Hin.
  destruct Hend as [evs raw' Htr Hord _ _ _|evs Htr Hord _ _
                   |evs Htr Hord _|evs e Htr Hord _ _|Hord _];
    try (rewrite Htr in Hin; apply in_app_or in Hin as [Hin|Hin];
         [|not_in_tail Hin]);
    eapply ordinary_throw; eauto.
Qed.

Lemma ending_status (r : status unit) (w : World) :
  ending r w -> r <> Raised GameOver.
Proof.
  intros [evs raw' _ _ _ _ [->|(e & -> & [->|[name ->]])]
         |evs _ _ _ [->|(e & -> & [->|[name ->]])]
         |evs _ _ ->
         |evs e _ _ -> [[msg ->]|[name ->]]
         |_ ->];
    discriminate.
Qed.

(** C9: in every run of [roshambo_client], whatever the peer, the
    connection and the random source do, each call of [throw] finds the
    game object not over, so the session never ends with [GameOver];
    every call plays a round, at most three in all.  One call of
    [one_round] on a game in play makes at most one call of [throw]. *)
Theorem throw_only_while_in_play :
  (forall (fuel : nat) (env : Env),
      exists r w,
        roshambo_client fuel env = Served r w
        /\ r <> Raised GameOver
        /\ (forall self theirs,
               In (EvThrow self theirs) (trace w) -> game_over self = false)
        /\ Z.of_nat (throw_count (trace w)) = round (game w)
        /\ round (game w) <= 3)
  /\ (forall (n : Z) (fuel : nat) (env : Env) (w w' : World) (r : status unit),
         in_play n (game w) ->
         game_over (game w) = false ->
         one_round fuel env w = (r, w') ->
         r <> Raised GameOver
         /\ exists evs, trace w' = (trace w ++ evs)%list
                        /\ (throw_count evs <= 1)%nat
                        /\ forall self theirs,
                             In (EvThrow self theirs) evs -> game_over self = false).
Proof.
  split.
  - intros fuel env.
    destruct (session_spec fuel env) as (r & w & Hrun & Hplay & Hround & Hend).
    exists r, w. split; [exact Hrun|]. split; [exact (ending_status r w Hend)|].
    split; [intros self theirs; exact (ending_throws r w self theirs Hend)|].
    split; [now rewrite Hround|]. apply (play_round 3 (game w) Hplay).
  - intros n fuel env w w' r Hplay Hopen Hrun.
    apply (one_round_spec n) in Hrun; [|exact Hplay|exact Hopen].
    destruct Hrun as (evs & Htr & _ & _ & Hle & _ & _ & Hshape).
    split.
    + intros ->. exact Hshape.
    + exists evs. split; [exact Htr|]. split; [exact Hle|].
      intros self theirs Hin. destruct r as [a|[]|]; simpl in Hshape;
        try contradiction; try (eapply ordinary_throw; eauto; fail).
      destruct Hshape as (evs0 & raw & -> & Hord & _).
      apply in_app_or in Hin as [Hin|Hin]; [|not_in_tail Hin].
      eapply ordinary_throw; eauto.
Qed.

Lemma throw_only_while_in_play_witness :
  (exists r w,
      roshambo_client 9%nat (scripted [["1"; x0a]; ["1"; x0a]; ["0"; x0a]]%byte
                                  [ROCK; ROCK; PAPER]) = Served r w
      /\ r <> Raised GameOver
      /\ Z.of_nat (throw_count (trace w)) = round (game w))
  /\ (exists evs,
         trace (snd (one_round 1%nat (scripted [["1"; x0a]]%byte [ROCK])
                               (new_world fresh3)))
         = evs
         /\ (throw_count evs <= 1)%nat).
Proof.
  split.
  - destruct (proj1 throw_only_while_in_play 9%nat
                (scripted [["1"; x0a]; ["1"; x0a]; ["0"; x0a]]%byte
                          [ROCK; ROCK; PAPER]))
      as (r & w & Hrun & Hr & _ & Hcount & _).
    exists r, w. auto.
  - destruct (proj2 throw_only_while_in_play 3 1%nat
                (scripted [["1"; x0a]]%byte [ROCK]) (new_world fresh3)
                (snd (one_round 1%nat (scripted [["1"; x0a]]%byte [ROCK])
                                (new_world fresh3)))
                (fst (one_round 1%nat (scripted [["1"; x0a]]%byte [ROCK])
                                (new_world fresh3))))
      as (_ & evs & Htr & Hle & _).
    + split; simpl; try reflexivity; lia.
    + reflexivity.
    + vm_compute. reflexivity.
    + exists evs. split; [exact Htr|exact Hle].
Defined.

(** ** The banner of a round *)

Lemma pretty_N_char_not_brace (d : N) : pretty_N_char d <> "{"%char.
Proof. unfold pretty_N_char. repeat case_match; discriminate. Qed.

Lemma pretty_N_go_head (x : N) : forall s,
  (exists c rest, s = String c rest /\ c <> "{"%char) ->
  exists c rest, pretty_N_go x s = String c rest /\ c <> "{"%char.
Proof.
  induction (N.lt_wf_0 x) as [x _ IH]; intros s Hs.
  destruct (N.eq_dec x 0%N) as [->|Hx]; [now rewrite pretty_N_go_0|].
  rewrite pretty_N_go_step by lia. apply IH.
  - apply N.div_lt; lia.
  - eexists _, _. split; [reflexivity|apply pretty_N_char_not_brace].
Qed.

Lemma pretty_N_head (x : N) :
  exists c rest, pretty x = String c rest /\ c <> "{"%char.
Proof.
  unfold pretty, pretty_N. destruct (decide (x = 0%N)) as [->|Hx].
  - eexists _, _. split; [reflexivity|discriminate].
  - rewrite pretty_N_go_step by lia. apply pretty_N_go_head.
    eexists _, _. split; [reflexivity|apply pretty_N_char_not_brace].
Qed.

Lemma pretty_Z_head (z : Z) :
  exists c rest, pretty z = String c rest /\ c <> "{"%char.
Proof.
  destruct z as [|p|p]; unfold pretty, pretty_Z.
  - eexists _, _. split; [reflexivity|discriminate].
  - apply (pretty_N_head (Npos p)).
  - eexists _, _. split; [reflexivity|discriminate].
Qed.

(** C1 (the code departs from it): whatever the round counter, the
    banner [one_round] writes carries the text [Round {game.round + 1}]
    as it stands in the source, between the two rule lines and before
    the three labels; that text is not "Round N" for the number N of
    the round about to be played, nor for any other number. *)
Theorem round_banner_is_literal (fuel : nat) (env : Env) (w : World) :
  (exists rest,
      sent (trace (snd (one_round fuel env w)))
      = (sent (trace w)
         ++ [rule; eol; "Round {game.round + 1}"; eol; rule; eol;
             "0 - Rock"; eol; "1 - Paper"; eol; "2 - Scissors"; eol]
         ++ rest)%list)
  /\ "Round {game.round + 1}" <> "Round " ++ pretty (round (game w) + 1).
Proof.
  split.
  - rewrite one_round_unfold.
    destruct (drains env (ndrain w)).
    + match goal with
      | |- context [choice_loop fuel env ?w1] =>
        destruct (extends_choice_loop fuel env w1) as [evs Hevs]
      end.
      rewrite Hevs. cbn [trace]. exists (sent evs).
      rewrite !sent_app, <- app_assoc. reflexivity.
    + exists []. cbn [snd trace]. rewrite sent_app. reflexivity.
  - intros Heq. injection Heq as Heq.
    destruct (pretty_Z_head (round (game w) + 1)) as (c & rest & Hc & Hne).
    rewrite Hc in Heq. injection Heq as Heq _. congruence.
Qed.

(** * Further properties of the code *)

(** ** The game object, beyond the claims *)

(** X1: a negative odd count within the index type of the interpreter
    passes the constructor, but the object it builds has an empty
    [results] list and is not over: every call of [throw] on it raises
    [IndexError] and leaves it as it was, so no round can ever be
    played with it. *)
Theorem negative_count_cannot_be_played (n : Z) :
  - Py.SSIZE_MAX - 1 <= n < 0 -> Z.odd n = true ->
  exists g0,
    Roshambo_init n = Return g0
    /\ results g0 = []
    /\ game_over g0 = false
    /\ forall theirs mine, throw g0 theirs mine = (Raise IndexError, g0).
Proof.
  intros [Hlo Hneg] Hodd.
  assert (Hmax : 0 <= Py.SSIZE_MAX / 8) by (vm_compute; discriminate).
  eexists. split; [apply (init_odd_in_range n Hodd); lia|].
  assert (Hnil : replicate (Z.to_nat n) (@None Result) = [])
    by (replace (Z.to_nat n) with 0%nat by lia; reflexivity).
  cbn [results game_over]. split; [exact Hnil|]. split; [reflexivity|].
  intros theirs mine. unfold throw. cbn [game_over results round].
  destruct (evaluate_total theirs mine) as [res ->]. now rewrite Hnil.
Qed.

Lemma negative_count_cannot_be_played_witness :
  exists g0,
    Roshambo_init (-1) = Return g0
    /\ results g0 = []
    /\ game_over g0 = false
    /\ forall theirs mine, throw g0 theirs mine = (Raise IndexError, g0).
Proof.
  apply (negative_count_cannot_be_played (-1)); [|reflexivity].
  unfold Py.SSIZE_MAX. lia.
Defined.

(** X2: [throw] is exception safe.  When a call raises, the object is
    exactly as before the call, and the exception is [GameOver] on a
    finished game, or [IndexError] on an open game whose counter is
    outside [results]; nothing else is raised. *)
Theorem throw_raises_without_effect (self self' : Roshambo) (theirs mine : Choice)
        (e : exn) :
  throw self theirs mine = (Raise e, self') ->
  self' = self
  /\ (e = GameOver /\ game_over self = true
      \/ e = IndexError /\ game_over self = false
         /\ Py.index (results self) (round self) = None).
Proof.
  unfold throw. destruct (game_over self) eqn:Hover.
  - intros [= <- <-]. auto.
  - destruct (evaluate_total theirs mine) as [res ->].
    unfold Py.setitem. destruct (Py.index _ _) eqn:Hidx; [discriminate|].
    intros [= <- <-]. auto.
Qed.

Lemma throw_raises_without_effect_witness :
  {| rounds := 1; round := 1; results := [Some TIE];
     they_win := false; game_over := true |}
  = {| rounds := 1; round := 1; results := [Some TIE];
       they_win := false; game_over := true |}
  /\ (GameOver = GameOver /\ true = true
      \/ GameOver = IndexError /\ true = false
         /\ Py.index [Some TIE] 1 = None).
Proof.
  apply (throw_raises_without_effect
           {| rounds := 1; round := 1; results := [Some TIE];
              they_win := false; game_over := true |} _ ROCK ROCK).
  reflexivity.
Defined.

Lemma throw_filled (n : Z) (done : list (Choice * Choice)) (g g' : Roshambo)
      (theirs mine : Choice) (t : Choice * Choice * Result * bool) :
  filled n done g -> throw g theirs mine = (Return t, g') ->
  filled n (done ++ [(theirs, mine)])%list g'.
Proof.
  intros [Hplay Hround Hres] Hthrow.
  pose proof (throw_Return _ _ _ _ _ Hthrow) as (Hopen & res & rs & Heval & Hset & Hg' & _).
  pose proof (in_play_open n g Hplay Hopen) as Hlt.
  destruct (throw_in_play n g theirs mine Hplay Hlt) as (res' & g2 & Hthrow' & _ & Hr' & Hplay').
  rewrite Hthrow in Hthrow'. injection Hthrow' as _ <-.
  split; [exact Hplay'| |].
  - rewrite Hr', Hround, length_app. simpl. lia.
  - assert (Hg'res : results g' = rs).
    { rewrite Hg'. unfold finish; simpl. now destruct (rounds g <=? round g + 1). }
    rewrite Hg'res. unfold Py.setitem in Hset.
    rewrite index_in_range in Hset
      by (destruct Hplay as [_ Hlen [H0 _] _]; rewrite Hlen; lia).
    injection Hset as <-. rewrite Hres, Hround, Nat2Z.id.
    assert (Hk : (length done < Z.to_nat n)%nat) by lia.
    destruct (Z.to_nat n - length done)%nat as [|m] eqn:Hm; [lia|].
    rewrite insert_app_r_alt by (rewrite length_map; lia).
    rewrite length_map, Nat.sub_diag. cbn [replicate].
    rewrite map_app, <- app_assoc. cbn [map app].
    assert (Hslot : slot_of (theirs, mine) = Some res)
      by (unfold slot_of; simpl; now rewrite Heval).
    rewrite Hslot. simpl insert.
    replace (Z.to_nat n - length (done ++ [(theirs, mine)]))%nat with m
      by (rewrite length_app; simpl; lia).
    reflexivity.
Qed.

Lemma play_filled (n : Z) (plays : list (Choice * Choice)) :
  forall done g g',
    filled n done g -> play g plays = Return g' -> filled n (done ++ plays)%list g'.
Proof.
  induction plays as [|[theirs mine] rest IH]; intros done g g' Hg; simpl.
  - intros [= <-]. now rewrite app_nil_r.
  - destruct (throw g theirs mine) as [[t|e] g1] eqn:Hthrow; [|discriminate].
    intros Hplay. replace (done ++ (theirs, mine) :: rest)%list
      with ((done ++ [(theirs, mine)]) ++ rest)%list by now rewrite <- app_assoc.
    eapply IH; [eapply throw_filled; eauto|exact Hplay].
Qed.

(** X3: after any sequence of successful calls of [throw] on an object
    built with a positive count [n], [results] holds the outcomes of
    the rounds played, in the order played, followed by [None] for the
    rounds still to play; the counter is the number of rounds played,
    at most [n]. *)
Theorem results_record_rounds_in_order (n : Z) (g0 g : Roshambo)
        (plays : list (Choice * Choice)) :
  0 < n ->
  Roshambo_init n = Return g0 ->
  play g0 plays = Return g ->
  results g = (map slot_of plays
               ++ replicate (Z.to_nat n - length plays)%nat None)%list
  /\ round g = Z.of_nat (length plays)
  /\ Z.of_nat (length plays) <= n
  /\ Forall (fun p => exists res, slot_of p = Some res) plays.
Proof.
  intros Hpos Hinit Hplay.
  assert (H0 : filled n [] g0).
  { split; [exact (init_in_play n g0 Hpos Hinit)| |];
      destruct (init_Return n g0 Hinit) as [_ ->]; [reflexivity|].
    simpl. now rewrite Nat.sub_0_r. }
  pose proof (play_filled n plays [] g0 g H0 Hplay) as [Hp Hr Hres].
  simpl in *. split; [exact Hres|]. split; [exact Hr|].
  split; [destruct Hp as [_ _ [_ Hle] _]; lia|].
  apply List.Forall_forall. intros [theirs mine] _. unfold slot_of. simpl.
  destruct (evaluate_total theirs mine) as [res ->]. eauto.
Qed.

Lemma results_record_rounds_in_order_witness :
  results {| rounds := 3; round := 2; results := [Some WIN; Some TIE; None];
             they_win := false; game_over := false |}
  = (map slot_of [(PAPER, ROCK); (ROCK, ROCK)]
     ++ replicate (Z.to_nat 3 - length [(PAPER, ROCK); (ROCK, ROCK)])%nat None)%list
  /\ 2 = Z.of_nat (length [(PAPER, ROCK); (ROCK, ROCK)])
  /\ Z.of_nat (length [(PAPER, ROCK); (ROCK, ROCK)]) <= 3
  /\ Forall (fun p => exists res, slot_of p = Some res)
            [(PAPER, ROCK); (ROCK, ROCK)].
Proof.
  apply (results_record_rounds_in_order 3 fresh3); [lia|reflexivity|reflexivity].
Defined.

Lemma count_WIN_LOSE (rs : list (option Result)) :
  count_WIN rs + count_LOSE rs <= Z.of_nat (length rs).
Proof.
  unfold count_WIN, count_LOSE.
  induction rs as [|[[]|] rs IH]; simpl; lia.
Qed.

Lemma index_Some_lt {A : Type} (l : list A) (i : Z) (k : nat) :
  Py.index l i = Some k -> (k < length l)%nat.
Proof.
  unfold Py.index.
  destruct (0 <=? i) eqn:H0, (i <? Z.of_nat (length l)) eqn:H1; simpl;
    try (intros [= <-]; lia);
    destruct (- Z.of_nat (length l) <=? i) eqn:H2, (i <? 0) eqn:H3; simpl;
    try discriminate; intros [= <-]; lia.
Qed.

Lemma throw_nonempty (g g' : Roshambo) (theirs mine : Choice)
      (t : Choice * Choice * Result * bool) :
  throw g theirs mine = (Return t, g') -> results g' <> [].
Proof.
  intros Hthrow.
  apply throw_Return in Hthrow as (_ & res & rs & _ & Hset & -> & _).
  assert (Hrs : rs <> []).
  { pose proof (setitem_length _ _ _ _ Hset) as Hlen.
    unfold Py.setitem in Hset.
    destruct (Py.index (results g) (round g)) as [k|] eqn:Hidx; [|discriminate].
    apply index_Some_lt in Hidx. intros ->. simpl in Hlen. lia. }
  unfold finish; simpl. now destruct (rounds g <=? round g + 1).
Qed.

Lemma play_over_nonempty (plays : list (Choice * Choice)) :
  forall g g',
    (game_over g = true -> results g <> []) ->
    play g plays = Return g' ->
    game_over g' = true -> results g' <> [].
Proof.
  induction plays as [|[theirs mine] rest IH]; intros g g' Hg; simpl.
  - now intros [= <-].
  - destruct (throw g theirs mine) as [[t|e] g1] eqn:Hthrow; [|discriminate].
    apply IH. intros _. eapply throw_nonempty; eauto.
Qed.

(** X4: when [they_win] is set on a finished game, the client has won
    strictly more rounds than it has lost.  The converse fails: with
    WIN, TIE, TIE the client has more wins than losses and is not
    declared the winner. *)
Theorem winner_won_more_than_lost :
  (forall n g0 plays g,
      Roshambo_init n = Return g0 ->
      play g0 plays = Return g ->
      game_over g = true ->
      they_win g = true ->
      count_LOSE (results g) < count_WIN (results g))
  /\ (exists g,
         play fresh3 [(PAPER, ROCK); (ROCK, ROCK); (PAPER, PAPER)] = Return g
         /\ game_over g = true
         /\ count_LOSE (results g) < count_WIN (results g)
         /\ they_win g = false).
Proof.
  split; [|eexists; repeat split].
  intros n g0 plays g Hinit Hplay Hover Hwin.
  pose proof (play_consistent n plays g0 g (init_consistent n g0 Hinit) Hplay)
    as [_ Hlen _ _ Hfrozen].
  pose proof Hover as Hover'.
  pose proof (count_WIN_LOSE (results g)) as Hcount. rewrite Hlen in Hcount.
  specialize (Hfrozen Hover). rewrite Hwin in Hfrozen. symmetry in Hfrozen.
  apply Z.ltb_lt in Hfrozen.
  assert (Hodd : n mod 2 = 1).
  { destruct (init_Return n g0 Hinit) as [H0 _].
    pose proof (Z.mod_pos_bound n 2). lia. }
  assert (Hpos : 0 < n).
  { destruct (Z.le_gt_cases n 0) as [Hle|]; [|assumption].
    exfalso. replace (Z.to_nat n) with 0%nat in Hlen by lia.
    apply nil_length_inv in Hlen.
    apply (play_over_nonempty plays g0 g); auto.
    destruct (init_Return n g0 Hinit) as [_ ->]. discriminate. }
  pose proof (Z.div_mod n 2). lia.
Qed.

Lemma winner_won_more_than_lost_witness :
  count_LOSE [Some WIN; Some WIN; Some LOSE]
  < count_WIN [Some WIN; Some WIN; Some LOSE].
Proof.
  apply (proj1 winner_won_more_than_lost 3 fresh3
               [(PAPER, ROCK); (ROCK, SCISSORS); (ROCK, PAPER)]
               {| rounds := 3; round := 3;
                  results := [Some WIN; Some WIN; Some LOSE];
                  they_win := true; game_over := true |});
    reflexivity.
Defined.

(** ** Lines that [int] accepts *)

Lemma skip_space_split (s : list N) :
  exists sp, s = (sp ++ Py.skip_space s)%list /\ forallb Py.ISSPACE sp = true.
Proof.
  induction s as [|c r IH]; [now exists []|].
  simpl. destruct (Py.ISSPACE c) eqn:Hc.
  - destruct IH as (sp & Heq & Hsp). exists (c :: sp). simpl.
    rewrite Hc, Hsp. now rewrite <- Heq.
  - now exists [].
Qed.

Lemma scan_digits_split (s : list N) : forall prev digits acc v d rest,
  Py.scan_digits prev digits acc s = Some (v, d, rest) ->
  exists body, s = (body ++ rest)%list /\ forallb literal_char body = true.
Proof.
  induction s as [|c r IH]; intros prev digits acc v d rest; simpl.
  - destruct prev; [discriminate|]. intros [= _ _ <-]. now exists [].
  - destruct (c =? 95)%N eqn:Hu.
    + destruct prev; [discriminate|]. intros H.
      apply IH in H as (body & -> & Hbody). exists (c :: body). simpl.
      unfold literal_char at 1. rewrite Hu, Hbody.
      now rewrite !orb_true_r.
    + destruct (Py.is_digit c) eqn:Hd.
      * intros H. apply IH in H as (body & -> & Hbody). exists (c :: body).
        simpl. unfold literal_char at 1. rewrite Hd, Hbody.
        now rewrite !orb_true_r.
      * destruct prev; [discriminate|]. intros [= _ _ <-]. now exists [].
Qed.

Lemma ISSPACE_literal (l : list N) :
  forallb Py.ISSPACE l = true -> forallb literal_char l = true.
Proof.
  induction l as [|c r IH]; [reflexivity|]. simpl.
  intros [Hc Hr]%andb_prop. rewrite (IH Hr). unfold literal_char. now rewrite Hc.
Qed.

Lemma int_N_literal (s : list N) (n : Z) :
  Py.int_N s = Py.IntValue n -> forallb literal_char s = true.
Proof.
  unfold Py.int_N.
  destruct (skip_space_split s) as (sp & Hs & Hsp).
  set (s1 := Py.skip_space s) in *. clearbody s1.
  assert (Hsign : forall neg s2,
    match s1 with
    | c :: r => if (c =? 43)%N then (false, r)
                else if (c =? 45)%N then (true, r) else (false, s1)
    | [] => (false, s1)
    end = (neg, s2) ->
    exists sg, s1 = (sg ++ s2)%list /\ forallb literal_char sg = true).
  { intros neg s2. destruct s1 as [|c r]; [intros [= _ <-]; now exists []|].
    destruct (c =? 43)%N eqn:Hp.
    - intros [= _ <-]. exists [c]. simpl. unfold literal_char.
      now rewrite Hp, !orb_true_r.
    - destruct (c =? 45)%N eqn:Hm.
      + intros [= _ <-]. exists [c]. simpl. unfold literal_char.
        now rewrite Hm, !orb_true_r.
      + intros [= _ <-]. now exists []. }
  destruct (match s1 with
            | c :: r => if (c =? 43)%N then (false, r)
                        else if (c =? 45)%N then (true, r) else (false, s1)
            | [] => (false, s1)
            end) as [neg s2] eqn:Hsg.
  destruct (Hsign neg s2 eq_refl) as (sg & Hs1 & Hsgl).
  destruct s2 as [|c r] eqn:Hs2; [discriminate|]. rewrite <- Hs2 in *.
  destruct (c =? 95)%N; [discriminate|].
  destruct (Py.scan_digits false 0 0 s2) as [[[v d] rest]|] eqn:Hscan;
    [|discriminate].
  destruct (Py.MAX_STR_DIGITS <? Z.of_nat d); [discriminate|].
  destruct d; [discriminate|].
  destruct (skip_space_split rest) as (sp' & Hrest & Hsp').
  destruct (Py.skip_space rest); [|discriminate]. intros _.
  apply scan_digits_split in Hscan as (body & Hbody & Hbl).
  rewrite Hs, Hs1, Hbody, Hrest, app_nil_r, !forallb_app.
  now rewrite (ISSPACE_literal _ Hsp), Hsgl, Hbl, (ISSPACE_literal _ Hsp').
Qed.

Lemma literal_char_ascii (c : N) : literal_char c = true -> (c <? 128)%N = true /\ c <> 113%N.
Proof.
  unfold literal_char, Py.ISSPACE, Py.is_digit, Py.in_range. intros H.
  rewrite !orb_true_iff, !andb_true_iff, !N.leb_le, !N.eqb_eq in H.
  split; [apply N.ltb_lt|]; lia.
Qed.

Lemma decode_N_ascii (s : list N) :
  forallb literal_char s = true -> Py.decode_N s = Some s.
Proof.
  induction s as [|c r IH]; [reflexivity|]. simpl.
  intros [Hc Hr]%andb_prop. destruct (literal_char_ascii c Hc) as [-> _].
  now rewrite (IH Hr).
Qed.

Lemma lstrip_incl (s : Py.str) (x : N) : In x (Py.lstrip s) -> In x s.
Proof.
  induction s as [|c r IH]; [auto|]. simpl.
  destruct (Py.isspace c); [right; auto|auto].
Qed.

Lemma strip_incl (s : Py.str) (x : N) : In x (Py.strip s) -> In x s.
Proof.
  unfold Py.strip. intros H. apply in_rev in H. apply lstrip_incl in H.
  apply in_rev in H. now apply lstrip_incl in H.
Qed.

(** A line that [int()] accepts is plain ASCII without the letter q:
    it decodes, and it is not the quit token. *)
Lemma int_literal (raw : Py.bytes) (n : Z) :
  Py.int raw = Return n -> forallb literal_char (map Byte.to_N raw) = true.
Proof.
  unfold Py.int. destruct (Py.int_N _) as [m| |d] eqn:Hscan; try discriminate.
  intros _. exact (int_N_literal _ m Hscan).
Qed.

Lemma literal_not_quit (s : list N) :
  forallb literal_char s = true ->
  Py.str_eqb (Py.strip s) (Py.literal "q") = false.
Proof.
  intros H. apply bool_decide_eq_false_2. intros Hq.
  assert (Hin : In 113%N (Py.strip s)) by (rewrite Hq; simpl; auto).
  apply strip_incl in Hin.
  rewrite forallb_forall in H. apply H in Hin.
  now destruct (literal_char_ascii _ Hin).
Qed.

Lemma int_line_decodes (raw : Py.bytes) (n : Z) :
  Py.int raw = Return n -> Py.decode raw <> None /\ is_quit raw = false.
Proof.
  intros H%int_literal. unfold is_quit, Py.decode.
  rewrite (decode_N_ascii _ H). split; [discriminate|].
  now apply literal_not_quit.
Qed.

Lemma parse_choice_decodes (raw : Py.bytes) (c : Choice) :
  parse_choice raw = Return c -> Py.decode raw <> None /\ is_quit raw = false.
Proof.
  unfold parse_choice. destruct (Py.int raw) as [n|] eqn:Hint; [|discriminate].
  intros _. exact (int_line_decodes raw n Hint).
Qed.

(** X6: a line that [int] reads as an integer, so every line that
    [Choice(int(raw_choice))] accepts, is made of ASCII characters, none
    of them the letter q: [decode] returns it character for character
    and the quit test of [one_round] fails on it.  The two checks made
    before the [try] never stand in the way of a choice. *)
Theorem accepted_line_passes_checks (raw : Py.bytes) (n : Z) :
  Py.int raw = Return n ->
  Py.decode raw = Some (map Byte.to_N raw)
  /\ Forall (fun b => (Byte.to_N b < 128)%N /\ b <> "q"%byte) raw
  /\ is_quit raw = false
  /\ forall c, parse_choice raw = Return c -> Choice_value c = n.
Proof.
  intros Hint. pose proof (int_literal raw n Hint) as Hlit.
  assert (Hdec : Py.decode raw = Some (map Byte.to_N raw))
    by (unfold Py.decode; now apply decode_N_ascii).
  split; [exact Hdec|]. split; [|split].
  - apply List.Forall_forall. intros b Hb.
    rewrite forallb_forall in Hlit.
    destruct (literal_char_ascii (Byte.to_N b)) as [Hlow Hq];
      [apply Hlit, in_map, Hb|].
    split; [now apply N.ltb_lt|]. intros ->. now destruct Hq.
  - unfold is_quit. rewrite Hdec. now apply literal_not_quit.
  - intros c. unfold parse_choice, Choice_of_value. rewrite Hint.
    destruct (n =? 0) eqn:H0; [apply Z.eqb_eq in H0; now intros [= <-]|].
    destruct (n =? 1) eqn:H1; [apply Z.eqb_eq in H1; now intros [= <-]|].
    destruct (n =? 2) eqn:H2; [apply Z.eqb_eq in H2; now intros [= <-]|].
    discriminate.
Qed.

Lemma accepted_line_passes_checks_witness :
  Py.decode [" "; "+"; "0"; "2"; x0d; x0a]%byte = Some [32; 43; 48; 50; 13; 10]%N
  /\ is_quit [" "; "+"; "0"; "2"; x0d; x0a]%byte = false.
Proof.
  destruct (accepted_line_passes_checks [" "; "+"; "0"; "2"; x0d; x0a]%byte 2)
    as (Hdec & _ & Hq & _); [reflexivity|].
  split; [exact Hdec|exact Hq].
Defined.

(** ** The loops as relations *)

Ltac run_world :=
  cbv beta iota zeta delta
      [loop_body attempt try_except bind lift raise ret pending game_throw
       writelines writeline write writer_write drain drain_raises drain_exn readline decode
       log moved round_report game trace nread ndrain ndraw].

Lemma choice_loop_unfold (fuel : nat) (env : Env) (w : World) :
  choice_loop (S fuel) env w
  = (do done <- loop_body ; if done : bool then ret tt else choice_loop fuel) env w.
Proof.
  destruct w as [g tr nr nd nw]. cbn [choice_loop]. run_world.
  destruct (drains env nd); [|reflexivity].
  destruct (reads env nr) as [raw| |msg|name]; try reflexivity.
  destruct (Py.decode raw) as [text|]; [|reflexivity].
  destruct (Py.str_eqb _ _); reflexivity.
Qed.

Lemma throw_raises (g g' : Roshambo) (theirs mine : Choice) (e : exn) :
  throw g theirs mine = (Raise e, g') ->
  g' = g /\ (e = GameOver \/ e = IndexError).
Proof.
  unfold throw. destruct (game_over g); [intros [= <- <-]; auto|].
  destruct (evaluate_total theirs mine) as [res ->].
  destruct (Py.setitem _ _ _); [discriminate|intros [= <- <-]; auto].
Qed.

Lemma loop_body_pass (env : Env) (w : World) :
  pass env w (fst (loop_body env w)) (snd (loop_body env w)).
Proof.
  destruct (drains env (ndrain w)) eqn:Hdrain.
  2:{ replace (loop_body env w)
        with (@Raised bool (drain_raises env (ndrain w)),
              moved w (game w) [EvWrite prompt; EvDrain] 0 1 0);
      [now apply pass_flush_fails|].
      destruct w as [g tr nr nd nw]; cbn [game trace nread ndrain ndraw] in *.
      run_world. now rewrite Hdrain, <- app_assoc. }
  destruct (reads env (nread w)) as [raw| |msg|name] eqn:Hread.
  2:{ replace (loop_body env w)
        with (@Raised bool ConnectionResetError,
              moved w (game w) [EvWrite prompt; EvDrain] 1 1 0);
      [now apply pass_reset|].
      destruct w as [g tr nr nd nw]; cbn [game trace nread ndrain ndraw] in *.
      run_world. now rewrite Hdrain, Hread, <- app_assoc. }
  2:{ replace (loop_body env w)
        with (@Raised bool (ValueError msg),
              moved w (game w) [EvWrite prompt; EvDrain] 1 1 0);
      [now apply pass_overrun|].
      destruct w as [g tr nr nd nw]; cbn [game trace nread ndrain ndraw] in *.
      run_world. now rewrite Hdrain, Hread, <- app_assoc. }
  2:{ replace (loop_body env w)
        with (@Raised bool (StreamError name),
              moved w (game w) [EvWrite prompt; EvDrain] 1 1 0);
      [now apply pass_read_error|].
      destruct w as [g tr nr nd nw]; cbn [game trace nread ndrain ndraw] in *.
      run_world. now rewrite Hdrain, Hread, <- app_assoc. }
  destruct (Py.decode raw) as [text|] eqn:Hdec.
  2:{ replace (loop_body env w)
        with (@Raised bool UnicodeDecodeError,
              moved w (game w) [EvWrite prompt; EvDrain; EvRead raw] 1 1 0);
      [now apply pass_undecodable|].
      destruct w as [g tr nr nd nw]; cbn [game trace nread ndrain ndraw] in *. run_world.
      now rewrite Hdrain, Hread, Hdec, <- !app_assoc. }
  assert (Hdec' : Py.decode raw <> None) by (rewrite Hdec; discriminate).
  destruct (is_quit raw) eqn:Hquit.
  { replace (loop_body env w)
      with (@Raised bool Quit,
            moved w (game w) [EvWrite prompt; EvDrain; EvRead raw] 1 1 0);
      [now apply pass_quit|].
    unfold is_quit in Hquit. rewrite Hdec in Hquit.
    destruct w as [g tr nr nd nw]; cbn [game trace nread ndrain ndraw] in *. run_world.
    now rewrite Hdrain, Hread, Hdec, Hquit, <- !app_assoc. }
  pose proof Hquit as Hq. unfold is_quit in Hq. rewrite Hdec in Hq.
  destruct (parse_choice raw) as [theirs|e] eqn:Hparse.
  - destruct (throw (game w) theirs (draws env (ndraw w))) as [[t|e] g'] eqn:Hthrow.
    + pose proof (throw_Return _ _ _ _ _ Hthrow) as (Hopen & res & rs & _ & _ & _ & ->).
      match goal with
      | |- pass _ _ (fst ?x) _ =>
        replace x with
          (if drains env (S (ndrain w)) then @Returned bool true
           else Raised (drain_raises env (S (ndrain w))),
           moved w g'
                 ([EvWrite prompt; EvDrain; EvRead raw; EvThrow (game w) theirs]
                  ++ round_report theirs (draws env (ndraw w)) res)
                 1 2 1)
      end; [eapply pass_played; eauto|].
      destruct w as [g tr nr nd nw]; cbn [game trace nread ndrain ndraw] in *. run_world.
      rewrite Hdrain, Hread, Hdec, Hq, Hparse, Hthrow. run_world.
      rewrite encode_chose, encode_computer, encode_sentence.
      rewrite <- !app_assoc. cbn [app]. rewrite Hopen.
      destruct (drains env (S nd)); [reflexivity|].
      now destruct (drain_failures env (S nd)).
    + destruct (throw_raises _ _ _ _ _ Hthrow) as [-> He].
      replace (loop_body env w)
        with (@Raised bool e,
              moved w (game w)
                    [EvWrite prompt; EvDrain; EvRead raw; EvThrow (game w) theirs]
                    1 1 (if game_over (game w) then 0 else 1)%nat);
        [now apply pass_throw_raises with (theirs := theirs)|].
      destruct w as [g tr nr nd nw]; cbn [game trace nread ndrain ndraw] in *. run_world.
      rewrite Hdrain, Hread, Hdec, Hq, Hparse, Hthrow. run_world.
      rewrite <- !app_assoc. cbn [app].
      destruct He as [-> | ->]; now destruct (game_over g).
  - destruct (parse_choice_raises raw e Hparse) as [err ->].
    match goal with
    | |- pass _ _ (fst ?x) _ =>
      replace x with
        (if drains env (S (ndrain w)) then @Returned bool false
         else Raised (drain_raises env (S (ndrain w))),
         moved w (game w)
               [EvWrite prompt; EvDrain; EvRead raw;
                EvWrite ("Invalid choice: " ++ err); EvWrite eol; EvDrain]
               1 2 0)
    end; [eapply pass_invalid; eauto|].
    destruct w as [g tr nr nd nw]; cbn [game trace nread ndrain ndraw] in *. run_world.
    rewrite Hdrain, Hread, Hdec, Hq, Hparse. run_world.
    rewrite (encode_invalid raw err Hparse), <- !app_assoc. cbn [app].
    destruct (drains env (S nd)); [reflexivity|].
    now destruct (drain_failures env (S nd)).
Qed.

Lemma pass_not_pending (env : Env) (w w' : World) (r : status bool) :
  pass env w r w' -> r <> Pending.
Proof.
  intros []; try discriminate;
    match goal with |- context [if ?c then _ else _] => destruct c end;
    discriminate.
Qed.

Lemma choice_loop_passes (fuel : nat) : forall env w,
  passes env w (fst (choice_loop fuel env w)) (snd (choice_loop fuel env w)).
Proof.
  induction fuel as [|fuel IH]; intros env w; [apply passes_pending|].
  rewrite choice_loop_unfold. unfold bind.
  pose proof (loop_body_pass env w) as Hpass.
  destruct (loop_body env w) as [[[|]|e|] w1]; cbn [fst snd] in *.
  - now apply passes_break.
  - eapply passes_again; [exact Hpass|apply IH].
  - now apply passes_raise.
  - now destruct (pass_not_pending _ _ _ _ Hpass).
Qed.

Lemma play_loop_playing (fuel : nat) : forall env w,
  playing env w (fst (play_loop fuel env w)) (snd (play_loop fuel env w)).
Proof.
  induction fuel as [|fuel IH]; intros env w; cbn [play_loop];
    destruct (game_over (game w)) eqn:Hover;
    try (now apply playing_over); try (now apply playing_pending).
  unfold bind. rewrite one_round_unfold.
  destruct (drains env (ndrain w)) eqn:Hdrain;
    [|now apply playing_banner_fails].
  pose proof (choice_loop_passes fuel env (moved w (game w) banner 0 1 0)) as Hp.
  change {| game := game w; trace := trace w ++ banner; nread := nread w;
            ndrain := S (ndrain w); ndraw := ndraw w |}
    with (moved w (game w) banner 0 1 0).
  destruct (choice_loop fuel env _) as [[[]|e|] w1]; cbn [fst snd] in *.
  - eapply playing_next; eauto.
  - eapply playing_stop; eauto; discriminate.
  - eapply playing_stop; eauto; discriminate.
Qed.

Lemma client_playing (fuel : nat) (env : Env) :
  exists r1 w1,
    playing env (new_world fresh3) r1 w1
    /\ roshambo_client fuel env
       = Served (fst (conclude env r1 w1)) (snd (conclude env r1 w1)).
Proof.
  pose proof (play_loop_playing fuel env (new_world fresh3)) as Hrounds.
  unfold roshambo_client. cbn [Roshambo_init Z.modulo Z.eqb].
  change (Roshambo_init 3) with (Return fresh3). cbv beta iota.
  unfold closing, session, final_message, try_except, bind.
  destruct (play_loop fuel env (new_world fresh3)) as [r1 w1].
  exists r1, w1. split; [exact Hrounds|].
  destruct w1 as [g tr nr nd nw].
  destruct r1 as [[]|[]|];
    cbv beta iota zeta delta
        [conclude verdict moved ret write writer_write drain log
         game trace nread ndrain ndraw fst snd Nat.add];
    try (destruct (drains env nd));
    try (destruct (they_win g));
    rewrite <- ?app_assoc; reflexivity.
Qed.

(** ** One round *)

Lemma pass_valid (n : Z) (env : Env) (w w' : World) (r : status bool)
      (raw : Py.bytes) (theirs : Choice) :
  pass env w r w' ->
  in_play n (game w) -> game_over (game w) = false ->
  drains env (ndrain w) = true ->
  reads env (nread w) = Line raw ->
  parse_choice raw = Return theirs ->
  exists res g',
    throw (game w) theirs (draws env (ndraw w))
    = (Return (theirs, draws env (ndraw w), res, they_win g'), g')
    /\ evaluate theirs (draws env (ndraw w)) = Return res
    /\ round g' = round (game w) + 1
    /\ in_play n g'
    /\ r = (if drains env (S (ndrain w)) then Returned true
            else Raised (drain_raises env (S (ndrain w))))
    /\ w' = moved w g'
                  ([EvWrite prompt; EvDrain; EvRead raw; EvThrow (game w) theirs]
                   ++ round_report theirs (draws env (ndraw w)) res)
                  1 2 1.
Proof.
  intros Hpass Hplay Hopen Hdrain Hread Hparse.
  destruct (throw_in_play n (game w) theirs (draws env (ndraw w)) Hplay
                          (in_play_open n _ Hplay Hopen))
    as (res & g' & Hthrow & Heval & Hround & Hplay').
  exists res, g'. repeat (split; [assumption|]).
  destruct Hpass as [Hd|_ Hr|msg _ Hr|name _ Hr|raw' _ Hr Hdec|raw' _ Hr Hq
                     |raw' err _ Hr _ _ Hp
                     |raw' theirs' res' flag g2 _ Hr _ _ Hp Ht
                     |raw' theirs' e _ Hr _ _ Hp Ht _];
    try congruence;
    rewrite Hread in Hr; injection Hr as <-.
  - destruct (parse_choice_decodes raw theirs Hparse); congruence.
  - destruct (parse_choice_decodes raw theirs Hparse); congruence.
  - rewrite Hparse in Hp. injection Hp as <-.
    rewrite Hthrow in Ht. injection Ht as <- <- <-. auto.
Qed.

(** X8: on a game in play, over a connection that takes the next two
    flushes, a line that reads as a choice makes the loop of
    [one_round] play exactly one round: one line read, one draw, one
    call of [throw] that moves the counter by one, the report with the
    names of both choices and the sentence for the outcome, a flush,
    and the loop is left. *)
Theorem valid_line_plays_round (n : Z) (fuel : nat) (env : Env) (w : World)
        (raw : Py.bytes) (theirs : Choice) :
  in_play n (game w) -> game_over (game w) = false ->
  drains env (ndrain w) = true ->
  drains env (S (ndrain w)) = true ->
  reads env (nread w) = Line raw ->
  parse_choice raw = Return theirs ->
  exists res g',
    evaluate theirs (draws env (ndraw w)) = Return res
    /\ throw (game w) theirs (draws env (ndraw w))
       = (Return (theirs, draws env (ndraw w), res, they_win g'), g')
    /\ round g' = round (game w) + 1
    /\ choice_loop (S fuel) env w
       = (Returned tt,
          moved w g'
                ([EvWrite prompt; EvDrain; EvRead raw; EvThrow (game w) theirs;
                  EvWrite ("You chose: " ++ Choice_name theirs); EvWrite eol;
                  EvWrite ("Computer chose: "
                           ++ Choice_name (draws env (ndraw w))); EvWrite eol;
                  EvWrite (round_sentence res); EvWrite eol; EvDrain])
                1 2 1).
Proof.
  intros Hplay Hopen Hdrain Hdrain' Hread Hparse.
  destruct (pass_valid n env w _ _ raw theirs (loop_body_pass env w)
                       Hplay Hopen Hdrain Hread Hparse)
    as (res & g' & Hthrow & Heval & Hround & _ & Hr & Hw).
  exists res, g'. repeat (split; [assumption|]).
  rewrite choice_loop_unfold. unfold bind.
  destruct (loop_body env w) as [r w']. cbn [fst snd] in Hr, Hw.
  rewrite Hr, Hw, Hdrain'. reflexivity.
Qed.

Lemma valid_line_plays_round_witness :
  exists res g',
    evaluate PAPER ROCK = Return res
    /\ throw fresh3 PAPER ROCK = (Return (PAPER, ROCK, res, they_win g'), g')
    /\ round g' = 0 + 1
    /\ choice_loop 1 (scripted [["1"; x0d; x0a]%byte] [ROCK]) (new_world fresh3)
       = (Returned tt,
          moved (new_world fresh3) g'
                ([EvWrite prompt; EvDrain; EvRead ["1"; x0d; x0a]%byte;
                  EvThrow fresh3 PAPER;
                  EvWrite ("You chose: " ++ Choice_name PAPER); EvWrite eol;
                  EvWrite ("Computer chose: " ++ Choice_name ROCK); EvWrite eol;
                  EvWrite (round_sentence res); EvWrite eol; EvDrain])
                1 2 1).
Proof.
  apply (valid_line_plays_round 3 0%nat
           (scripted [["1"; x0d; x0a]%byte] [ROCK]) (new_world fresh3)
           ["1"; x0d; x0a]%byte PAPER); try reflexivity.
  split; simpl; try reflexivity; lia.
Defined.

(** ** A whole match *)

Lemma client_conclude (fuel : nat) (env : Env) :
  roshambo_client fuel env
  = Served
      (fst (conclude env (fst (play_loop fuel env (new_world fresh3)))
                     (snd (play_loop fuel env (new_world fresh3)))))
      (snd (conclude env (fst (play_loop fuel env (new_world fresh3)))
                     (snd (play_loop fuel env (new_world fresh3))))).
Proof.
  unfold roshambo_client. change (Roshambo_init 3) with (Return fresh3).
  cbv beta iota.
  unfold closing, session, final_message, try_except, bind.
  destruct (play_loop fuel env (new_world fresh3)) as [r1 w1].
  destruct w1 as [g tr nr nd nw].
  destruct r1 as [[]|[]|];
    cbv beta iota zeta delta
        [conclude verdict moved ret write writer_write drain log
         game trace nread ndrain ndraw fst snd Nat.add];
    try (destruct (drains env nd));
    try (destruct (they_win g));
    rewrite <- ?app_assoc; reflexivity.
Qed.

(** A round in which the first line read is a valid choice, over a
    connection that stays up. *)
Lemma one_round_valid (n : Z) (fuel : nat) (env : Env) (w : World)
      (raw : Py.bytes) (theirs : Choice) :
  (forall k, drains env k = true) ->
  in_play n (game w) -> game_over (game w) = false ->
  reads env (nread w) = Line raw ->
  parse_choice raw = Return theirs ->
  exists t g' evs,
    throw (game w) theirs (draws env (ndraw w)) = (Return t, g')
    /\ in_play n g'
    /\ round g' = round (game w) + 1
    /\ one_round (S fuel) env w = (Returned tt, moved w g' evs 1 3 1).
Proof.
  intros Hup Hplay Hopen Hread Hparse.
  rewrite one_round_unfold, Hup.
  change {| game := game w; trace := trace w ++ banner; nread := nread w;
            ndrain := S (ndrain w); ndraw := ndraw w |}
    with (moved w (game w) banner 0 1 0).
  destruct (pass_valid n env (moved w (game w) banner 0 1 0) _ _ raw theirs
                       (loop_body_pass env _) Hplay Hopen (Hup _) Hread Hparse)
    as (res & g' & Hthrow & _ & Hround & Hplay' & Hr & Hw).
  rewrite Hup in Hr. cbn [moved game ndraw] in Hthrow, Hround.
  eexists _, g', _. split; [exact Hthrow|]. split; [exact Hplay'|].
  split; [exact Hround|].
  rewrite choice_loop_unfold. unfold bind.
  destruct (loop_body env _) as [r w']. cbn [fst snd] in Hr, Hw. rewrite Hr, Hw.
  unfold ret, moved. cbn [game trace nread ndrain ndraw Nat.add].
  rewrite <- app_assoc. reflexivity.
Qed.

Lemma play_loop_next (fuel : nat) (env : Env) (w w1 : World) :
  game_over (game w) = false ->
  one_round fuel env w = (Returned tt, w1) ->
  play_loop (S fuel) env w = play_loop fuel env w1.
Proof.
  intros Hopen Hround. cbn [play_loop]. rewrite Hopen. unfold bind.
  now rewrite Hround.
Qed.

Lemma play_loop_done (fuel : nat) (env : Env) (w : World) :
  game_over (game w) = true -> play_loop fuel env w = (Returned tt, w).
Proof. intros Hover. destruct fuel; cbn [play_loop]; now rewrite Hover. Qed.

(** X10: three lines that read as choices, over a connection that stays
    up, play the whole match: the handler returns, the game is the one
    reached by playing the three choices against the first three draws,
    three lines have been read and three draws consumed, and the last
    things done are the verdict, its line end, a flush and the close. *)
Theorem three_answers_finish_match (env : Env) (fuel : nat)
        (raw0 raw1 raw2 : Py.bytes) (c0 c1 c2 : Choice) :
  (forall k, drains env k = true) ->
  reads env 0 = Line raw0 -> parse_choice raw0 = Return c0 ->
  reads env 1 = Line raw1 -> parse_choice raw1 = Return c1 ->
  reads env 2 = Line raw2 -> parse_choice raw2 = Return c2 ->
  (4 <= fuel)%nat ->
  exists w before,
    roshambo_client fuel env = Served (Returned tt) w
    /\ play fresh3 [(c0, draws env 0); (c1, draws env 1); (c2, draws env 2)]
       = Return (game w)
    /\ game_over (game w) = true
    /\ nread w = 3%nat /\ ndraw w = 3%nat
    /\ trace w = (before ++ [EvWrite (verdict (game w)); EvWrite eol;
                             EvDrain; EvClose])%list.
Proof.
  intros Hup Hr0 Hp0 Hr1 Hp1 Hr2 Hp2 Hfuel.
  destruct fuel as [|[|[|[|fuel]]]]; try lia.
  assert (H0 : in_play 3 (game (new_world fresh3)))
    by (split; simpl; try reflexivity; lia).
  destruct (one_round_valid 3 (S (S fuel)) env (new_world fresh3) raw0 c0
                            Hup H0 eq_refl Hr0 Hp0)
    as (t0 & g1 & evs0 & Ht0 & Hplay1 & Hround1 & Hrun0).
  set (w1 := moved (new_world fresh3) g1 evs0 1 3 1) in *.
  assert (Hopen1 : game_over (game w1) = false).
  { destruct Hplay1 as [_ _ _ Hover]. cbn [w1 moved game].
    rewrite Hover. cbn [new_world game fresh3 round] in Hround1. apply Z.leb_gt. lia. }
  destruct (one_round_valid 3 (S fuel) env w1 raw1 c1 Hup Hplay1 Hopen1 Hr1 Hp1)
    as (t1 & g2 & evs1 & Ht1 & Hplay2 & Hround2 & Hrun1).
  set (w2 := moved w1 g2 evs1 1 3 1) in *.
  cbn [w1 moved game ndraw new_world Nat.add] in Ht1, Hround2.
  assert (Hopen2 : game_over (game w2) = false).
  { destruct Hplay2 as [_ _ _ Hover]. cbn [w2 moved game].
    rewrite Hover. cbn [new_world game fresh3 round] in Hround1. apply Z.leb_gt. lia. }
  destruct (one_round_valid 3 fuel env w2 raw2 c2 Hup Hplay2 Hopen2 Hr2 Hp2)
    as (t2 & g3 & evs2 & Ht2 & Hplay3 & Hround3 & Hrun2).
  set (w3 := moved w2 g3 evs2 1 3 1) in *.
  cbn [w2 w1 moved game ndraw new_world Nat.add] in Ht2, Hround3.
  assert (Hover3 : game_over (game w3) = true).
  { destruct Hplay3 as [_ _ _ Hover]. cbn [w3 moved game].
    rewrite Hover. cbn [new_world game fresh3 round] in Hround1. apply Z.leb_le. lia. }
  assert (Hloop : play_loop (S (S (S (S fuel)))) env (new_world fresh3)
                  = (Returned tt, w3)).
  { rewrite (play_loop_next _ env (new_world fresh3) w1 eq_refl Hrun0).
    rewrite (play_loop_next _ env _ w2 Hopen1 Hrun1).
    rewrite (play_loop_next _ env _ w3 Hopen2 Hrun2).
    now apply play_loop_done. }
  rewrite client_conclude, Hloop. cbn [fst snd conclude]. rewrite Hup.
  eexists _, (trace w3). split; [reflexivity|]. cbn [moved game nread ndraw trace].
  split; [|split; [exact Hover3|split; [reflexivity|split; reflexivity]]].
  cbn [new_world game ndraw] in Ht0. cbn [play]. rewrite Ht0, Ht1, Ht2. reflexivity.
Qed.

Lemma three_answers_finish_match_witness :
  exists w before,
    roshambo_client 4 (scripted [["1"; x0a]; ["0"; x0a]; ["2"; x0a]]%byte
                                [ROCK; SCISSORS; ROCK])
    = Served (Returned tt) w
    /\ play fresh3 [(PAPER, ROCK); (ROCK, SCISSORS); (SCISSORS, ROCK)]
       = Return (game w)
    /\ game_over (game w) = true
    /\ nread w = 3%nat /\ ndraw w = 3%nat
    /\ trace w = (before ++ [EvWrite (verdict (game w)); EvWrite eol;
                             EvDrain; EvClose])%list.
Proof.
  apply (three_answers_finish_match
           (scripted [["1"; x0a]; ["0"; x0a]; ["2"; x0a]]%byte
                     [ROCK; SCISSORS; ROCK])
           4 ["1"; x0a]%byte ["0"; x0a]%byte ["2"; x0a]%byte
           PAPER ROCK SCISSORS); try reflexivity; lia.
Defined.

(** ** What is read *)

Lemma reading_events {A : Type} (env : Env) (w w' : World) (r : status A)
      (evs : list event) :
  trace w' = (trace w ++ evs)%list -> nread w' = nread w ->
  lines_read evs = [] -> reading env w r w'.
Proof.
  intros Htr Hn Hl. exists evs, 0%nat.
  split; [exact Htr|]. split; [exact Hn|]. split; [exact Hl|].
  intros j e Hj. lia.
Qed.

Lemma lines_sent_app (env : Env) (from k1 k2 : nat) :
  lines_sent env from (k1 + k2)
  = (lines_sent env from k1 ++ lines_sent env (k1 + from) k2)%list.
Proof.
  unfold lines_sent. rewrite seq_app, omap_app. now rewrite (Nat.add_comm from k1).
Qed.

Lemma reading_trans {A B : Type} (env : Env) (w w1 w' : World)
      (r1 : status A) (r : status B) :
  reading env w r1 w1 -> (forall e, r1 <> Raised e) ->
  reading env w1 r w' -> reading env w r w'.
Proof.
  intros (evs1 & k1 & Htr1 & Hn1 & Hl1 & Hs1) Hr1 (evs2 & k2 & Htr2 & Hn2 & Hl2 & Hs2).
  exists (evs1 ++ evs2)%list, (k1 + k2)%nat.
  split; [now rewrite Htr2, Htr1, app_assoc|]. split; [lia|].
  split; [unfold lines_read in *; rewrite omap_app, Hl1, Hl2, lines_sent_app, Hn1;
          reflexivity|].
  intros j e Hj Hstop. destruct (Nat.lt_ge_cases j k1) as [Hlt|Hge].
  - destruct (Hs1 j e Hlt Hstop) as (_ & Hr & _). now destruct (Hr1 e).
  - replace (j + nread w)%nat with ((j - k1) + nread w1)%nat in * by lia.
    destruct (Hs2 (j - k1)%nat e) as (Hlast & Hr & evs0 & Hevs); [lia|exact Hstop|].
    split; [lia|]. split; [exact Hr|].
    exists (evs1 ++ evs0)%list. now rewrite Hevs, app_assoc.
Qed.

Lemma is_quit_decodes (raw : Py.bytes) : is_quit raw = true -> Py.decode raw <> None.
Proof. unfold is_quit. destruct (Py.decode raw); [discriminate|discriminate]. Qed.

Lemma pass_reading (env : Env) (w w' : World) (r : status bool) :
  pass env w r w' -> reading env w r w'.
Proof.
  assert (Hone : forall (r0 : status bool) (x : read_event) evs g d c,
    reads env (nread w) = x ->
    lines_read evs = match x with Line raw => [raw] | _ => [] end ->
    (forall e, stopper x = Some e ->
               r0 = Raised e /\ exists evs0, evs = (evs0 ++ read_tail x)%list) ->
    reading env w r0 (moved w g evs 1 d c)).
  { intros r0 x evs g d c Hx Hl Hstop. exists evs, 1%nat.
    split; [reflexivity|]. split; [reflexivity|].
    split; [rewrite Hl; unfold lines_sent; cbn; rewrite Hx; now destruct x|].
    intros j e Hj. replace j with 0%nat by lia. cbn [Nat.add]. rewrite Hx.
    intros He. destruct (Hstop e He) as [Hr Hevs]. auto. }
  intros [Hd|Hd Hr|msg Hd Hr|name Hd Hr|raw Hd Hr Hdec|raw Hd Hr Hq
         |raw err Hd Hr Hdec Hq Hp
         |raw theirs res flag g' Hd Hr Hdec Hq Hp Ht
         |raw theirs e Hd Hr Hdec Hq Hp Ht He].
  - apply reading_events with (evs := [EvWrite prompt; EvDrain]); reflexivity.
  - apply (Hone _ Reset); [exact Hr|reflexivity|].
    intros e [= <-]. split; [reflexivity|now exists []].
  - apply (Hone _ (Overrun msg)); [exact Hr|reflexivity|].
    intros e [= <-]. split; [reflexivity|now exists []].
  - apply (Hone _ (ReadError name)); [exact Hr|reflexivity|].
    intros e [= <-]. split; [reflexivity|now exists []].
  - apply (Hone _ (Line raw)); [exact Hr|reflexivity|].
    intros e. cbn [stopper]. rewrite Hdec. intros [= <-].
    split; [reflexivity|now exists []].
  - apply (Hone _ (Line raw)); [exact Hr|reflexivity|].
    intros e. cbn [stopper]. rewrite Hq.
    destruct (Py.decode raw) eqn:Hdec; [|now destruct (is_quit_decodes raw Hq)].
    intros [= <-]. split; [reflexivity|now exists []].
  - apply (Hone _ (Line raw)); [exact Hr|reflexivity|].
    intros e. cbn [stopper]. rewrite Hq. destruct (Py.decode raw); [discriminate|congruence].
  - apply (Hone _ (Line raw)); [exact Hr|reflexivity|].
    intros e. cbn [stopper]. rewrite Hq. destruct (Py.decode raw); [discriminate|congruence].
  - apply (Hone _ (Line raw)); [exact Hr|reflexivity|].
    intros e'. cbn [stopper]. rewrite Hq. destruct (Py.decode raw); [discriminate|congruence].
Qed.

Lemma passes_reading (env : Env) (w w' : World) (r : status unit) :
  passes env w r w' -> reading env w r w'.
Proof.
  induction 1 as [w|w w' Hp|w w' e Hp|w w1 w' r Hp _ IH].
  - apply reading_events with (evs := []); auto. now rewrite app_nil_r.
  - apply pass_reading in Hp. destruct Hp as (evs & k & Htr & Hn & Hl & Hs).
    exists evs, k. repeat (split; [assumption|]).
    intros j e Hj He. destruct (Hs j e Hj He) as (_ & [=] & _).
  - apply pass_reading in Hp. destruct Hp as (evs & k & Htr & Hn & Hl & Hs).
    exists evs, k. repeat (split; [assumption|]).
    intros j e' Hj He. destruct (Hs j e' Hj He) as (Hk & [= <-] & Hevs). auto.
  - eapply reading_trans; [exact (pass_reading _ _ _ _ Hp)|discriminate|exact IH].
Qed.

Lemma banner_reading (env : Env) (w : World) (r : status unit) :
  reading env w r (moved w (game w) banner 0 1 0).
Proof. apply reading_events with (evs := banner); reflexivity. Qed.

Lemma playing_reading (env : Env) (w w' : World) (r : status unit) :
  playing env w r w' -> reading env w r w'.
Proof.
  induction 1 as [w Hover|w Hopen|w Hopen Hd|w w' r Hopen Hd Hp Hr
                 |w w1 w' r Hopen Hd Hp _ IH].
  - apply reading_events with (evs := []); auto. now rewrite app_nil_r.
  - apply reading_events with (evs := []); auto. now rewrite app_nil_r.
  - apply banner_reading.
  - eapply reading_trans; [apply (banner_reading env w (Returned tt))|discriminate|].
    now apply passes_reading.
  - eapply reading_trans; [apply (banner_reading env w (Returned tt))|discriminate|].
    eapply reading_trans; [exact (passes_reading _ _ _ _ Hp)|discriminate|exact IH].
Qed.

Lemma lines_sent_In (env : Env) (raw : Py.bytes) (from k : nat) :
  In raw (lines_sent env from k) ->
  exists j, (j < k)%nat /\ reads env (j + from) = Line raw.
Proof.
  unfold lines_sent. intros Hin. apply list_elem_of_In in Hin.
  apply list_elem_of_omap in Hin as (i & Hi & Hraw).
  apply list_elem_of_In, in_seq in Hi.
  exists (i - from)%nat. split; [lia|].
  replace (i - from + from)%nat with i by lia.
  destruct (reads env i); congruence.
Qed.

Lemma lines_read_In (evs : list event) (raw : Py.bytes) :
  In (EvRead raw) evs -> In raw (lines_read evs).
Proof.
  intros Hin. apply list_elem_of_In. apply list_elem_of_omap.
  exists (EvRead raw). split; [now apply list_elem_of_In|reflexivity].
Qed.

(** The run of a session: the rounds, then the conclusion. *)
Lemma client_reading (fuel : nat) (env : Env) :
  exists r1 w1,
    playing env (new_world fresh3) r1 w1
    /\ reading env (new_world fresh3) r1 w1
    /\ roshambo_client fuel env
       = Served (fst (conclude env r1 w1)) (snd (conclude env r1 w1)).
Proof.
  destruct (client_playing fuel env) as (r1 & w1 & Hrounds & Hrun).
  exists r1, w1. split; [exact Hrounds|]. split; [|exact Hrun].
  now apply playing_reading.
Qed.

Lemma conclude_trace (env : Env) (r : status unit) (w : World) :
  exists tail,
    trace (snd (conclude env r w)) = (trace w ++ tail)%list
    /\ lines_read tail = []
    /\ nread (snd (conclude env r w)) = nread w.
Proof.
  destruct r as [[]|[]|]; cbn [conclude snd moved trace nread];
    try (eexists; split; [reflexivity|split; reflexivity]).
  exists []. now rewrite app_nil_r.
Qed.

Lemma client_lines (fuel : nat) (env : Env) (r : status unit) (w : World) :
  roshambo_client fuel env = Served r w ->
  lines_read (trace w) = lines_sent env 0 (nread w).
Proof.
  intros Hrun0.
  destruct (client_reading fuel env)
    as (r1 & w1 & _ & (evs & k & Htr & Hn & Hl & _) & Hrun).
  rewrite Hrun0 in Hrun. injection Hrun as -> ->.
  destruct (conclude_trace env r1 w1) as (tail & Htail & Hnone & Hnread).
  rewrite Htail, Hnread, Htr, Hn. cbn [new_world trace nread app].
  unfold lines_read in *. rewrite omap_app, Hnone, app_nil_r, Hl.
  cbn [new_world nread]. now rewrite Nat.add_0_r.
Qed.

(** What a call of [readline] that stops the loops leaves behind. *)
Lemma client_stopped (fuel : nat) (env : Env) (r : status unit) (w : World)
      (j : nat) (e : exn) :
  roshambo_client fuel env = Served r w ->
  (j < nread w)%nat -> stopper (reads env j) = Some e ->
  nread w = S j
  /\ exists w1 evs0,
      trace w1 = (evs0 ++ read_tail (reads env j))%list
      /\ (r, w) = conclude env (Raised e) w1.
Proof.
  intros Hrun Hj Hstop.
  destruct (client_reading fuel env)
    as (r1 & w1 & _ & (evs & k & Htr & Hn & _ & Hs) & Hrun').
  rewrite Hrun in Hrun'. injection Hrun' as Hr Hw.
  destruct (conclude_trace env r1 w1) as (tail & _ & _ & Hnread).
  rewrite <- Hw in Hnread. cbn [new_world nread trace app] in *.
  rewrite Nat.add_0_r in Hn.
  destruct (Hs j e) as (Hk & Hr1 & evs0 & Hevs);
    [lia|now rewrite Nat.add_0_r|].
  rewrite Nat.add_0_r in Hevs. split; [lia|].
  exists w1, evs0. split; [now rewrite Htr, Hevs|].
  rewrite Hr, Hw, <- Hr1. now destruct (conclude env r1 w1).
Qed.

(** X12: a line that is not valid UTF-8 ends the session at once and
    silently: it is the last line read, nothing is written after it (no
    error line, no farewell), the writer is closed and the handler
    returns normally. *)
Theorem undecodable_line_closes_quietly
        (fuel : nat) (env : Env) (r : status unit) (w : World) (raw : Py.bytes) :
  roshambo_client fuel env = Served r w ->
  In (EvRead raw) (trace w) ->
  Py.decode raw = None ->
  r = Returned tt
  /\ exists before,
      trace w = (before ++ [EvWrite prompt; EvDrain; EvRead raw; EvClose])%list.
Proof.
  intros Hrun Hin Hdec.
  pose proof (client_lines fuel env r w Hrun) as Hlines.
  apply lines_read_In in Hin. rewrite Hlines in Hin.
  apply lines_sent_In in Hin as (j & Hj & Hread). rewrite Nat.add_0_r in Hread.
  destruct (client_stopped fuel env r w j UnicodeDecodeError Hrun Hj)
    as (_ & w1 & evs0 & Htr & Hend).
  { rewrite Hread. cbn [stopper]. now rewrite Hdec. }
  cbn [conclude] in Hend. injection Hend as -> ->.
  split; [reflexivity|]. exists evs0. cbn [moved trace].
  rewrite Htr, Hread. cbn [read_tail]. now rewrite <- app_assoc.
Qed.

Lemma undecodable_line_closes_quietly_witness :
  exists r w before,
    roshambo_client 2 (scripted [[xff]%byte] []) = Served r w
    /\ r = Returned tt
    /\ trace w = (before ++ [EvWrite prompt; EvDrain; EvRead [xff]%byte; EvClose])%list.
Proof.
  destruct (roshambo_client 2 (scripted [[xff]%byte] []))
    as [e|r w] eqn:Hrun; [vm_compute in Hrun; discriminate Hrun|].
  destruct (undecodable_line_closes_quietly 2 (scripted [[xff]%byte] []) r w
                                            [xff]%byte Hrun)
    as (Hr & before & Htr).
  - vm_compute in Hrun. injection Hrun as <- <-. simpl. tauto.
  - reflexivity.
  - exists r, w, before. auto.
Defined.

(** X13: when a call of [readline] finds the connection reset, it is
    the last call: the handler writes nothing after the prompt, closes
    the writer and returns normally. *)
Theorem reset_on_read_closes_quietly
        (fuel : nat) (env : Env) (r : status unit) (w : World) (k : nat) :
  roshambo_client fuel env = Served r w ->
  (k < nread w)%nat ->
  reads env k = Reset ->
  r = Returned tt
  /\ nread w = S k
  /\ exists before,
      trace w = (before ++ [EvWrite prompt; EvDrain; EvClose])%list.
Proof.
  intros Hrun Hk Hread.
  destruct (client_stopped fuel env r w k ConnectionResetError Hrun Hk)
    as (Hn & w1 & evs0 & Htr & Hend).
  { now rewrite Hread. }
  cbn [conclude] in Hend. injection Hend as -> ->.
  split; [reflexivity|]. split; [exact Hn|]. exists evs0. cbn [moved trace].
  rewrite Htr, Hread. cbn [read_tail]. now rewrite <- app_assoc.
Qed.

Lemma reset_on_read_closes_quietly_witness :
  exists r w before,
    roshambo_client 3 (resetting [["1"; x0a]%byte] [ROCK]) = Served r w
    /\ r = Returned tt
    /\ nread w = 2%nat
    /\ trace w = (before ++ [EvWrite prompt; EvDrain; EvClose])%list.
Proof.
  destruct (roshambo_client 3 (resetting [["1"; x0a]%byte] [ROCK]))
    as [e|r w] eqn:Hrun; [vm_compute in Hrun; discriminate Hrun|].
  destruct (reset_on_read_closes_quietly 3 (resetting [["1"; x0a]%byte] [ROCK])
                                         r w 1 Hrun)
    as (Hr & Hn & before & Htr).
  - vm_compute in Hrun. injection Hrun as <- <-. simpl. lia.
  - reflexivity.
  - exists r, w, before. auto.
Defined.

(** ** What is played *)

Lemma replays_events (env : Env) (w w' : World) (evs : list event) :
  trace w' = (trace w ++ evs)%list -> thrown evs = [] ->
  ndraw w' = ndraw w -> game w' = game w -> replays env w w'.
Proof.
  intros Htr Hth Hn Hg. exists evs. rewrite Hth, Hg. cbn. auto.
Qed.

Lemma replays_refl (env : Env) (w : World) : replays env w w.
Proof. apply replays_events with (evs := []); auto. now rewrite app_nil_r. Qed.

Lemma drawn_app (env : Env) (from k1 k2 : nat) :
  drawn env from (k1 + k2)
  = (drawn env from k1 ++ drawn env (k1 + from) k2)%list.
Proof.
  unfold drawn. rewrite seq_app, map_app. now rewrite (Nat.add_comm from k1).
Qed.

Lemma replays_trans (env : Env) (w w1 w' : World) :
  replays env w w1 -> replays env w1 w' -> replays env w w'.
Proof.
  intros (evs1 & Htr1 & Hn1 & Hp1) (evs2 & Htr2 & Hn2 & Hp2).
  exists (evs1 ++ evs2)%list.
  split; [now rewrite Htr2, Htr1, app_assoc|].
  unfold thrown in *. rewrite omap_app, length_app.
  split; [lia|].
  rewrite drawn_app, zip_with_app by (unfold drawn; now rewrite length_map, length_seq).
  rewrite play_app, Hp1, <- Hn1. exact Hp2.
Qed.

Lemma pass_replays (n : Z) (env : Env) (w w' : World) (r : status bool) :
  pass env w r w' -> in_play n (game w) -> game_over (game w) = false ->
  replays env w w' /\ in_play n (game w')
  /\ (r = Returned false -> game w' = game w).
Proof.
  intros [Hd|Hd Hr|msg Hd Hr|name Hd Hr|raw Hd Hr Hdec|raw Hd Hr Hq
         |raw err Hd Hr Hdec Hq Hp
         |raw theirs res flag g' Hd Hr Hdec Hq Hp Ht
         |raw theirs e Hd Hr Hdec Hq Hp Ht He] Hg Hopen;
    try (split; [eapply replays_events; reflexivity|split; [exact Hg|reflexivity]]).
  - destruct (throw_in_play n (game w) theirs (draws env (ndraw w)) Hg)
      as (res' & g1 & Hthrow & _ & _ & Hg1); [now apply in_play_open|].
    rewrite Hthrow in Ht. injection Ht as _ _ <-.
    split; [|split; [exact Hg1|destruct (drains env (S (ndrain w))); discriminate]].
    eexists. split; [reflexivity|]. cbn [thrown omap app round_report].
    split; [reflexivity|]. cbn. now rewrite Hthrow.
  - destruct (throw_in_play n (game w) theirs (draws env (ndraw w)) Hg)
      as (res' & g1 & Hthrow & _); [now apply in_play_open|].
    rewrite Hthrow in Ht. discriminate Ht.
Qed.

Lemma passes_replays (n : Z) (env : Env) (w w' : World) (r : status unit) :
  passes env w r w' -> in_play n (game w) -> game_over (game w) = false ->
  replays env w w' /\ in_play n (game w').
Proof.
  induction 1 as [w|w w' Hp|w w' e Hp|w w1 w' r Hp _ IH]; intros Hg Hopen.
  - split; [apply replays_refl|exact Hg].
  - destruct (pass_replays n _ _ _ _ Hp Hg Hopen) as (H1 & H2 & _). auto.
  - destruct (pass_replays n _ _ _ _ Hp Hg Hopen) as (H1 & H2 & _). auto.
  - destruct (pass_replays n _ _ _ _ Hp Hg Hopen) as (H1 & H2 & Hsame).
    specialize (Hsame eq_refl). rewrite Hsame in IH.
    destruct (IH Hg Hopen) as [H3 H4]. split; [|exact H4].
    eapply replays_trans; eauto.
Qed.

Lemma banner_thrown : thrown banner = [].
Proof. reflexivity. Qed.

Lemma banner_replays (env : Env) (w : World) :
  replays env w (moved w (game w) banner 0 1 0).
Proof. apply replays_events with (evs := banner); reflexivity. Qed.

Lemma playing_replays (n : Z) (env : Env) (w w' : World) (r : status unit) :
  playing env w r w' -> in_play n (game w) ->
  replays env w w' /\ in_play n (game w').
Proof.
  induction 1 as [w Hover|w Hopen|w Hopen Hd|w w' r Hopen Hd Hp Hr
                 |w w1 w' r Hopen Hd Hp _ IH]; intros Hg.
  - split; [apply replays_refl|exact Hg].
  - split; [apply replays_refl|exact Hg].
  - split; [apply banner_replays|exact Hg].
  - destruct (passes_replays n _ _ _ _ Hp Hg Hopen) as [H1 H2].
    split; [|exact H2]. eapply replays_trans; [apply banner_replays|exact H1].
  - destruct (passes_replays n _ _ _ _ Hp Hg Hopen) as [H1 H2].
    destruct (IH H2) as [H3 H4]. split; [|exact H4].
    eapply replays_trans; [apply banner_replays|].
    eapply replays_trans; eauto.
Qed.

Lemma conclude_replays (env : Env) (r : status unit) (w : World) :
  replays env w (snd (conclude env r w)).
Proof.
  destruct r as [[]|[]|]; cbn [conclude snd];
    try (eapply replays_events; reflexivity).
  apply replays_refl.
Qed.

Lemma fresh3_in_play : in_play 3 fresh3.
Proof. split; cbn; try reflexivity; lia. Qed.

Lemma client_replays (fuel : nat) (env : Env) (r : status unit) (w : World) :
  roshambo_client fuel env = Served r w ->
  replays env (new_world fresh3) w /\ in_play 3 (game w).
Proof.
  intros Hrun. destruct (client_playing fuel env) as (r1 & w1 & Hplaying & Hrun').
  rewrite Hrun in Hrun'. injection Hrun' as -> ->.
  destruct (playing_replays 3 _ _ _ _ Hplaying fresh3_in_play) as [H1 H2].
  split; [eapply replays_trans; [exact H1|apply conclude_replays]|].
  destruct r1 as [[]|[]|]; exact H2.
Qed.

(** X14: in every session the game object is the one obtained from
    [Roshambo(rounds=3)] by the calls of [throw] in the trace, made in
    order, the k-th against the k-th draw of the random source; each
    draw made is used by one call, and there are at most three. *)
Theorem session_replays_throws (fuel : nat) (env : Env) :
  exists r w,
    roshambo_client fuel env = Served r w
    /\ ndraw w = length (thrown (trace w))
    /\ (length (thrown (trace w)) <= 3)%nat
    /\ play fresh3 (zip (thrown (trace w)) (drawn env 0 (ndraw w)))
       = Return (game w).
Proof.
  destruct (client_playing fuel env) as (r1 & w1 & _ & Hrun).
  eexists _, _. split; [exact Hrun|].
  destruct (client_replays fuel env _ _ Hrun) as [(evs & Htr & Hn & Hplay) Hg].
  cbn [new_world trace ndraw game app] in *. rewrite Nat.add_0_r in Hn.
  rewrite Htr, Hn. split; [reflexivity|]. split; [|exact Hplay].
  destruct (Nat.le_gt_cases (length (thrown evs)) 3) as [Hle|Hgt]; [exact Hle|].
  exfalso.
  rewrite <- (firstn_skipn 4 (zip (thrown evs) (drawn env 0 (length (thrown evs))))),
    play_app in Hplay.
  destruct (firstn 4 _) as [|p0 [|p1 [|p2 [|p3 rest]]]] eqn:Hfirst;
    try (apply (f_equal (@length _)) in Hfirst;
         rewrite length_take, length_zip_with in Hfirst;
         unfold drawn in Hfirst; rewrite length_map, length_seq in Hfirst;
         cbn [length] in Hfirst; lia).
  destruct p0 as [a0 b0], p1 as [a1 b1], p2 as [a2 b2], p3 as [a3 b3].
  destruct (play_in_play 3 [(a0, b0); (a1, b1); (a2, b2)] fresh3 fresh3_in_play)
    as (g3 & Hplay3 & Hround & Hg3); [cbn; lia|].
  change ((a0, b0) :: (a1, b1) :: (a2, b2) :: (a3, b3) :: rest)
    with ([(a0, b0); (a1, b1); (a2, b2)] ++ (a3, b3) :: rest)%list in Hplay.
  rewrite play_app, Hplay3 in Hplay. cbn [play] in Hplay.
  rewrite throw_when_over in Hplay; [discriminate|].
  rewrite (play_over _ _ Hg3), Hround. reflexivity.
Qed.

(** ** What is written *)

Lemma report_ascii (theirs mine : Choice) (res : Result) :
  Forall writes_ascii (round_report theirs mine res).
Proof. destruct theirs, mine, res; repeat constructor. Qed.

Lemma banner_ascii : Forall writes_ascii banner.
Proof. repeat constructor. Qed.

Lemma pass_ascii (env : Env) (w w' : World) (r : status bool) :
  pass env w r w' ->
  Forall writes_ascii (trace w) -> Forall writes_ascii (trace w').
Proof.
  intros Hpass Hw.
  destruct Hpass as [Hd|Hd Hread|msg Hd Hread|name Hd Hread
                    |raw Hd Hread Hdec|raw Hd Hread Hq
                    |raw err Hd Hread Hdec Hq Hp
                    |raw theirs res flag g' Hd Hread Hdec Hq Hp Ht
                    |raw theirs e' Hd Hread Hdec Hq Hp Ht He];
    cbn [moved trace]; apply Forall_app_2; try exact Hw;
    try (repeat constructor; fail).
  - repeat constructor. cbn [writes_ascii].
    rewrite is_ascii_app, (parse_choice_error_ascii raw err Hp). reflexivity.
  - apply Forall_app_2; [repeat constructor|apply report_ascii].
Qed.

Lemma passes_ascii (env : Env) (w w' : World) (r : status unit) :
  passes env w r w' ->
  Forall writes_ascii (trace w) -> Forall writes_ascii (trace w').
Proof.
  induction 1 as [w|w w' Hp|w w' e Hp|w w1 w' r Hp _ IH]; intros Hw;
    eauto using pass_ascii.
Qed.

Lemma playing_ascii (env : Env) (w w' : World) (r : status unit) :
  playing env w r w' ->
  Forall writes_ascii (trace w) -> Forall writes_ascii (trace w').
Proof.
  assert (Hbanner : forall w0, Forall writes_ascii (trace w0) ->
            Forall writes_ascii (trace (moved w0 (game w0) banner 0 1 0)))
    by (intros w0 H0; cbn [moved trace]; apply Forall_app_2;
        [exact H0|exact banner_ascii]).
  induction 1 as [w Hover|w Hopen|w Hopen Hd|w w' r Hopen Hd Hp Hr
                 |w w1 w' r Hopen Hd Hp _ IH]; intros Hw; auto.
  - eapply passes_ascii; eauto.
  - apply IH. eapply passes_ascii; eauto.
Qed.

Lemma conclude_ascii (env : Env) (r : status unit) (w : World) :
  Forall writes_ascii (trace w) ->
  Forall writes_ascii (trace (snd (conclude env r w))).
Proof.
  intros Hw.
  destruct r as [[]|[]|]; cbn [conclude snd moved trace]; try exact Hw;
    apply Forall_app_2; try exact Hw; try (repeat constructor; fail).
  unfold verdict. destruct (they_win (game w)); repeat constructor.
Qed.

(** X5: whatever the client sends and whatever the streams do, every
    byte a session hands to the stream writer is an ASCII character.
    The texts given to [StringWriter.write] (the banner, the prompt,
    the report of a round, the final message) are ASCII, and in the
    "Invalid choice" line the input is quoted with its bytes escaped
    and the number printed in decimal; [encode] then yields one byte
    per character. *)
Theorem session_writes_ascii (fuel : nat) (env : Env) :
  exists r w,
    roshambo_client fuel env = Served r w
    /\ Forall (fun data => Py.is_ascii data = true) (sent (trace w)).
Proof.
  destruct (client_playing fuel env) as (r1 & w1 & Hplaying & Hrun).
  eexists _, _. split; [exact Hrun|].
  assert (Hall : Forall writes_ascii (trace (snd (conclude env r1 w1)))).
  { apply conclude_ascii. apply (playing_ascii _ _ _ _ Hplaying). constructor. }
  induction Hall as [|ev evs Hev _ IH]; [constructor|].
  destruct ev; cbn [sent omap] in *; try exact IH.
  constructor; [exact Hev|exact IH].
Qed.

(** ** How a session ends *)

Lemma thrown_count (evs : list event) : length (thrown evs) = throw_count evs.
Proof.
  unfold thrown, throw_count. induction evs as [|[] evs IH]; cbn; auto.
Qed.

Lemma ordinary_write (evs : list event) (msg : string) :
  Forall ordinary evs -> In (EvWrite msg) evs -> ~ In msg final_messages.
Proof.
  intros Hord Hin. rewrite List.Forall_forall in Hord. exact (Hord _ Hin).
Qed.

Lemma ordinary_open (evs : list event) : Forall ordinary evs -> ~ In EvClose evs.
Proof.
  intros Hord Hin. rewrite List.Forall_forall in Hord. exact (Hord _ Hin).
Qed.

(** X15: the handler writes a verdict only as its last message, after
    exactly three rounds have been played and the game is over; the
    verdict is "You won the game!" exactly when the client has won at
    least two of the three. *)
Theorem verdict_follows_three_rounds
        (fuel : nat) (env : Env) (r : status unit) (w : World) (msg : string) :
  roshambo_client fuel env = Served r w ->
  In (EvWrite msg) (trace w) ->
  msg = "You won the game!" \/ msg = "You lost the game!" ->
  length (thrown (trace w)) = 3%nat
  /\ game_over (game w) = true
  /\ (msg = "You won the game!" <-> 2 <= count_WIN (results (game w)))
  /\ exists before,
      trace w = (before ++ [EvWrite msg; EvWrite eol; EvDrain; EvClose])%list
      /\ ~ In (EvWrite msg) before.
Proof.
  intros Hrun Hin Hmsg.
  assert (Hfinal : In msg final_messages) by (destruct Hmsg as [-> | ->]; simpl; auto).
  destruct (session_spec fuel env) as (r' & w' & Hrun' & Hg & Hround & Hend).
  rewrite Hrun in Hrun'. injection Hrun' as <- <-.
  destruct (client_replays fuel env r w Hrun) as [(evs0 & Htr0 & _ & Hplay) _].
  assert (Hno : forall evs, Forall ordinary evs -> ~ In (EvWrite msg) evs)
    by (intros evs Hord Hin'; exact (ordinary_write evs msg Hord Hin' Hfinal)).
  destruct Hend as [evs raw' Htr Hord Hq Hover _|evs Htr Hord Hover _
                   |evs Htr Hord _|evs e Htr Hord _ _|Hord _].
  - rewrite Htr in Hin. apply in_app_or in Hin as [Hin|Hin];
      [destruct (Hno evs Hord Hin)|].
    destruct Hin as [Hin|[[= <-]|[[= <-]|Hin]]];
      [discriminate Hin|destruct Hmsg; discriminate
       |destruct Hmsg; discriminate|not_in_tail Hin].
  - rewrite Htr in Hin. apply in_app_or in Hin as [Hin|Hin];
      [destruct (Hno evs Hord Hin)|].
    destruct Hin as [[= Hv]|[[= <-]|Hin]];
      [|destruct Hmsg; discriminate|not_in_tail Hin].
    rewrite thrown_count.
    destruct Hg as [_ _ [_ Hle] Hgover]. rewrite Hover in Hgover.
    symmetry in Hgover. apply Z.leb_le in Hgover.
    split; [lia|]. split; [exact Hover|].
    pose proof (play_consistent 3 _ fresh3 (game w)
                  (init_consistent 3 fresh3 eq_refl) Hplay) as Hcons.
    pose proof (cons_frozen 3 _ Hcons Hover) as Hwin.
    change (3 / 2) with 1 in Hwin.
    split.
    + rewrite <- Hv. unfold verdict. rewrite Hwin.
      destruct (1 <? count_WIN (results (game w))) eqn:Hc.
      * apply Z.ltb_lt in Hc. split; [lia|reflexivity].
      * apply Z.ltb_ge in Hc. split; [discriminate|lia].
    + exists evs. rewrite <- Hv. split; [exact Htr|].
      rewrite Hv. now apply Hno.
  - rewrite Htr in Hin. apply in_app_or in Hin as [Hin|Hin];
      [destruct (Hno evs Hord Hin)|not_in_tail Hin].
  - rewrite Htr in Hin. apply in_app_or in Hin as [Hin|Hin];
      [destruct (Hno evs Hord Hin)|not_in_tail Hin].
  - destruct (Hno _ Hord Hin).
Qed.

Lemma verdict_follows_three_rounds_witness :
  exists r w before,
    roshambo_client 4 (scripted [["1"; x0a]; ["0"; x0a]; ["2"; x0a]]%byte
                                [ROCK; SCISSORS; ROCK]) = Served r w
    /\ length (thrown (trace w)) = 3%nat
    /\ 2 <= count_WIN (results (game w))
    /\ trace w = (before ++ [EvWrite "You won the game!"; EvWrite eol;
                             EvDrain; EvClose])%list.
Proof.
  destruct (roshambo_client 4 (scripted [["1"; x0a]; ["0"; x0a]; ["2"; x0a]]%byte
                                        [ROCK; SCISSORS; ROCK]))
    as [e|r w] eqn:Hrun; [vm_compute in Hrun; discriminate Hrun|].
  destruct (verdict_follows_three_rounds
              4 (scripted [["1"; x0a]; ["0"; x0a]; ["2"; x0a]]%byte
                          [ROCK; SCISSORS; ROCK])
              r w "You won the game!" Hrun)
    as (Hlen & _ & Hwin & before & Htr & _).
  - vm_compute in Hrun. injection Hrun as <- <-. simpl. tauto.
  - left. reflexivity.
  - exists r, w, before. split; [reflexivity|]. split; [exact Hlen|].
    split; [now apply Hwin|exact Htr].
Defined.

(** X16: whenever the handler is done, by return or by exception, the
    writer has been closed exactly once and the close is the last thing
    done; while the session is under way the writer is open. *)
Theorem writer_is_closed_once_and_last (fuel : nat) (env : Env) :
  exists r w,
    roshambo_client fuel env = Served r w
    /\ (r = Pending -> ~ In EvClose (trace w))
    /\ (r <> Pending ->
        exists before,
          trace w = (before ++ [EvClose])%list /\ ~ In EvClose before).
Proof.
  destruct (session_spec fuel env) as (r & w & Hrun & _ & _ & Hend).
  exists r, w. split; [exact Hrun|].
  destruct Hend as [evs raw' Htr Hord _ _ Hr|evs Htr Hord _ Hr
                   |evs Htr Hord Hr|evs e Htr Hord Hr _|Hord Hr].
  - split; [intros ->; destruct Hr as [|(e & ? & _)]; discriminate|]. intros _.
    exists (evs ++ [EvRead raw'; EvWrite "Giving up?"; EvWrite eol; EvDrain])%list.
    split; [rewrite Htr, <- app_assoc; reflexivity|].
    intros Hin. apply in_app_or in Hin as [Hin|Hin];
      [exact (ordinary_open evs Hord Hin)|not_in_tail Hin].
  - split; [intros ->; destruct Hr as [|(e & ? & _)]; discriminate|]. intros _.
    exists (evs ++ [EvWrite (verdict (game w)); EvWrite eol; EvDrain])%list.
    split; [rewrite Htr, <- app_assoc; reflexivity|].
    intros Hin. apply in_app_or in Hin as [Hin|Hin];
      [exact (ordinary_open evs Hord Hin)|not_in_tail Hin].
  - split; [intros ->; discriminate|]. intros _.
    exists evs. split; [exact Htr|now apply ordinary_open].
  - split; [intros ->; discriminate|]. intros _.
    exists evs. split; [exact Htr|now apply ordinary_open].
  - split; [intros _; now apply ordinary_open|]. intros Hn. now destruct Hn.
Qed.

Lemma pass_raises (n : Z) (env : Env) (w w' : World) (e : exn) :
  pass env w (Raised e) w' ->
  in_play n (game w) -> game_over (game w) = false ->
  e = Quit \/ e = UnicodeDecodeError
  \/ read_raised env w' e \/ drain_raised env w' e.
Proof.
  intros Hpass Hg Hopen. remember (@Raised bool e) as r eqn:Hr.
  destruct Hpass as [Hd|Hd Hread|msg Hd Hread|name Hd Hread
                    |raw Hd Hread Hdec|raw Hd Hread Hq
                    |raw err Hd Hread Hdec Hq Hp
                    |raw theirs res flag g' Hd Hread Hdec Hq Hp Ht
                    |raw theirs e' Hd Hread Hdec Hq Hp Ht He];
    try (injection Hr as <-).
  - do 3 right. exists (ndrain w). auto.
  - right; right; left. exists (nread w). auto.
  - right; right; left. exists (nread w). split; [reflexivity|]. eauto.
  - right; right; left. exists (nread w). split; [reflexivity|]. eauto 6.
  - auto.
  - auto.
  - destruct (drains env (S (ndrain w))) eqn:Hd'; [discriminate Hr|].
    injection Hr as <-. do 3 right. exists (S (ndrain w)). auto.
  - destruct (drains env (S (ndrain w))) eqn:Hd'; [discriminate Hr|].
    injection Hr as <-. do 3 right. exists (S (ndrain w)). auto.
  - destruct (throw_in_play n (game w) theirs (draws env (ndraw w)) Hg)
      as (res' & g1 & Hthrow & _); [now apply in_play_open|].
    rewrite Hthrow in Ht. discriminate Ht.
Qed.

Lemma passes_raises (n : Z) (env : Env) (w w' : World) (r : status unit) :
  passes env w r w' ->
  forall e, r = Raised e ->
  in_play n (game w) -> game_over (game w) = false ->
  e = Quit \/ e = UnicodeDecodeError
  \/ read_raised env w' e \/ drain_raised env w' e.
Proof.
  induction 1 as [w|w w' Hp|w w' e' Hp|w w1 w' r Hp _ IH];
    intros e Hr Hg Hopen; try discriminate Hr.
  - injection Hr as <-. exact (pass_raises n env w w' e' Hp Hg Hopen).
  - destruct (pass_replays n _ _ _ _ Hp Hg Hopen) as (_ & _ & Hsame).
    specialize (Hsame eq_refl). rewrite Hsame in IH. now apply IH.
Qed.

Lemma playing_raises (n : Z) (env : Env) (w w' : World) (r : status unit) :
  playing env w r w' ->
  forall e, r = Raised e ->
  in_play n (game w) ->
  e = Quit \/ e = UnicodeDecodeError
  \/ read_raised env w' e \/ drain_raised env w' e.
Proof.
  induction 1 as [w Hover|w Hopen|w Hopen Hd|w w' r Hopen Hd Hp Hr
                 |w w1 w' r Hopen Hd Hp _ IH]; intros e He Hg;
    try discriminate He.
  - injection He as <-. do 3 right. exists (ndrain w). auto.
  - exact (passes_raises n env _ _ _ Hp e He Hg Hopen).
  - destruct (passes_replays n _ _ _ _ Hp Hg Hopen) as [_ Hg1]. now apply IH.
Qed.

(** X17: an exception leaves [roshambo_client] in two ways only.  The
    flush of the final message (a verdict or the farewell), which
    stands outside the [try], fails and raises what the stream raises,
    [ConnectionResetError] included.  Or the last call of [readline] or
    the last flush made in the rounds raises something else than
    [ConnectionResetError]: the [ValueError] of [readline] for an
    overlong line, or another error of the stream.  So [Quit],
    [UnicodeDecodeError], [GameOver], [IndexError] and the
    [ValueError]s of [int] and [Choice] never leave it.  The writer is
    closed in both cases. *)
Theorem only_stream_errors_escape
        (fuel : nat) (env : Env) (r : status unit) (w : World) (e : exn) :
  roshambo_client fuel env = Served r w ->
  r = Raised e ->
  (exists before, trace w = (before ++ [EvClose])%list)
  /\ (e = ConnectionResetError
      \/ (exists msg k, e = ValueError msg /\ reads env k = Overrun msg)
      \/ exists name, e = StreamError name)
  /\ ((drain_raised env w e
       /\ exists before msg,
           trace w = (before ++ [EvWrite msg; EvWrite eol; EvDrain;
                                 EvClose])%list
           /\ In msg final_messages)
      \/ (e <> ConnectionResetError
          /\ (read_raised env w e \/ drain_raised env w e))).
Proof.
  intros Hrun ->.
  assert (Hkind : forall w0 e0,
             read_raised env w0 e0 \/ drain_raised env w0 e0 ->
             e0 = ConnectionResetError
             \/ (exists msg k, e0 = ValueError msg /\ reads env k = Overrun msg)
             \/ exists name, e0 = StreamError name).
  { intros w0 e0 [(k & _ & [[_ ->]|[(msg & Hk & ->)|(name & _ & ->)]])
                 |(k & _ & _ & ->)]; eauto 7.
    destruct (drain_raises_flush env k) as [->|[name ->]]; eauto. }
  destruct (client_playing fuel env) as (r1 & w1 & Hplaying & Hrun').
  rewrite Hrun in Hrun'. injection Hrun' as Hr Hw.
  pose proof (playing_raises 3 env _ _ _ Hplaying) as Hcause.
  assert (Hsay : forall msg,
             In msg final_messages ->
             (Raised e, w)
             = (if drains env (ndrain w1) then Returned tt
                else Raised (drain_raises env (ndrain w1)),
                moved w1 (game w1) [EvWrite msg; EvWrite eol; EvDrain; EvClose]
                      0 1 0) ->
             (exists before, trace w = (before ++ [EvClose])%list)
             /\ (e = ConnectionResetError
                 \/ (exists msg k, e = ValueError msg /\ reads env k = Overrun msg)
                 \/ exists name, e = StreamError name)
             /\ ((drain_raised env w e
                  /\ exists before msg,
                      trace w = (before ++ [EvWrite msg; EvWrite eol; EvDrain;
                                            EvClose])%list
                      /\ In msg final_messages)
                 \/ (e <> ConnectionResetError
                     /\ (read_raised env w e \/ drain_raised env w e)))).
  { intros msg Hmsg Heq.
    destruct (drains env (ndrain w1)) eqn:Hd; [discriminate Heq|].
    injection Heq as -> ->.
    assert (Hdr : drain_raised env
                    (moved w1 (game w1)
                           [EvWrite msg; EvWrite eol; EvDrain; EvClose] 0 1 0)
                    (drain_raises env (ndrain w1)))
      by (exists (ndrain w1); auto).
    split; [exists (trace w1 ++ [EvWrite msg; EvWrite eol; EvDrain])%list;
            cbn [moved trace]; now rewrite <- app_assoc|].
    split; [exact (Hkind _ _ (or_intror Hdr))|].
    left. split; [exact Hdr|]. eexists _, msg. split; [reflexivity|exact Hmsg]. }
  assert (Hraise : forall e1,
             r1 = Raised e1 -> e1 <> Quit -> e1 <> UnicodeDecodeError ->
             e1 <> ConnectionResetError ->
             (Raised e, w) = (@Raised unit e1, moved w1 (game w1) [EvClose] 0 0 0) ->
             (exists before, trace w = (before ++ [EvClose])%list)
             /\ (e = ConnectionResetError
                 \/ (exists msg k, e = ValueError msg /\ reads env k = Overrun msg)
                 \/ exists name, e = StreamError name)
             /\ ((drain_raised env w e
                  /\ exists before msg,
                      trace w = (before ++ [EvWrite msg; EvWrite eol; EvDrain;
                                            EvClose])%list
                      /\ In msg final_messages)
                 \/ (e <> ConnectionResetError
                     /\ (read_raised env w e \/ drain_raised env w e)))).
  { intros e1 Hr1 Hq Hu Hc Heq. injection Heq as -> ->.
    destruct (Hcause e1 Hr1 fresh3_in_play) as [?|[?|Hstream]];
      [contradiction|contradiction|].
    assert (Hstream' : read_raised env (moved w1 (game w1) [EvClose] 0 0 0) e1
                       \/ drain_raised env (moved w1 (game w1) [EvClose] 0 0 0) e1)
      by exact Hstream.
    split; [now exists (trace w1)|]. split; [exact (Hkind _ _ Hstream')|].
    right. split; [exact Hc|exact Hstream']. }
  assert (Heq : (Raised e, w) = conclude env r1 w1)
    by (rewrite (surjective_pairing (conclude env r1 w1)); congruence).
  clear Hr Hw.
  destruct r1 as [[]|e1|]; cbn [conclude] in Heq.
  - apply (Hsay (verdict (game w1))); [|exact Heq].
    unfold verdict, final_messages. destruct (they_win (game w1)); simpl; auto.
  - destruct e1; cbn [conclude] in Heq; try discriminate Heq;
      try (apply (Hraise _ eq_refl);
           [discriminate|discriminate|discriminate|exact Heq]).
    apply (Hsay "Giving up?"); [simpl; auto|exact Heq].
  - discriminate Heq.
Qed.

Lemma only_stream_errors_escape_witness :
  exists r w before msg,
    roshambo_client 2 (flaky [["q"; x0a]%byte] [] 2) = Served r w
    /\ r = Raised ConnectionResetError
    /\ trace w = (before ++ [EvWrite msg; EvWrite eol; EvDrain; EvClose])%list
    /\ In msg final_messages.
Proof.
  destruct (roshambo_client 2 (flaky [["q"; x0a]%byte] [] 2))
    as [e|r w] eqn:Hrun; [vm_compute in Hrun; discriminate Hrun|].
  destruct (only_stream_errors_escape 2 (flaky [["q"; x0a]%byte] [] 2) r w
                                      ConnectionResetError Hrun)
    as (_ & _ & [(_ & before & msg & Htr & Hmsg)|[Hne _]]).
  - vm_compute in Hrun. now injection Hrun as <- <-.
  - exists r, w, before, msg. split; [reflexivity|].
    split; [vm_compute in Hrun; now injection Hrun as <- <-|]. auto.
  - now destruct Hne.
Defined.

Lemma unusable_pass (env : Env) (w w' : World) (r : status bool) :
  pass env w r w' ->
  drains env (ndrain w) = true -> drains env (S (ndrain w)) = true ->
  unusable (reads env (nread w)) = true ->
  r = Returned false /\ game w' = game w /\ nread w' = S (nread w)
  /\ ndrain w' = S (S (ndrain w)) /\ ndraw w' = ndraw w.
Proof.
  intros [Hd|Hd Hr|msg Hd Hr|name Hd Hr|raw Hd Hr Hdec|raw Hd Hr Hq
         |raw err Hd Hr Hdec Hq Hp
         |raw theirs res flag g' Hd Hr Hdec Hq Hp Ht
         |raw theirs e Hd Hr Hdec Hq Hp Ht He] Hd0 Hd1 Hun;
    try congruence; rewrite Hr in Hun; cbn [unusable] in Hun;
    try discriminate Hun;
    try (rewrite Hdec in Hun; discriminate Hun);
    try (destruct (Py.decode raw); [|discriminate Hun]);
    try (rewrite Hp in Hun; discriminate Hun);
    try (rewrite Hq in Hun; destruct (parse_choice raw); discriminate Hun).
  rewrite Hd1. auto.
Qed.

Lemma choice_loop_unusable (env : Env) :
  (forall k, drains env k = true) ->
  (forall k, unusable (reads env k) = true) ->
  forall fuel w,
    fst (choice_loop fuel env w) = Pending
    /\ game (snd (choice_loop fuel env w)) = game w
    /\ nread (snd (choice_loop fuel env w)) = (fuel + nread w)%nat
    /\ ndraw (snd (choice_loop fuel env w)) = ndraw w.
Proof.
  intros Hup Hun. induction fuel as [|fuel IH]; intros w; [now cbn|].
  rewrite choice_loop_unfold. unfold bind.
  pose proof (loop_body_pass env w) as Hpass.
  destruct (loop_body env w) as [r w1]. cbn [fst snd] in Hpass.
  destruct (unusable_pass env w w1 r Hpass (Hup _) (Hup _) (Hun _))
    as (-> & Hg & Hn & _ & Hw).
  destruct (IH w1) as (H1 & H2 & H3 & H4).
  rewrite H1, H2, H3, H4, Hg, Hn, Hw. repeat split; lia.
Qed.

(** X9: if every line read decodes, is not the quit token and is no
    choice (so at end of file, where [readline] returns the empty line
    again and again), and every flush succeeds, the handler never
    finishes: whatever the fuel, the session is still pending, having
    read one line per pass of the loop of the first round, with no
    round played, no draw made and the writer not closed. *)
Theorem unusable_lines_never_end (fuel : nat) (env : Env) :
  (forall k, drains env k = true) ->
  (forall k, unusable (reads env k) = true) ->
  exists w,
    roshambo_client fuel env = Served Pending w
    /\ game w = fresh3
    /\ nread w = pred fuel
    /\ ndraw w = 0%nat
    /\ ~ In EvClose (trace w).
Proof.
  intros Hup Hun.
  assert (Hloop : fst (play_loop fuel env (new_world fresh3)) = Pending
                  /\ game (snd (play_loop fuel env (new_world fresh3))) = fresh3
                  /\ nread (snd (play_loop fuel env (new_world fresh3))) = pred fuel
                  /\ ndraw (snd (play_loop fuel env (new_world fresh3))) = 0%nat).
  { destruct fuel as [|fuel]; [now cbn|].
    cbn [play_loop new_world game fresh3 game_over]. unfold bind.
    rewrite one_round_unfold, Hup.
    match goal with
    | |- context [choice_loop fuel env ?w0] =>
      destruct (choice_loop_unusable env Hup Hun fuel w0) as (H1 & H2 & H3 & H4);
        destruct (choice_loop fuel env w0) as [r1 w1]
    end.
    cbn [fst snd game nread ndraw new_world] in *. subst r1.
    cbn [fst snd]. repeat split; auto. rewrite H3. cbn [pred]. lia. }
  destruct (session_spec fuel env) as (r & w & Hrun & _ & _ & Hend).
  pose proof (client_conclude fuel env) as Hrun'. rewrite Hrun in Hrun'.
  destruct (play_loop fuel env (new_world fresh3)) as [r1 w1].
  cbn [fst snd] in *. destruct Hloop as (-> & Hg & Hn & Hw).
  cbn [conclude fst snd] in Hrun'. injection Hrun' as -> ->.
  exists w1. split; [exact Hrun|]. repeat (split; [assumption|]).
  destruct Hend as [evs raw' _ _ _ _ [Hr|(e & Hr & _)]
                   |evs _ _ _ [Hr|(e & Hr & _)]
                   |evs _ _ Hr|evs e _ _ Hr _|Hord _];
    try discriminate Hr.
  now apply ordinary_open.
Qed.

Lemma unusable_lines_never_end_witness :
  exists w,
    roshambo_client 7 (scripted [] []) = Served Pending w
    /\ game w = fresh3 /\ nread w = 6%nat.
Proof.
  destruct (unusable_lines_never_end 7 (scripted [] []))
    as (w & Hrun & Hg & Hn & _).
  - reflexivity.
  - intros k. cbn [scripted reads]. destruct k as [|[|k]]; reflexivity.
  - exists w. auto.
Defined.

(** ** The quit token *)

Lemma decode_N_low (s : list N) :
  forallb (fun c => (c <? 128)%N) s = true -> Py.decode_N s = Some s.
Proof.
  induction s as [|c r IH]; [reflexivity|]. simpl.
  intros [-> Hr]%andb_prop. now rewrite (IH Hr).
Qed.

Lemma lstrip_spaces (sp rest : Py.str) :
  forallb Py.isspace sp = true -> Py.lstrip (sp ++ rest)%list = Py.lstrip rest.
Proof.
  induction sp as [|c r IH]; [reflexivity|]. simpl.
  intros [-> Hr]%andb_prop. exact (IH Hr).
Qed.

Lemma space_bytes_low (l : list byte) :
  forallb space_byte l = true ->
  forallb (fun c => (c <? 128)%N) (map Byte.to_N l) = true
  /\ forallb Py.isspace (map Byte.to_N l) = true.
Proof.
  induction l as [|b l IH]; [auto|]. simpl.
  intros [[Hlow Hsp]%andb_prop Hl]%andb_prop.
  destruct (IH Hl) as [-> ->]. now rewrite Hlow, Hsp.
Qed.

(** X7: a line made of the letter q with any ASCII white space before
    and after it (blanks, tabs, CR, LF and the like) passes the quit
    test of [one_round]. *)
Theorem quit_ignores_surrounding_space (pre post : Py.bytes) :
  forallb space_byte pre = true ->
  forallb space_byte post = true ->
  is_quit (pre ++ ["q"%byte] ++ post)%list = true.
Proof.
  intros Hpre Hpost.
  destruct (space_bytes_low pre Hpre) as [Hlow1 Hsp1].
  destruct (space_bytes_low post Hpost) as [Hlow2 Hsp2].
  unfold is_quit, Py.decode. rewrite !map_app.
  rewrite decode_N_low
    by (rewrite !forallb_app, Hlow1, Hlow2; reflexivity).
  apply bool_decide_eq_true_2. unfold Py.strip.
  rewrite lstrip_spaces by exact Hsp1.
  change (map Byte.to_N ["q"%byte]) with [113%N]. cbn [app Py.lstrip].
  change (Py.isspace 113) with false. cbv iota.
  change (113%N :: map Byte.to_N post) with ([113%N] ++ map Byte.to_N post)%list.
  rewrite rev_app_distr, lstrip_spaces
    by (rewrite forallb_forall in *; intros x Hx; apply Hsp2, in_rev, Hx).
  reflexivity.
Qed.

Lemma quit_ignores_surrounding_space_witness :
  is_quit ([" "; x09]%byte ++ ["q"%byte] ++ [" "; x0d; x0a]%byte)%list = true.
Proof.
  apply (quit_ignores_surrounding_space [" "; x09]%byte [" "; x0d; x0a]%byte);
    reflexivity.
Defined.
